(** * Alzense: zone learning, session insights and route scoring

    A shallow embedding of the algorithmic core of the Alzense sources
    ([services/gps.ts], the [InsightsService] class and the
    [RoutingService] class) together with the properties stated about it.

    Numbers.  JavaScript numbers are modelled by rationals [Q]
    (timestamps, counters and lengths by [Z]/[nat]).  The route score of
    [analyzeRouteOptimization] is accumulated in double precision: every
    difference and sum is rounded to the nearest double by [double].  The
    distance of [calculateDistance] is a number or NaN; NaN is made
    explicit where it decides how often the waypoint loop runs
    ([distanceIsNaN], [stepCount]).  Elsewhere distances are compared as
    numbers and arithmetic is exact.  The transcendental functions of
    [Math], the local-time clock behind [Date.getHours] and the text of
    freshly generated ids are supplied by the host and are collected in
    the [Host] interface; so are the JSON codec and the write to
    [localStorage] of the storage service ([Json], [LocalStorage]). *)

From Stdlib Require Import QArith Qround Qminmax Qpower Qabs Lqa ZArith Lia.
From Stdlib Require Import PrimFloat SpecFloat FloatOps.
From Stdlib Require Import Ascii DecimalString.
From stdpp Require Import gmap strings list.

Local Open Scope Q_scope.
Set Warnings "-inexact-float".

(** ** Host interface *)

Class Host := {
  Math_PI : Q;
  Math_sin : Q -> Q;
  Math_cos : Q -> Q;
  Math_sqrt : Q -> Q;
  Math_atan2 : Q -> Q -> Q;
  (** [new Date(t).getHours()], the local hour of day of an epoch time *)
  getHours : Z -> Z;
  (** the text [`${Date.now()}_${Math.random().toString(36).substr(2, 9)}`]
      produced by the n-th id generation *)
  idSuffix : nat -> string
}.

(** ** Number helpers *)

Definition Qltb (x y : Q) : bool := negb (Qle_bool y x).

(** [Math.round]: nearest integer, ties towards plus infinity. *)
Definition Math_round (x : Q) : Z := Qfloor (x + (1 # 2)).

Definition Math_floor (x : Q) : Z := Qfloor x.

(** *** Doubles

    A JavaScript number is an IEEE 754 double, and the sum or difference
    of two numbers is the double nearest to the exact result, a tie going
    to the double whose last significand bit is 0.  [double x] is that
    nearest double: [x] rounded to a multiple of its unit in the last
    place, which is [2 ^ (e - 52)] for [2 ^ e <= |x| < 2 ^ (e + 1)] and not
    less than [2 ^ -1074].  Overflow (beyond 1.8e308) is out of reach of
    the quantities rounded here. *)

(** Nearest integer, a tie going to the even one. *)
Definition roundHalfEven (x : Q) : Z :=
  let f := Qfloor x in
  match Qcompare (x - inject_Z f) (1 # 2) with
  | Lt => f
  | Gt => (f + 1)%Z
  | Eq => if Z.even f then f else (f + 1)%Z
  end.

(** The binary exponent [e] of a positive [x]: [2 ^ e <= x < 2 ^ (e + 1)]. *)
Definition ilog2 (x : Q) : Z :=
  if Qle_bool 1 x then Z.log2 (Qfloor x)
  else (- Z.log2_up (Qceiling (/ x)))%Z.

(** Unit in the last place of the doubles around [x]. *)
Definition ulp (x : Q) : Q := 2 ^ Z.max (-1074) (ilog2 (Qabs x) - 52).

Definition double (x : Q) : Q := inject_Z (roundHalfEven (x / ulp x)) * ulp x.

(** The rational value of a finite binary64 float of the proof
    assistant's kernel, and the test that such a float and a rational are
    the same number; they serve to compare [double] with machine
    arithmetic. *)
Definition floatValue (f : float) : option Q :=
  match Prim2SF f with
  | S754_zero _ => Some 0
  | S754_finite s m e =>
      Some ((if s then -(1) else 1) * inject_Z (Zpos m) * 2 ^ e)
  | _ => None
  end.

Definition sameNumber (f : float) (x : Q) : bool :=
  match floatValue f with
  | Some y => Qeq_bool y x
  | None => false
  end.

(** Template-literal rendering of an integer-valued number. *)
Definition showZ (z : Z) : string := NilZero.string_of_int (Z.to_int z).

(** ** Data model ([types/index.ts]) *)

Inductive Mood := calm | neutral | stressed.

Definition Mood_eqb (a b : Mood) : bool :=
  match a, b with
  | calm, calm | neutral, neutral | stressed, stressed => true
  | _, _ => false
  end.

Record Location := {
  latitude : Q;
  longitude : Q;
  accuracy : option Q;
  loc_timestamp : Z
}.

Record MoodEntry := {
  id : string;
  location : Location;
  mood : Mood;
  noiseLevel : Q;
  timestamp : Z
}.

Record WalkSession := {
  session_id : string;
  startTime : Z;
  endTime : option Z;
  moodEntries : list MoodEntry;
  stressCount : Z;
  calmCount : Z;
  neutralCount : Z
}.

(** [CalmZone] and [StressZone] have the same shape and differ only in the
    names of their last three fields; one record serves both:
    [score] is [calmScore] / [stressScore], [count] is [visitCount] /
    [stressCount] and [last] is [lastVisited] / [lastStressed]. *)
Record Zone := {
  zone_id : string;
  center : Location;
  radius : Q;
  score : Q;
  count : Z;
  last : Z
}.

(** The anonymous [{ center, entries }] objects built by the clustering. *)
Record Cluster := {
  c_center : Location;
  c_entries : list MoodEntry
}.

(** ** [GPSService] *)

Section Gps.
Context `{Host}.

Definition calculateDistance (loc1 loc2 : Location) : Q :=
  let R := 6371000 in
  let phi1 := (latitude loc1 * Math_PI) / 180 in
  let phi2 := (latitude loc2 * Math_PI) / 180 in
  let dphi := ((latitude loc2 - latitude loc1) * Math_PI) / 180 in
  let dlam := ((longitude loc2 - longitude loc1) * Math_PI) / 180 in
  let a :=
    Math_sin (dphi / 2) * Math_sin (dphi / 2) +
    Math_cos phi1 * Math_cos phi2 * Math_sin (dlam / 2) * Math_sin (dlam / 2) in
  let c := 2 * Math_atan2 (Math_sqrt a) (Math_sqrt (1 - a)) in
  R * c.

Definition isWithinRadius (center0 point : Location) (radiusMeters : Q) : bool :=
  Qle_bool (calculateDistance center0 point) radiusMeters.

(** The value [a] of [calculateDistance], of which the two square roots
    [Math.sqrt(a)] and [Math.sqrt(1 - a)] are taken. *)
Definition haversine (loc1 loc2 : Location) : Q :=
  let phi1 := (latitude loc1 * Math_PI) / 180 in
  let phi2 := (latitude loc2 * Math_PI) / 180 in
  let dphi := ((latitude loc2 - latitude loc1) * Math_PI) / 180 in
  let dlam := ((longitude loc2 - longitude loc1) * Math_PI) / 180 in
  Math_sin (dphi / 2) * Math_sin (dphi / 2) +
  Math_cos phi1 * Math_cos phi2 * Math_sin (dlam / 2) * Math_sin (dlam / 2).

(** [Math.sqrt] of a negative number is NaN, and [Math.atan2] and the
    product with [R] hand a NaN on: the distance is NaN when [a] or
    [1 - a] is negative.  In exact arithmetic [a] lies in [0,1]; the
    host's sine and cosine are rounded, and for points nearly opposite on
    the globe [a] comes out above 1. *)
Definition distanceIsNaN (loc1 loc2 : Location) : bool :=
  Qltb (haversine loc1 loc2) 0 || Qltb (1 - haversine loc1 loc2) 0.
End Gps.

(** ** [InsightsService.clusterNearbyEntries] *)

Section Clustering.
Context `{Host}.

(** Body of the inner [entries.forEach(otherEntry => ...)]; the state is
    the member list of the cluster under construction and the
    [processed] set. *)
Definition scanNearby (radiusMeters : Q) (entry : MoodEntry)
    (acc : list MoodEntry * gset string) (otherEntry : MoodEntry)
    : list MoodEntry * gset string :=
  if String.eqb (id otherEntry) (id entry)
     || bool_decide (id otherEntry ∈ acc.2) then acc
  else if Qle_bool (calculateDistance (location entry) (location otherEntry))
                   radiusMeters
  then (acc.1 ++ [otherEntry], {[ id otherEntry ]} ∪ acc.2)
  else acc.

(** Body of the outer [entries.forEach(entry => ...)]. *)
Definition clusterStep (radiusMeters : Q) (entries : list MoodEntry)
    (st : list Cluster * gset string) (entry : MoodEntry)
    : list Cluster * gset string :=
  if bool_decide (id entry ∈ st.2) then st
  else
    let scanned :=
      fold_left (scanNearby radiusMeters entry) entries ([entry], st.2) in
    (st.1 ++ [ {| c_center := location entry; c_entries := scanned.1 |} ],
     {[ id entry ]} ∪ scanned.2).

Definition clusterNearbyEntries (entries : list MoodEntry) (radiusMeters : Q)
    : list Cluster :=
  (fold_left (clusterStep radiusMeters entries) entries ([], ∅)).1.
End Clustering.

(** ** [InsightsService.updateZonesFromSession]

    Zone records are JavaScript objects: the arrays handed to the function
    and the arrays it returns hold references to them.  The object store is
    a list of records addressed by position; an array of zones is a list of
    such addresses. *)

Definition ref := nat.

Record ZoneStore := {
  heap : list Zone;
  calmZones : list ref;
  stressZones : list ref;
  (** number of ids generated so far *)
  minted : nat
}.

Definition countMood (m : Mood) (es : list MoodEntry) : nat :=
  length (List.filter (fun e => Mood_eqb (mood e) m) es).

(** [entries.filter(e => e.mood === m).length / entries.length] *)
Definition moodRate (m : Mood) (es : list MoodEntry) : Q :=
  inject_Z (Z.of_nat (countMood m es)) / inject_Z (Z.of_nat (length es)).

(** [Math.max(...entries.map(e => e.timestamp))]; the spread of an empty
    array (minus infinity in JavaScript) does not arise, every cluster
    holding at least its anchor. *)
Definition maxTimestamp (es : list MoodEntry) : Z :=
  match List.map timestamp es with
  | [] => 0%Z
  | t :: ts => fold_left Z.max ts t
  end.

(** The in-place update of a matched zone record. *)
Definition bumpZone (members : list MoodEntry) (z : Zone) : Zone :=
  {| zone_id := zone_id z;
     center := center z;
     radius := radius z;
     score := Qmin 1 (score z + (1 # 10));
     count := (count z + Z.of_nat (length members))%Z;
     last := Z.max (last z) (maxTimestamp members) |}.

Section Zones.
Context `{Host}.

(** [zones.find(zone => calculateDistance(zone.center, c) < 50)] *)
Definition findZone (h : list Zone) (c : Location) (zones : list ref)
    : option ref :=
  List.find (fun r =>
    match h !! r with
    | Some z => Qltb (calculateDistance (center z) c) 50
    | None => false
    end) zones.

Definition newZone (prefix : string) (n : nat) (cluster : Cluster) (rate : Q)
    : Zone :=
  {| zone_id := prefix +:+ idSuffix n;
     center := c_center cluster;
     radius := 30;
     score := rate;
     count := Z.of_nat (length (c_entries cluster));
     last := maxTimestamp (c_entries cluster) |}.

(** Body of [clusters.forEach(cluster => ...)]. *)
Definition zoneStep (st : ZoneStore) (cluster : Cluster) : ZoneStore :=
  let stressRate := moodRate stressed (c_entries cluster) in
  let calmRate := moodRate calm (c_entries cluster) in
  if Qltb (6 # 10) stressRate && (2 <=? length (c_entries cluster))%nat then
    match findZone (heap st) (c_center cluster) (stressZones st) with
    | Some r =>
        {| heap := alter (bumpZone (c_entries cluster)) r (heap st);
           calmZones := calmZones st;
           stressZones := stressZones st;
           minted := minted st |}
    | None =>
        {| heap := heap st ++ [newZone "stress_" (minted st) cluster stressRate];
           calmZones := calmZones st;
           stressZones := stressZones st ++ [length (heap st)];
           minted := S (minted st) |}
    end
  else if Qltb (6 # 10) calmRate && (2 <=? length (c_entries cluster))%nat then
    match findZone (heap st) (c_center cluster) (calmZones st) with
    | Some r =>
        {| heap := alter (bumpZone (c_entries cluster)) r (heap st);
           calmZones := calmZones st;
           stressZones := stressZones st;
           minted := minted st |}
    | None =>
        {| heap := heap st ++ [newZone "calm_" (minted st) cluster calmRate];
           calmZones := calmZones st ++ [length (heap st)];
           stressZones := stressZones st;
           minted := S (minted st) |}
    end
  else st.

(** The function proper: [h] is the object store at the time of the call,
    [existingCalmZones] and [existingStressZones] are the argument
    arrays.  The result holds the object store after the call and the two
    returned arrays. *)
Definition updateZonesFromSession (session : WalkSession) (h : list Zone)
    (existingCalmZones existingStressZones : list ref) : ZoneStore :=
  let clusters := clusterNearbyEntries (moodEntries session) 30 in
  fold_left zoneStep clusters
    {| heap := h;
       calmZones := existingCalmZones;
       stressZones := existingStressZones;
       minted := 0 |}.

(** Reading an array of zones through the object store. *)
Definition deref (h : list Zone) (zones : list ref) : list Zone :=
  omap (fun r => h !! r) zones.
End Zones.

(** ** [InsightsService.generateSessionInsights] *)

Record PeriodRate := {
  period_name : string;
  period_stressRate : Q
}.

Section Insights.
Context `{Host}.

Definition periodRate (name : string) (es : list MoodEntry) : PeriodRate :=
  {| period_name := name;
     period_stressRate :=
       if (0 <? length es)%nat then moodRate stressed es else 0 |}.

Definition analyzeTimePatterns (morning afternoon evening : list MoodEntry)
    : option string :=
  let p1 := periodRate "morning" morning in
  let p2 := periodRate "afternoon" afternoon in
  let p3 := periodRate "evening" evening in
  let bestPeriod :=
    fold_left (fun best current =>
      if Qltb (period_stressRate current) (period_stressRate best)
      then current else best) [p2; p3] p1 in
  let worstPeriod :=
    fold_left (fun worst current =>
      if Qltb (period_stressRate worst) (period_stressRate current)
      then current else worst) [p2; p3] p1 in
  if Qltb (period_stressRate bestPeriod) (2 # 10)
     && Qltb (4 # 10) (period_stressRate worstPeriod)
  then Some ("Consider walking more in the " +:+ period_name bestPeriod
             +:+ " when stress levels are lower.")
  else None.

Definition analyzeLocationPatterns (entries : list MoodEntry) : option string :=
  if (length entries <? 3)%nat then None
  else
    let clusters := clusterNearbyEntries entries 50 in
    let stressClusters :=
      List.filter (fun c => Qltb (6 # 10) (moodRate stressed (c_entries c)))
                  clusters in
    let calmClusters :=
      List.filter (fun c => Qltb (6 # 10) (moodRate calm (c_entries c)))
                  clusters in
    if (0 <? length stressClusters)%nat then
      Some "Some areas consistently triggered stress. Consider avoiding these locations."
    else if (0 <? length calmClusters)%nat then
      Some "Some areas consistently provided calm moments. These might be good rest spots."
    else None.

(** [if (x) insights.push(x)] for a [string | null] value. *)
Definition pushIf (insights : list string) (x : option string) : list string :=
  match x with
  | Some s => insights ++ [s]
  | None => insights
  end.

Definition generateSessionInsights (session : WalkSession) : string :=
  let entries := moodEntries session in
  if (length entries =? 0)%nat then "No mood data recorded for this walk."
  else
    let totalEntries := inject_Z (Z.of_nat (length entries)) in
    let stressPercentage :=
      Math_round ((inject_Z (stressCount session) / totalEntries) * 100) in
    let calmPercentage :=
      Math_round ((inject_Z (calmCount session) / totalEntries) * 100) in
    let insights0 :=
      if (calmCount session <? stressCount session)%Z then
        ["The walk had more stressful moments (" +:+ showZ stressPercentage
         +:+ "%) than calm ones."]
      else if (stressCount session <? calmCount session)%Z then
        ["The walk was mostly peaceful (" +:+ showZ calmPercentage
         +:+ "% calm moments)."]
      else ["The walk had a balanced mix of emotions."] in
    let highNoiseEntries :=
      List.filter (fun entry => Qltb 60 (noiseLevel entry)) entries in
    let highNoiseStressed :=
      List.filter (fun entry => Mood_eqb (mood entry) stressed) highNoiseEntries in
    let insights1 :=
      if (0 <? length highNoiseStressed)%nat then
        let noiseStressCorrelation :=
          Math_round ((inject_Z (Z.of_nat (length highNoiseStressed))
                       / inject_Z (Z.of_nat (length highNoiseEntries))) * 100) in
        insights0 ++
        ["High noise levels (" +:+ showZ (Z.of_nat (length highNoiseStressed))
         +:+ " instances) often correlated with stress ("
         +:+ showZ noiseStressCorrelation +:+ "% of the time)."]
      else insights0 in
    let hourOf entry := getHours (timestamp entry) in
    let morningEntries :=
      List.filter (fun entry => (6 <=? hourOf entry)%Z && (hourOf entry <? 12)%Z)
                  entries in
    let afternoonEntries :=
      List.filter (fun entry => (12 <=? hourOf entry)%Z && (hourOf entry <? 18)%Z)
                  entries in
    let eveningEntries :=
      List.filter (fun entry => (18 <=? hourOf entry)%Z || (hourOf entry <? 6)%Z)
                  entries in
    let insights2 :=
      pushIf insights1
        (analyzeTimePatterns morningEntries afternoonEntries eveningEntries) in
    let insights3 := pushIf insights2 (analyzeLocationPatterns entries) in
    String.concat " " insights3.
End Insights.

(** ** [InsightsService.generateRouteSuggestion] *)

Record RouteSuggestion := {
  sug_id : string;
  sug_start : Location;
  sug_end : Location;
  sug_waypoints : list Location;
  sug_calmScore : Q;
  sug_estimatedDuration : Z;
  sug_avoidsStressZones : list string;
  sug_includesCalmZones : list string
}.

Section Suggestion.
Context `{Host}.

(** The predicate of both [filter] calls. *)
Definition nearBoth (start end_ : Location) (zone : Zone) : bool :=
  let distToStart := calculateDistance start (center zone) in
  let distToEnd := calculateDistance end_ (center zone) in
  Qltb distToStart 200 && Qltb distToEnd 200.

(** [(best, current) => current.calmScore > best.calmScore ? current : best] *)
Definition calmer (best current : Zone) : Zone :=
  if Qltb (score best) (score current) then current else best.

(** [now] is the value of [Date.now()] at the call. *)
Definition generateRouteSuggestion (now : Z) (start end_ : Location)
    (calmZones0 stressZones0 : list Zone) : RouteSuggestion :=
  let nearbyCalmZones := List.filter (nearBoth start end_) calmZones0 in
  let '(waypoints, calmScore1) :=
    match nearbyCalmZones with
    | [] => ([], 5 # 10)
    | z :: zs =>
        let bestCalmZone := fold_left calmer zs z in
        ([center bestCalmZone], (5 # 10) + score bestCalmZone * (3 # 10))
    end in
  let nearbyStressZones := List.filter (nearBoth start end_) stressZones0 in
  let calmScore2 :=
    calmScore1 - inject_Z (Z.of_nat (length nearbyStressZones)) * (2 # 10) in
  let totalDistance := calculateDistance start end_ in
  let estimatedDuration := Math_round (totalDistance / 1000 * 12) in
  {| sug_id := "route_" +:+ showZ now;
     sug_start := start;
     sug_end := end_;
     sug_waypoints := waypoints;
     sug_calmScore := Qmax 0 (Qmin 1 calmScore2);
     sug_estimatedDuration := estimatedDuration;
     sug_avoidsStressZones := List.map zone_id nearbyStressZones;
     sug_includesCalmZones := List.map zone_id nearbyCalmZones |}.
End Suggestion.

(** ** [RoutingService] *)

Record RoutePoint := {
  pt_latitude : Q;
  pt_longitude : Q
}.

Record RouteAnalysis := {
  calmScore : Q;
  avoidsStressZones : list string;
  includesCalmZones : list string
}.

Record RouteSegment := {
  seg_start : RoutePoint;
  seg_end : RoutePoint;
  seg_distance : Q;
  seg_duration : Q;
  seg_instructions : string
}.

Record OptimizedRoute := {
  route_id : string;
  route_start : Location;
  route_end : Location;
  route_waypoints : list RoutePoint;
  route_segments : list RouteSegment;
  route_totalDistance : Q;
  route_totalDuration : Q;
  route_calmScore : Q;
  route_avoidsStressZones : list string;
  route_includesCalmZones : list string;
  route_instructions : list string
}.

(** [{ latitude: point.latitude, longitude: point.longitude, timestamp: 0 }] *)
Definition pointLocation (point : RoutePoint) : Location :=
  {| latitude := pt_latitude point;
     longitude := pt_longitude point;
     accuracy := None;
     loc_timestamp := 0 |}.

(** [if (!ids.includes(x)) ids.push(x)] *)
Definition pushUnique (ids : list string) (x : string) : list string :=
  if bool_decide (x ∈ ids) then ids else ids ++ [x].

Section Routing.
Context `{Host}.

(** Body of [stressZones.forEach(zone => ...)] for one waypoint; the
    state is the running score and the avoid-list.  [calmScore -= 0.1]
    subtracts the double nearest to 0.1 and rounds the difference. *)
Definition hitStress (loc : Location) (acc : Q * list string) (zone : Zone)
    : Q * list string :=
  if isWithinRadius (center zone) loc (radius zone)
  then (double (acc.1 - double (1 # 10)), pushUnique acc.2 (zone_id zone))
  else acc.

(** Body of [calmZones.forEach(zone => ...)] for one waypoint;
    [calmScore += 0.05] adds the double nearest to 0.05 and rounds the
    sum. *)
Definition hitCalm (loc : Location) (acc : Q * list string) (zone : Zone)
    : Q * list string :=
  if isWithinRadius (center zone) loc (radius zone)
  then (double (acc.1 + double (5 # 100)), pushUnique acc.2 (zone_id zone))
  else acc.

(** Body of [waypoints.forEach(point => ...)]. *)
Definition visitPoint (calmZones0 stressZones0 : list Zone)
    (st : RouteAnalysis) (point : RoutePoint) : RouteAnalysis :=
  let loc := pointLocation point in
  let s := fold_left (hitStress loc) stressZones0
                     (calmScore st, avoidsStressZones st) in
  let c := fold_left (hitCalm loc) calmZones0 (s.1, includesCalmZones st) in
  {| calmScore := c.1; avoidsStressZones := s.2; includesCalmZones := c.2 |}.

Definition analyzeRouteOptimization (waypoints : list RoutePoint)
    (calmZones0 stressZones0 : list Zone) : RouteAnalysis :=
  let st := fold_left (visitPoint calmZones0 stressZones0) waypoints
              {| calmScore := 5 # 10;
                 avoidsStressZones := [];
                 includesCalmZones := [] |} in
  {| calmScore := Qmax 0 (Qmin 1 (calmScore st));
     avoidsStressZones := avoidsStressZones st;
     includesCalmZones := includesCalmZones st |}.

Definition getDirection (start end_ : RoutePoint) : string :=
  let latDiff := pt_latitude end_ - pt_latitude start in
  let lngDiff := pt_longitude end_ - pt_longitude start in
  let angle := Math_atan2 lngDiff latDiff * 180 / Math_PI in
  if Qle_bool (-(225 # 10)) angle && Qltb angle (225 # 10) then "north"
  else if Qle_bool (225 # 10) angle && Qltb angle (675 # 10) then "northeast"
  else if Qle_bool (675 # 10) angle && Qltb angle (1125 # 10) then "east"
  else if Qle_bool (1125 # 10) angle && Qltb angle (1575 # 10) then "southeast"
  else if Qle_bool (1575 # 10) angle || Qltb angle (-(1575 # 10)) then "south"
  else if Qle_bool (-(1575 # 10)) angle && Qltb angle (-(1125 # 10)) then "southwest"
  else if Qle_bool (-(1125 # 10)) angle && Qltb angle (-(675 # 10)) then "west"
  else if Qle_bool (-(675 # 10)) angle && Qltb angle (-(225 # 10)) then "northwest"
  else "forward".

Definition generateSegmentInstruction (start end_ : RoutePoint) (index : nat)
    : string :=
  let distance := calculateDistance (pointLocation start) (pointLocation end_) in
  let direction := getDirection start end_ in
  let roundedDistance := showZ (Math_round distance) in
  let number := showZ (Z.of_nat index + 1) in
  if (index =? 0)%nat then
    "1. Start walking " +:+ direction +:+ " for " +:+ roundedDistance +:+ "m"
  else if Qltb distance 30 then
    number +:+ ". Continue straight for " +:+ roundedDistance +:+ "m"
  else if Qltb distance 100 then
    number +:+ ". Walk " +:+ direction +:+ " for " +:+ roundedDistance +:+ "m"
  else
    number +:+ ". Head " +:+ direction +:+ " for " +:+ roundedDistance +:+ "m".

(** One iteration of the loop of [generateIntermediateWaypoints]: the
    waypoint of index [i]; [r1] and [r2] are the two values returned by
    [Math.random()] in that iteration. *)
Definition jitteredPoint (start end_ : Location) (steps i : Z) (r1 r2 : Q)
    : RoutePoint :=
  let ratio := inject_Z i / inject_Z steps in
  let lat := latitude start + (latitude end_ - latitude start) * ratio in
  let lng := longitude start + (longitude end_ - longitude start) * ratio in
  let variation := 1 # 10000 in
  let latVariation := (r1 - (1 # 2)) * variation in
  let lngVariation := (r2 - (1 # 2)) * variation in
  {| pt_latitude := lat + latVariation; pt_longitude := lng + lngVariation |}.

(** [for (let i = 0; i <= steps; i++) { ... waypoints.push(...) }];
    [random k] is the outcome of the k-th call of [Math.random()] and
    [draws] counts the calls made so far. *)
Fixpoint waypointLoop (fuel : nat) (random : nat -> Q)
    (start end_ : Location) (steps i : Z) (draws : nat)
    (waypoints : list RoutePoint) : list RoutePoint :=
  match fuel with
  | O => waypoints
  | S fuel' =>
      if (i <=? steps)%Z then
        waypointLoop fuel' random start end_ steps (i + 1) (S (S draws))
          (waypoints ++
           [jitteredPoint start end_ steps i (random draws) (random (S draws))])
      else waypoints
  end.

(** [Math.max(3, Math.min(8, Math.floor(distance / 200)))]; [None] is
    NaN, which the division, [Math.floor], [Math.min] and [Math.max] hand
    on. *)
Definition stepCount (start end_ : Location) : option Z :=
  if distanceIsNaN start end_ then None
  else
    let distance := calculateDistance start end_ in
    Some (Z.max 3 (Z.min 8 (Math_floor (distance / 200)))).

(** With [steps] NaN the test [i <= steps] is false from the start and
    the loop body never runs. *)
Definition generateIntermediateWaypoints (random : nat -> Q)
    (start end_ : Location) : list RoutePoint :=
  match stepCount start end_ with
  | Some steps =>
      waypointLoop (Z.to_nat (steps + 1)) random start end_ steps 0 0 []
  | None => []
  end.

(** [for (let i = 0; i < waypoints.length - 1; i++) segments.push(...)];
    the argument list is [waypoints] from index [i] on. *)
Fixpoint buildSegments (i : nat) (rest : list RoutePoint) : list RouteSegment :=
  match rest with
  | a :: (b :: _) as tail =>
      let segmentDistance :=
        calculateDistance (pointLocation a) (pointLocation b) in
      {| seg_start := a;
         seg_end := b;
         seg_distance := segmentDistance;
         seg_duration := segmentDistance / (14 # 10);
         seg_instructions := generateSegmentInstruction a b i |}
      :: buildSegments (S i) tail
  | _ => []
  end.

(** [now] is the value of [Date.now()] at the call. *)
Definition createFallbackRoute (now : Z) (random : nat -> Q)
    (start end_ : Location) (calmZones0 stressZones0 : list Zone)
    : OptimizedRoute :=
  let distance := calculateDistance start end_ in
  let duration := distance / (14 # 10) in
  let waypoints := generateIntermediateWaypoints random start end_ in
  let segments := buildSegments 0 waypoints in
  let analysis := analyzeRouteOptimization waypoints calmZones0 stressZones0 in
  let instructions :=
    List.filter (fun s => negb (String.eqb s ""))
                (List.map seg_instructions segments) in
  {| route_id := "route_" +:+ showZ now;
     route_start := start;
     route_end := end_;
     route_waypoints := waypoints;
     route_segments := segments;
     route_totalDistance := distance;
     route_totalDuration := duration;
     route_calmScore := calmScore analysis;
     route_avoidsStressZones := avoidsStressZones analysis;
     route_includesCalmZones := includesCalmZones analysis;
     route_instructions := instructions |}.
End Routing.

(** ** Notions used in the statements *)

(** All entries held by a list of clusters, in cluster order. *)
Definition members (cs : list Cluster) : list MoodEntry :=
  concat (c_entries <$> cs).

(** A cluster is anchored when it starts with an entry whose location is
    the cluster's center. *)
Definition anchored (c : Cluster) : Prop :=
  ∃ anchor rest, c_entries c = anchor :: rest ∧ c_center c = location anchor.

(** Invariant of the outer loop of the clustering: [processed] holds
    exactly the ids of the entries clustered so far, no id was clustered
    twice, every member comes from the input, and every cluster is
    anchored. *)
Definition clusterInv (entries : list MoodEntry)
    (st : list Cluster * gset string) : Prop :=
  st.2 = list_to_set (id <$> members st.1) ∧
  NoDup (id <$> members st.1) ∧
  (∀ e, e ∈ members st.1 → e ∈ entries) ∧
  Forall anchored st.1.

(** [t] is the greatest timestamp among the entries [es]. *)
Definition isMaxTimestamp (es : list MoodEntry) (t : Z) : Prop :=
  (∃ e, e ∈ es ∧ timestamp e = t) ∧ ∀ e, e ∈ es → (timestamp e ≤ t)%Z.

(** The two tests of the classifier, in the order the code makes them. *)
Definition stressCandidate (c : Cluster) : Prop :=
  (6 # 10) < moodRate stressed (c_entries c) ∧ (2 ≤ length (c_entries c))%nat.

Definition calmCandidate (c : Cluster) : Prop :=
  ¬ stressCandidate c ∧
  (6 # 10) < moodRate calm (c_entries c) ∧ (2 ≤ length (c_entries c))%nat.

(** No zone of the array [zones] has its center less than 50 m from [c]. *)
Definition noZoneNear `{Host} (h : list Zone) (zones : list ref) (c : Location)
    : Prop :=
  ∀ r z, r ∈ zones → h !! r = Some z → ¬ calculateDistance (center z) c < 50.

(** [z] is the record the classifier creates for cluster [c] when [rate]
    is the rate that qualified the cluster. *)
Definition createdZone (c : Cluster) (rate : Q) (z : Zone) : Prop :=
  center z = c_center c ∧ radius z = 30 ∧ score z = rate ∧
  count z = Z.of_nat (length (c_entries c)) ∧
  isMaxTimestamp (c_entries c) (last z).

(** The waypoint lies within the zone's radius of its center: the
    distance from the center to the location that has the waypoint's
    latitude and longitude is at most the radius. *)
Definition touches `{Host} (point : RoutePoint) (zone : Zone) : Prop :=
  calculateDistance (center zone)
    {| latitude := pt_latitude point; longitude := pt_longitude point;
       accuracy := None; loc_timestamp := 0 |}
  <= radius zone.

Definition touchesb `{Host} (point : RoutePoint) (zone : Zone) : bool :=
  Qle_bool
    (calculateDistance (center zone)
       {| latitude := pt_latitude point; longitude := pt_longitude point;
          accuracy := None; loc_timestamp := 0 |})
    (radius zone).

(** Number of (waypoint, zone) pairs where the waypoint touches the zone. *)
Definition hitCount `{Host} (waypoints : list RoutePoint) (zones : list Zone)
    : nat :=
  length (List.filter (fun pz => touchesb pz.1 pz.2)
                      (list_prod waypoints zones)).

(** A hit is a (waypoint, zone) pair where the waypoint touches the zone;
    it is a stress hit or a calm hit after the store the zone is in. *)
Inductive Hit := stressHit | calmHit.

(** The hits of a route, waypoint by waypoint; for one waypoint the
    stress zones it touches come first, then the calm zones, each store in
    its own order. *)
Definition routeHits `{Host} (waypoints : list RoutePoint)
    (calmZones0 stressZones0 : list Zone) : list Hit :=
  flat_map (fun p =>
      List.map (fun _ => stressHit) (List.filter (touchesb p) stressZones0)
      ++ List.map (fun _ => calmHit) (List.filter (touchesb p) calmZones0))
    waypoints.

(** What a hit does to the score: 0.1 less or 0.05 more, in double
    arithmetic; and what it would do in exact arithmetic. *)
Definition applyHit (x : Q) (h : Hit) : Q :=
  match h with
  | stressHit => double (x - double (1 # 10))
  | calmHit => double (x + double (5 # 100))
  end.

Definition exactHit (x : Q) (h : Hit) : Q :=
  match h with
  | stressHit => x - (1 # 10)
  | calmHit => x + (5 # 100)
  end.

(** [Math.max(0, Math.min(1, x))] *)
Definition clamp01 (x : Q) : Q := Qmax 0 (Qmin 1 x).

(** The in-place update of record [z] on behalf of cluster [c]. *)
Definition bumpAll (z : Zone) (c : Cluster) : Zone := bumpZone (c_entries c) z.

(** [r] is the first zone of the array [zones] whose center is less than
    50 m from [c]. *)
Definition firstZoneNear `{Host} (h : list Zone) (zones : list ref)
    (c : Location) (r : ref) : Prop :=
  ∃ before after z,
    zones = before ++ r :: after ∧ h !! r = Some z ∧
    calculateDistance (center z) c < 50 ∧ noZoneNear h before c.

(** Cluster [c] matches record [r] in the store [st]: the cluster
    qualifies as a stress or as a calm candidate and [find], run on the
    working array of that kind, returns [r]. *)
Definition mergesInto `{Host} (st : ZoneStore) (c : Cluster) (r : ref) : Prop :=
  (stressCandidate c ∧
   findZone (heap st) (c_center c) (stressZones st) = Some r)
  ∨ (calmCandidate c ∧
     findZone (heap st) (c_center c) (calmZones st) = Some r).

(** [mergeTrace r st cs hits]: when the classifier processes the clusters
    [cs] in order, starting from the store [st], [hits] are the clusters
    that match record [r] at the moment they are processed, in that
    order. *)
Inductive mergeTrace `{Host} (r : ref)
    : ZoneStore → list Cluster → list Cluster → Prop :=
| mergeTrace_done (st : ZoneStore) : mergeTrace r st [] []
| mergeTrace_hit (st : ZoneStore) (c : Cluster) (cs hits : list Cluster) :
    mergesInto st c r →
    mergeTrace r (zoneStep st c) cs hits →
    mergeTrace r st (c :: cs) (c :: hits)
| mergeTrace_miss (st : ZoneStore) (c : Cluster) (cs hits : list Cluster) :
    ¬ mergesInto st c r →
    mergeTrace r (zoneStep st c) cs hits →
    mergeTrace r st (c :: cs) hits.

(** [s] occurs in [t] as a contiguous piece of text. *)
Definition occursIn (s t : string) : Prop :=
  ∃ pre post, t = pre +:+ s +:+ post.

(** Text as a list of characters, and occurrence of one list inside
    another. *)
Definition chars (s : string) : list ascii := String.list_ascii_of_string s.

Definition occursL (s t : list ascii) : Prop :=
  ∃ pre post, t = pre ++ s ++ post.

Definition inb (l : list ascii) (c : ascii) : bool := existsb (Ascii.eqb c) l.

(** [t] with every character that does not occur in [needle] erased. *)
Definition strip (needle t : string) : list ascii :=
  List.filter (inb (chars needle)) (chars t).

Fixpoint prefixb (s t : list ascii) : bool :=
  match s, t with
  | [], _ => true
  | _ :: _, [] => false
  | a :: s', b :: t' => Ascii.eqb a b && prefixb s' t'
  end.

Fixpoint infixb (s t : list ascii) : bool :=
  prefixb s t ||
  match t with
  | [] => false
  | _ :: t' => infixb s t'
  end.

(** The needle shares no character with the decimal rendering of an
    integer. *)
Definition digitFree (needle : string) : bool :=
  forallb (fun c => negb (inb (chars needle) c)) (chars "-0123456789").

(** ** A concrete host for worked examples

    A small-angle stand-in for the [Math] library: sine is the identity,
    cosine is one, the arc tangent of a quotient is the quotient, the square
    root is taken to six decimals.  For the displacements of a walk
    (fractions of a degree) the resulting distance is the equirectangular
    one, about 11.1 m per 0.0001 degree; coinciding points are at distance
    zero, as with the haversine formula itself.  Hours are read in UTC. *)

Definition smallSqrt (q : Q) : Q :=
  Z.sqrt (Qnum q * Zpos (Qden q) * 1000000000000) # (Qden q * 1000000).

#[local] Instance flatHost : Host := {|
  Math_PI := 355 # 113;
  Math_sin := fun x => x;
  Math_cos := fun _ => 1;
  Math_sqrt := smallSqrt;
  Math_atan2 := fun y x => y / x;
  getHours := fun t => ((t / 3600000) mod 24)%Z;
  idSuffix := fun n => "1700000000000_" +:+ showZ (Z.of_nat n)
|}.

Definition at_ (lat lng : Q) : Location :=
  {| latitude := lat; longitude := lng; accuracy := None; loc_timestamp := 0 |}.

Definition entry_ (name : string) (lat lng : Q) (m : Mood) (t : Z) : MoodEntry :=
  {| id := name; location := at_ lat lng; mood := m; noiseLevel := 40;
     timestamp := t |}.

Definition session_ (es : list MoodEntry) : WalkSession :=
  {| session_id := "walk"; startTime := 0; endTime := None;
     moodEntries := es;
     stressCount := Z.of_nat (countMood stressed es);
     calmCount := Z.of_nat (countMood calm es);
     neutralCount := Z.of_nat (countMood neutral es) |}.

Definition zone_ (name : string) (lat lng r s : Q) (n t : Z) : Zone :=
  {| zone_id := name; center := at_ lat lng; radius := r; score := s;
     count := n; last := t |}.

(** A store holding one stress zone at the origin, and the cluster made of
    the two stressed samples of [walk3]. *)
Definition store1 : ZoneStore :=
  {| heap := [zone_ "z" 0 0 30 (1 # 2) 3 7];
     calmZones := [];
     stressZones := [0%nat];
     minted := 0 |}.

Definition store0 : ZoneStore :=
  {| heap := []; calmZones := []; stressZones := []; minted := 0 |}.

Definition cluster2 : Cluster :=
  {| c_center := at_ 0 0;
     c_entries := [entry_ "a" 0 0 stressed 10; entry_ "b" 0 0 stressed 20] |}.

Definition origin : RoutePoint := {| pt_latitude := 0; pt_longitude := 0 |}.

(** Two stressed samples at one spot and a calm one a degree away. *)
Definition walk3 : list MoodEntry :=
  [entry_ "a" 0 0 stressed 10; entry_ "b" 0 0 stressed 20;
   entry_ "c" 1 1 calm 5].

(** Two stress zones 0.001 degree (about 100 m) apart, and a walk with two
    stressed samples a further 0.001 degree on. *)
Definition zonesApart : list Zone :=
  [zone_ "z" 0 0 30 (1 # 2) 3 7; zone_ "y" (1 # 1000) 0 30 (1 # 2) 2 5].

Definition walkBeyond : list MoodEntry :=
  [entry_ "a" (2 # 1000) 0 stressed 10; entry_ "b" (2 # 1000) 0 stressed 20].


(** * Further functions of the sources *)

(** ** [AudioService] helpers and the noise labels of [MapView] *)

Definition getNoiseDescription (noiseLevel : Q) : string :=
  if Qltb noiseLevel 30 then "Very Quiet"
  else if Qltb noiseLevel 40 then "Quiet"
  else if Qltb noiseLevel 50 then "Moderate"
  else if Qltb noiseLevel 60 then "Loud"
  else if Qltb noiseLevel 70 then "Very Loud"
  else "Extremely Loud".

Definition isStressfulNoise (noiseLevel : Q) : bool := Qltb 60 noiseLevel.

Definition getNoiseClass (noiseLevel : Q) : string :=
  if Qltb noiseLevel 40 then "quiet"
  else if Qltb noiseLevel 60 then "moderate"
  else "loud".

(** ** [RoutingService.isWalkableRoute] and [getRouteDifficulty] *)

Inductive Difficulty := easy | moderate | challenging.

Definition isWalkableRoute (route : OptimizedRoute) : bool :=
  Qltb (route_totalDistance route) 5000
  && forallb (fun segment => Qltb (seg_distance segment) 1000)
             (route_segments route).

Definition getRouteDifficulty (route : OptimizedRoute) : Difficulty :=
  let distance := route_totalDistance route in
  let calmScore0 := route_calmScore route in
  if Qltb distance 1000 && Qltb (7 # 10) calmScore0 then easy
  else if Qltb distance 2500 && Qltb (4 # 10) calmScore0 then moderate
  else challenging.

(** ** Labels of the [RouteSuggestions] view *)

Definition getCalmScoreColor (score0 : Q) : string :=
  if Qle_bool (8 # 10) score0 then "#4ade80"
  else if Qle_bool (6 # 10) score0 then "#84cc16"
  else if Qle_bool (4 # 10) score0 then "#fbbf24"
  else "#ef4444".

Definition getCalmScoreDescription (score0 : Q) : string :=
  if Qle_bool (8 # 10) score0 then "Very Calm"
  else if Qle_bool (6 # 10) score0 then "Calm"
  else if Qle_bool (4 # 10) score0 then "Moderate"
  else "Stressful".

(** ** Statistics of the [SessionHistory] view *)

(** [!session.endTime]: the end time is missing or is the number 0. *)
Definition endTimeMissing (session : WalkSession) : bool :=
  match endTime session with
  | None => true
  | Some t => (t =? 0)%Z
  end.

(** The two numbers shown by [getSessionDuration]; [%] is the remainder
    of JavaScript, which has the sign of the dividend. *)
Definition durationMinutes (duration : Z) : Z :=
  Math_floor (inject_Z duration / 60000).

Definition durationSeconds (duration : Z) : Z :=
  Math_floor (inject_Z (Z.rem duration 60000) / 1000).

Definition getSessionDuration (session : WalkSession) : string :=
  match endTime session with
  | None => "In Progress"
  | Some t =>
      if (t =? 0)%Z then "In Progress"
      else
        let duration := (t - startTime session)%Z in
        showZ (durationMinutes duration) +:+ "m "
        +:+ showZ (durationSeconds duration) +:+ "s"
  end.

Record SessionStats := {
  stat_calm : Z;
  stat_neutral : Z;
  stat_stressed : Z
}.

Definition getSessionStats (session : WalkSession) : SessionStats :=
  let total := length (moodEntries session) in
  if (total =? 0)%nat then
    {| stat_calm := 0; stat_neutral := 0; stat_stressed := 0 |}
  else
    let total' := inject_Z (Z.of_nat total) in
    {| stat_calm :=
         Math_round ((inject_Z (calmCount session) / total') * 100);
       stat_neutral :=
         Math_round ((inject_Z (neutralCount session) / total') * 100);
       stat_stressed :=
         Math_round ((inject_Z (stressCount session) / total') * 100) |}.

Inductive Trend := improving | declining | stable.

(** The callback of both [reduce] calls of [getOverallTrend]. *)
Definition addStressRate (sum : Q) (session : WalkSession) : Q :=
  let total := length (moodEntries session) in
  sum + (if (0 <? total)%nat
         then inject_Z (stressCount session) / inject_Z (Z.of_nat total)
         else 0).

(** [xs.slice(-5)] and [xs.slice(-10, -5)] *)
Definition sliceLast5 {A} (xs : list A) : list A :=
  drop (length xs - 5) xs.

Definition slicePrev5 {A} (xs : list A) : list A :=
  take ((length xs - 5) - (length xs - 10)) (drop (length xs - 10) xs).

Definition getOverallTrend (sessions0 : list WalkSession) : Trend :=
  if (length sessions0 <? 2)%nat then stable
  else
    let recentSessions := sliceLast5 sessions0 in
    let avgStressRate :=
      fold_left addStressRate recentSessions 0
      / inject_Z (Z.of_nat (length recentSessions)) in
    let olderSessions := slicePrev5 sessions0 in
    if (length olderSessions =? 0)%nat then stable
    else
      let olderAvgStressRate :=
        fold_left addStressRate olderSessions 0
        / inject_Z (Z.of_nat (length olderSessions)) in
      if Qltb avgStressRate (olderAvgStressRate - (1 # 10)) then improving
      else if Qltb (olderAvgStressRate + (1 # 10)) avgStressRate then declining
      else stable.

(** ** [App]: starting a walk and logging a mood *)

Record AppState := {
  currentSession : option WalkSession;
  isTracking : bool;
  currentLocation : option Location;
  sessions : list WalkSession;
  app_calmZones : list ref;
  app_stressZones : list ref;
  isRecordingAudio : bool;
  currentNoiseLevel : Q
}.

(** The [newSession] literal of [startWalk]; [sessionId] is the value of
    [uuidv4()] and [now] that of [Date.now()]. *)
Definition newSession (sessionId : string) (now : Z) : WalkSession :=
  {| session_id := sessionId; startTime := now; endTime := None;
     moodEntries := []; stressCount := 0; calmCount := 0; neutralCount := 0 |}.

(** [startWalk] once both services exist; [gpsStarted] and [audioStarted]
    are the results of the two [start...] calls. *)
Definition startWalk (appState : AppState) (sessionId : string) (now : Z)
    (gpsStarted audioStarted : bool) : AppState :=
  if gpsStarted && audioStarted then
    {| currentSession := Some (newSession sessionId now);
       isTracking := true;
       currentLocation := currentLocation appState;
       sessions := sessions appState;
       app_calmZones := app_calmZones appState;
       app_stressZones := app_stressZones appState;
       isRecordingAudio := true;
       currentNoiseLevel := currentNoiseLevel appState |}
  else appState.

(** [logMood]; [uuid] is the value of [uuidv4()] and [now] that of
    [Date.now()]. *)
Definition logMood (appState : AppState) (mood0 : Mood) (uuid : string)
    (now : Z) : AppState :=
  match currentSession appState, currentLocation appState with
  | Some session, Some loc =>
      let moodEntry :=
        {| id := uuid; location := loc; mood := mood0;
           noiseLevel := currentNoiseLevel appState; timestamp := now |} in
      let updatedSession :=
        {| session_id := session_id session;
           startTime := startTime session;
           endTime := endTime session;
           moodEntries := moodEntries session ++ [moodEntry];
           stressCount :=
             (stressCount session + if Mood_eqb mood0 stressed then 1 else 0)%Z;
           calmCount :=
             (calmCount session + if Mood_eqb mood0 calm then 1 else 0)%Z;
           neutralCount :=
             (neutralCount session + if Mood_eqb mood0 neutral then 1 else 0)%Z |} in
      {| currentSession := Some updatedSession;
         isTracking := isTracking appState;
         currentLocation := currentLocation appState;
         sessions := sessions appState;
         app_calmZones := app_calmZones appState;
         app_stressZones := app_stressZones appState;
         isRecordingAudio := isRecordingAudio appState;
         currentNoiseLevel := currentNoiseLevel appState |}
  | _, _ => appState
  end.

(** ** [StorageService]

    [localStorage] is a finite map from keys to text.  [setItem] throws
    when the browser refuses the write (quota exceeded, storage disabled);
    whether it does is the host's decision, [setItemThrows].
    [JSON.stringify] and [JSON.parse] are the host's as well: [parse]
    returns [None] where [JSON.parse] throws and otherwise tells an array
    of records, as the [save...] functions write it, from any other value
    (null, a number, a string, an object). *)

Inductive Parsed (A : Type) : Type :=
| anArray (xs : list A)
| notAnArray.

Arguments anArray {A} xs.
Arguments notAnArray {A}.

Class Json (A : Type) := {
  stringify : list A → string;
  parse : string → option (Parsed A)
}.

Class LocalStorage := {
  setItemThrows : string → string → gmap string string → bool
}.

Definition SESSIONS : string := "alzense_sessions".
Definition CALM_ZONES : string := "alzense_calm_zones".
Definition STRESS_ZONES : string := "alzense_stress_zones".
Definition APP_STATE : string := "alzense_app_state".

(** [const data = localStorage.getItem(key);
     return data ? JSON.parse(data) : []] inside [try]/[catch]: a missing
    key, an empty text and a text that does not parse all give []; any
    other text gives whatever value it parses to, array or not. *)
Definition loadList {A} `{Json A} (key : string)
    (localStorage : gmap string string) : Parsed A :=
  match localStorage !! key with
  | Some data =>
      if String.eqb data "" then anArray []
      else match parse data with
           | Some value => value
           | None => anArray []
           end
  | None => anArray []
  end.

(** [localStorage.setItem(key, JSON.stringify(xs))] inside [try]/[catch]:
    a write that throws is logged and leaves the storage as it was. *)
Definition saveList {A} `{Json A} `{LocalStorage} (key : string) (xs : list A)
    (localStorage : gmap string string) : gmap string string :=
  let text := stringify xs in
  if setItemThrows key text localStorage then localStorage
  else <[key := text]> localStorage.

(** [sessions.findIndex(s => s.id === session.id)]; [None] is -1. *)
Fixpoint findIndexById (sid : string) (xs : list WalkSession) : option nat :=
  match xs with
  | [] => None
  | s :: rest =>
      if String.eqb (session_id s) sid then Some 0%nat
      else S <$> findIndexById sid rest
  end.

Section Storage.
Context `{Json WalkSession} `{Json Zone} `{LocalStorage}.

Definition saveSessions := saveList (A:=WalkSession) SESSIONS.
Definition loadSessions := loadList (A:=WalkSession) SESSIONS.
Definition saveCalmZones := saveList (A:=Zone) CALM_ZONES.
Definition loadCalmZones := loadList (A:=Zone) CALM_ZONES.
Definition saveStressZones := saveList (A:=Zone) STRESS_ZONES.
Definition loadStressZones := loadList (A:=Zone) STRESS_ZONES.

(** [addSession] and [updateSession] have no [try] of their own: when the
    value loaded is not an array, [sessions.push] or [sessions.findIndex]
    is not a function and the TypeError leaves the method ([None]); the
    storage is then as it was. *)
Definition addSession (session : WalkSession)
    (localStorage : gmap string string) : option (gmap string string) :=
  match loadSessions localStorage with
  | anArray sessions0 =>
      Some (saveSessions (sessions0 ++ [session]) localStorage)
  | notAnArray => None
  end.

Definition updateSession (session : WalkSession)
    (localStorage : gmap string string) : option (gmap string string) :=
  match loadSessions localStorage with
  | anArray sessions0 =>
      match findIndexById (session_id session) sessions0 with
      | Some index =>
          Some (saveSessions (<[index := session]> sessions0) localStorage)
      | None => Some localStorage
      end
  | notAnArray => None
  end.

Definition clearAllData (localStorage : gmap string string)
    : gmap string string :=
  fold_left (fun store key => delete key store)
            [SESSIONS; CALM_ZONES; STRESS_ZONES; APP_STATE] localStorage.
End Storage.

(** ** Laws of the host's [Math] used for coinciding points *)

Class HostLaws (H : Host) : Prop := {
  sin_zero : ∀ x, x == 0 → Math_sin x == 0;
  sqrt_zero : ∀ x, x == 0 → Math_sqrt x == 0;
  sqrt_pos : ∀ x, 0 < x → 0 < Math_sqrt x;
  atan2_zero : ∀ y x, y == 0 → 0 < x → Math_atan2 y x == 0
}.

(** ** Notions used in the further statements *)

(** Geometry kept by the outer loop of the clustering: every cluster is
    its anchor followed by entries near the anchor; every input entry not
    yet processed is far from every center; and centers are far from the
    centers of earlier clusters. *)
Definition clusterGeometry `{Host} (radiusMeters : Q)
    (entries : list MoodEntry) (st : list Cluster * gset string) : Prop :=
  Forall (fun c => ∃ anchor rest,
            c_entries c = anchor :: rest ∧ c_center c = location anchor ∧
            Forall (fun x => calculateDistance (location anchor) (location x)
                             <= radiusMeters) rest) st.1 ∧
  (∀ c x, c ∈ st.1 → x ∈ entries → id x ∉ st.2 →
     radiusMeters < calculateDistance (c_center c) (location x)) ∧
  (∀ i j ci cj, (i < j)%nat → st.1 !! i = Some ci → st.1 !! j = Some cj →
     radiusMeters < calculateDistance (c_center ci) (c_center cj)).

(** The zones of one array, taken in array order, have centers at least
    50 m apart, measured from the earlier zone. *)
Definition separated `{Host} (h : list Zone) (zones : list ref) : Prop :=
  ∀ i j ri rj zi zj,
    (i < j)%nat → zones !! i = Some ri → zones !! j = Some rj →
    h !! ri = Some zi → h !! rj = Some zj →
    50 <= calculateDistance (center zi) (center zj).

(** Every reference of the array points into the store. *)
Definition validRefs (h : list Zone) (zones : list ref) : Prop :=
  Forall (fun r => (r < length h)%nat) zones.

Definition tidy `{Host} (st : ZoneStore) : Prop :=
  validRefs (heap st) (calmZones st) ∧ validRefs (heap st) (stressZones st) ∧
  separated (heap st) (calmZones st) ∧ separated (heap st) (stressZones st).

(** The stress rate of a time-of-day bucket: 0 for an empty bucket. *)
Definition bucketRate (es : list MoodEntry) : Q :=
  if (0 <? length es)%nat then moodRate stressed es else 0.

(** The counters of a session agree with its entries. *)
Definition countsConsistent (s : WalkSession) : Prop :=
  stressCount s = Z.of_nat (countMood stressed (moodEntries s)) ∧
  calmCount s = Z.of_nat (countMood calm (moodEntries s)) ∧
  neutralCount s = Z.of_nat (countMood neutral (moodEntries s)).

(** Rank of a difficulty, from the easiest. *)
Definition difficultyRank (d : Difficulty) : nat :=
  match d with
  | easy => 0
  | moderate => 1
  | challenging => 2
  end.

(** A host for worked examples of the storage.  Its codec writes a record
    as [name:number] and an array as the bracketed, comma-separated list
    of its records; for a session the name is the id and the number the
    start time, which is all that a session just started holds, and for a
    zone they are the id and the count.  It reads [null] and [{}] as
    values that are no arrays and fails on any other text.  Its storage
    refuses texts of more than 40 characters. *)
Fixpoint splitAt (sep : ascii) (cur : list ascii) (s : list ascii)
    : list (list ascii) :=
  match s with
  | [] => [List.rev cur]
  | c :: rest =>
      if Ascii.eqb c sep then List.rev cur :: splitAt sep [] rest
      else splitAt sep (c :: cur) rest
  end.

Definition unbracket (s : list ascii) : option (list ascii) :=
  match s with
  | "["%char :: rest =>
      match List.rev rest with
      | "]"%char :: body => Some (List.rev body)
      | _ => None
      end
  | _ => None
  end.

Definition readZ (s : list ascii) : option Z :=
  Z.of_int <$> NilZero.int_of_string (String.string_of_list_ascii s).

Definition readPair {A} (make : string → Z → A) (item : list ascii)
    : option A :=
  match splitAt ":"%char [] item with
  | [name; number] => make (String.string_of_list_ascii name) <$> readZ number
  | _ => None
  end.

Definition pairJson {A} (name : A → string) (number : A → Z)
    (make : string → Z → A) : Json A := {|
  stringify := fun xs =>
    "[" +:+ String.concat ","
              (List.map (fun x => name x +:+ ":" +:+ showZ (number x)) xs)
        +:+ "]";
  parse := fun text =>
    if String.eqb text "null" || String.eqb text "{}" then Some notAnArray
    else
      match unbracket (String.list_ascii_of_string text) with
      | Some [] => Some (anArray [])
      | Some body =>
          anArray <$> mapM (readPair make) (splitAt ","%char [] body)
      | None => None
      end
|}.

#[local] Instance sessionJson : Json WalkSession :=
  pairJson session_id startTime newSession.

#[local] Instance zoneJson : Json Zone :=
  pairJson zone_id count (fun name n => zone_ name 0 0 30 0 n 0).

#[local] Instance smallStorage : LocalStorage := {|
  setItemThrows := fun _ text _ => (40 <? String.length text)%nat
|}.

(** * Properties *)

(** ** Basic facts on the number helpers *)

Lemma Qltb_lt (x y : Q) : Qltb x y = true ↔ x < y.
Proof.
  unfold Qltb. rewrite negb_true_iff. split.
  - intros Hb. apply Qnot_le_lt. intros Hle.
    apply Qle_bool_iff in Hle. congruence.
  - intros Hlt. destruct (Qle_bool y x) eqn:E; [|done].
    apply Qle_bool_iff in E. exfalso. apply (Qlt_not_le _ _ Hlt E).
Qed.

Lemma Qltb_ge (x y : Q) : Qltb x y = false ↔ y <= x.
Proof.
  unfold Qltb. rewrite negb_false_iff. apply Qle_bool_iff.
Qed.

(** ** Rounding to the nearest double *)

Lemma ulp_pos (x : Q) : 0 < ulp x.
Proof. unfold ulp. by apply Qpower_0_lt. Qed.

(** The nearest integer is at most one half away. *)
Lemma roundHalfEven_near (x : Q) :
  -(1 # 2) <= inject_Z (roundHalfEven x) - x ∧
  inject_Z (roundHalfEven x) - x <= 1 # 2.
Proof.
  unfold roundHalfEven. cbv zeta.
  pose proof (Qfloor_le x) as Hlo. pose proof (Qlt_floor x) as Hhi.
  rewrite inject_Z_plus in Hhi. change (inject_Z 1) with 1 in Hhi.
  destruct (Qcompare_spec (x - inject_Z (Qfloor x)) (1 # 2)) as [E|E|E].
  - destruct (Z.even (Qfloor x)).
    + split; lra.
    + rewrite inject_Z_plus. change (inject_Z 1) with 1. split; lra.
  - split; lra.
  - rewrite inject_Z_plus. change (inject_Z 1) with 1. split; lra.
Qed.

(** Rounding does not step over an integer. *)
Lemma roundHalfEven_le (x : Q) (n : Z) :
  x <= inject_Z n → (roundHalfEven x ≤ n)%Z.
Proof.
  intros Hx. unfold roundHalfEven. cbv zeta.
  pose proof (Qfloor_le x) as Hlo.
  assert (Hf : (Qfloor x ≤ n)%Z).
  { rewrite Zle_Qle. lra. }
  assert (Hstep : 0 < x - inject_Z (Qfloor x) → (Qfloor x + 1 ≤ n)%Z).
  { intros Hr. assert (inject_Z (Qfloor x) < inject_Z n) as Hlt by lra.
    rewrite <- Zlt_Qlt in Hlt. lia. }
  destruct (Qcompare_spec (x - inject_Z (Qfloor x)) (1 # 2)) as [E|E|E].
  - destruct (Z.even (Qfloor x)); [done|]. apply Hstep. lra.
  - done.
  - apply Hstep. lra.
Qed.

(** The power of two of the binary exponent does not exceed the number. *)
Lemma ilog2_le (x : Q) : 0 < x → 2 ^ ilog2 x <= x.
Proof.
  intros Hx. unfold ilog2. destruct (Qle_bool 1 x) eqn:E.
  - apply Qle_bool_iff in E.
    assert (Hf : (1 ≤ Qfloor x)%Z).
    { change 1%Z with (Qfloor 1). by apply Qfloor_resp_le. }
    pose proof (Z.log2_spec (Qfloor x) ltac:(lia)) as [Hl _].
    pose proof (Z.log2_nonneg (Qfloor x)) as Hn.
    rewrite <- (Zpower_Qpower 2) by done.
    eapply Qle_trans; [|apply Qfloor_le]. by rewrite <- Zle_Qle.
  - assert (Hlt : x < 1).
    { apply Qnot_le_lt. intros Hle. apply Qle_bool_iff in Hle. congruence. }
    rewrite Qpower_opp.
    set (c := Qceiling (/ x)).
    assert (Hinv : / x <= inject_Z c) by apply Qle_ceiling.
    assert (Hxi : 0 < / x) by (by apply Qinv_lt_0_compat).
    assert (Hc : (0 < c)%Z).
    { rewrite Zlt_Qlt. change (inject_Z 0) with 0. lra. }
    assert (Hup : (c ≤ 2 ^ Z.log2_up c)%Z).
    { destruct (Z.eq_dec c 1%Z) as [Hc1|Hne]; [by rewrite Hc1|].
      apply Z.log2_up_spec. lia. }
    pose proof (Z.log2_up_nonneg c) as Hn.
    rewrite <- (Zpower_Qpower 2) by done.
    assert (Hp : 0 < inject_Z (2 ^ Z.log2_up c)).
    { change 0 with (inject_Z 0). rewrite <- Zlt_Qlt. lia. }
    assert (Hle : / x <= inject_Z (2 ^ Z.log2_up c)).
    { eapply Qle_trans; [exact Hinv|]. by rewrite <- Zle_Qle. }
    apply Qle_shift_inv_r; [exact Hp|].
    assert (E1 : x * / x == 1) by (apply Qmult_inv_r; lra).
    rewrite <- E1. apply Qmult_le_l; [exact Hx|exact Hle].
Qed.

(** And the next power of two exceeds it. *)
Lemma ilog2_lt (x : Q) : 0 < x → x < 2 ^ (ilog2 x + 1).
Proof.
  intros Hx. unfold ilog2. destruct (Qle_bool 1 x) eqn:E.
  - apply Qle_bool_iff in E.
    assert (Hf : (1 ≤ Qfloor x)%Z).
    { change 1%Z with (Qfloor 1). by apply Qfloor_resp_le. }
    pose proof (Z.log2_spec (Qfloor x) ltac:(lia)) as [_ Hu].
    pose proof (Z.log2_nonneg (Qfloor x)) as Hn.
    rewrite <- (Zpower_Qpower 2) by lia.
    eapply Qlt_le_trans; [apply Qlt_floor|].
    rewrite <- Zle_Qle. unfold Z.succ in Hu. lia.
  - assert (Hlt : x < 1).
    { apply Qnot_le_lt. intros Hle. apply Qle_bool_iff in Hle. congruence. }
    assert (Hxi : 1 < / x).
    { apply Qlt_shift_inv_l; [exact Hx|]. by rewrite Qmult_1_l. }
    assert (E1 : x * / x == 1) by (apply Qmult_inv_r; lra).
    pose proof (Qceiling_lt (/ x)) as Hc1.
    pose proof (Qle_ceiling (/ x)) as Hc2.
    set (y := / x) in *. set (c := Qceiling y) in *.
    unfold Z.sub in Hc1. rewrite inject_Z_plus in Hc1.
    change (inject_Z (-1)) with (-(1)) in Hc1.
    assert (Hc : (1 < c)%Z).
    { rewrite Zlt_Qlt. change (inject_Z 1) with 1. lra. }
    pose proof (Z.log2_up_spec c Hc) as [Hlo _].
    pose proof (Z.log2_up_pos c Hc) as Hpos.
    replace (- Z.log2_up c + 1)%Z with (- Z.pred (Z.log2_up c))%Z by lia.
    rewrite Qpower_opp, <- (Zpower_Qpower 2) by lia.
    assert (Hp : 0 < inject_Z (2 ^ Z.pred (Z.log2_up c))).
    { change 0 with (inject_Z 0). rewrite <- Zlt_Qlt. lia. }
    assert (Hle : inject_Z (2 ^ Z.pred (Z.log2_up c)) < y).
    { apply (Qle_lt_trans _ (inject_Z c + -(1))); [|exact Hc1].
      change (-(1)) with (inject_Z (-1)).
      rewrite <- inject_Z_plus, <- Zle_Qle. lia. }
    apply Qlt_shift_inv_l; [exact Hp|].
    rewrite <- E1. apply Qmult_lt_l; [exact Hx|exact Hle].
Qed.

Lemma ilog2_zero (x : Q) : x == 0 → ilog2 x = 0%Z.
Proof.
  intros Hx. unfold ilog2.
  assert (Qle_bool 1 x = false) as ->.
  { destruct (Qle_bool 1 x) eqn:E; [|done].
    apply Qle_bool_iff in E. lra. }
  assert (Qceiling (/ x) = 0%Z) as ->; [|done].
  assert (E : / x == 0) by (by rewrite Hx).
  by rewrite (Qceiling_comp _ _ E).
Qed.

Lemma ilog2_le1 (x : Q) : 0 <= x → 2 ^ ilog2 x <= x + 1.
Proof.
  intros Hx. destruct (Qlt_le_dec 0 x) as [Hpos|Hle].
  - pose proof (ilog2_le x Hpos). lra.
  - assert (Hz : x == 0) by lra. rewrite (ilog2_zero x Hz).
    change (2 ^ 0) with 1. lra.
Qed.

Lemma ulp_le (x : Q) : ulp x <= (Qabs x + 1) * (1 # 4503599627370496).
Proof.
  unfold ulp. pose proof (Qabs_nonneg x) as Hn.
  destruct (Z.max_spec (-1074) (ilog2 (Qabs x) - 52)) as [[_ ->]|[_ ->]].
  - rewrite Qpower_minus by done.
    pose proof (ilog2_le1 (Qabs x) Hn) as Hl.
    assert (E : (2:Q) ^ 52 == 4503599627370496) by reflexivity.
    rewrite E. unfold Qdiv.
    change (/ 4503599627370496) with (1 # 4503599627370496).
    apply Qmult_le_compat_r; [exact Hl|done].
  - apply (Qle_trans _ (2 ^ (-52))).
    + apply Qpower_le_compat_l; [lia|done].
    + change (2 ^ (-52)) with (1 # 4503599627370496). lra.
Qed.

(** The double nearest to a rational differs from it by at most half a
    unit in the last place. *)
Lemma double_near (x : Q) :
  Qabs (double x - x) <= (Qabs x + 1) * (1 # 9007199254740992).
Proof.
  unfold double. pose proof (ulp_pos x) as HU. pose proof (ulp_le x) as HL.
  pose proof (roundHalfEven_near (x / ulp x)) as [H1 H2].
  set (r := inject_Z (roundHalfEven (x / ulp x))) in *.
  set (U := ulp x) in *.
  assert (E : r * U - x == (r - x / U) * U) by (field; lra).
  rewrite E, Qabs_Qmult, (Qabs_pos U) by lra.
  assert (Hr : Qabs (r - x / U) <= 1 # 2) by (apply Qabs_Qle_condition; lra).
  apply (Qle_trans _ ((1 # 2) * U)).
  - apply Qmult_le_compat_r; [exact Hr|lra].
  - lra.
Qed.

(** No rational at or below 0.5 rounds above 0.5. *)
Lemma double_le_half (x : Q) : x <= 1 # 2 → double x <= 1 # 2.
Proof.
  intros Hx. unfold double. pose proof (ulp_pos x) as HU.
  destruct (Qlt_le_dec 0 x) as [Hpos|Hneg].
  - assert (He : (Z.max (-1074) (ilog2 (Qabs x) - 52) ≤ -1)%Z).
    { apply Z.max_lub; [lia|].
      assert (Hl : 2 ^ ilog2 (Qabs x) <= 2 ^ (-1)).
      { eapply Qle_trans; [apply ilog2_le|].
        - rewrite Qabs_pos by lra. exact Hpos.
        - rewrite Qabs_pos by lra. exact Hx. }
      apply Qpower_le_compat_l_inv in Hl; [lia|done]. }
    assert (EU : ulp x == 2 ^ Z.max (-1074) (ilog2 (Qabs x) - 52)) by done.
    set (e := Z.max (-1074) (ilog2 (Qabs x) - 52)) in *.
    set (U := ulp x) in *.
    assert (EN : inject_Z (2 ^ (-1 - e)) == (1 # 2) / U).
    { rewrite (Zpower_Qpower 2) by lia.
      change (inject_Z 2) with (2:Q).
      rewrite Qpower_minus by done. rewrite EU. reflexivity. }
    assert (Hq : x / U <= inject_Z (2 ^ (-1 - e))).
    { rewrite EN. unfold Qdiv. apply Qmult_le_compat_r; [exact Hx|].
      apply Qinv_le_0_compat. lra. }
    apply roundHalfEven_le in Hq. rewrite Zle_Qle in Hq.
    apply (Qle_trans _ (inject_Z (2 ^ (-1 - e)) * U)).
    + apply Qmult_le_compat_r; [exact Hq|lra].
    + rewrite EN. apply Qle_lteq. right. field. lra.
  - assert (Hq : x / ulp x <= inject_Z 0).
    { change (inject_Z 0) with 0. unfold Qdiv.
      apply (Qle_trans _ (0 * / ulp x)); [|lra].
      apply Qmult_le_compat_r; [exact Hneg|].
      apply Qinv_le_0_compat. lra. }
    apply roundHalfEven_le in Hq. rewrite Zle_Qle in Hq.
    change (inject_Z 0) with 0 in Hq.
    apply (Qle_trans _ (0 * ulp x)); [|lra].
    apply Qmult_le_compat_r; [exact Hq|lra].
Qed.

(** On the literals and on runs of hits of either kind, rounding with
    [double] gives the numbers that binary64 machine arithmetic gives. *)
Example double_matches_binary64 :
  sameNumber 0.1%float (double (1 # 10)) = true ∧
  sameNumber 0.05%float (double (5 # 100)) = true ∧
  sameNumber 0.4%float (double (4 # 10)) = true ∧
  sameNumber (0.5 - 0.1)%float (double ((5 # 10) - double (1 # 10))) = true ∧
  sameNumber (0.5 - 0.1 - 0.1 - 0.1 - 0.1 - 0.1)%float
    (fold_left applyHit
       [stressHit; stressHit; stressHit; stressHit; stressHit] (5 # 10))
  = true ∧
  sameNumber (0.5 + 0.05 + 0.05 + 0.05 + 0.05)%float
    (fold_left applyHit [calmHit; calmHit; calmHit; calmHit] (5 # 10))
  = true ∧
  sameNumber (0.5 + 0.05 - 0.1 - 0.1 + 0.05 + 0.05 - 0.1)%float
    (fold_left applyHit
       [calmHit; stressHit; stressHit; calmHit; calmHit; stressHit] (5 # 10))
  = true.
Proof. vm_compute. repeat split. Qed.

(** The literals 0.1 and 0.05 as doubles. *)
Lemma double_tenth :
  (1 # 10) - (1 # 9007199254740992) <= double (1 # 10) ∧
  double (1 # 10) <= (1 # 10) + (1 # 9007199254740992).
Proof. split; apply Qle_bool_iff; vm_compute; reflexivity. Qed.

Lemma double_twentieth :
  (5 # 100) - (1 # 9007199254740992) <= double (5 # 100) ∧
  double (5 # 100) <= (5 # 100) + (1 # 9007199254740992).
Proof. split; apply Qle_bool_iff; vm_compute; reflexivity. Qed.

(** ** Clustering *)

Lemma members_snoc (cs : list Cluster) (c : Cluster) :
  members (cs ++ [c]) = members cs ++ c_entries c.
Proof.
  unfold members. rewrite fmap_app, concat_app. simpl.
  by rewrite app_nil_r.
Qed.

Lemma NoDup_fmap_eq {A B} (f : A → B) (l : list A) (x y : A) :
  NoDup (f <$> l) → x ∈ l → y ∈ l → f x = f y → x = y.
Proof.
  induction l as [|a l IH]; intros Hnd Hx Hy Hf.
  - by apply elem_of_nil in Hx.
  - rewrite fmap_cons in Hnd. apply NoDup_cons in Hnd as [Ha Hnd].
    apply elem_of_cons in Hx as [->|Hx]; apply elem_of_cons in Hy as [->|Hy].
    + done.
    + exfalso. apply Ha. rewrite Hf. by apply list_elem_of_fmap_2.
    + exfalso. apply Ha. rewrite <- Hf. by apply list_elem_of_fmap_2.
    + by apply IH.
Qed.

Lemma NoDup_concat_unique {A} (ls : list (list A)) (i j : nat)
    (l1 l2 : list A) (x : A) :
  NoDup (concat ls) → ls !! i = Some l1 → ls !! j = Some l2 →
  x ∈ l1 → x ∈ l2 → i = j.
Proof.
  revert i j. induction ls as [|l ls IH]; intros i j Hnd Hi Hj H1 H2.
  - done.
  - simpl in Hnd. apply NoDup_app in Hnd as (Hl & Hdisj & Hrest).
    assert (Hin : ∀ k l', ls !! k = Some l' → x ∈ l' → x ∈ concat ls).
    { intros k l' Hk Hx. apply list_elem_of_In, in_concat.
      exists l'. split; apply list_elem_of_In; [|done].
      by eapply list_elem_of_lookup_2. }
    destruct i as [|i], j as [|j]; simpl in *.
    + done.
    + simplify_eq. exfalso. eapply Hdisj; eauto.
    + simplify_eq. exfalso. eapply Hdisj; eauto.
    + f_equal. by apply IH.
Qed.

Section ClusteringFacts.
Context `{Host}.
Variable radiusMeters : Q.

(** What one inner scan adds to the cluster under construction. *)
Lemma scanNearby_fold (anchor : MoodEntry) (xs : list MoodEntry)
    (acc : list MoodEntry * gset string) :
  ∃ added,
    (fold_left (scanNearby radiusMeters anchor) xs acc).1 = acc.1 ++ added ∧
    (fold_left (scanNearby radiusMeters anchor) xs acc).2
      = list_to_set (id <$> added) ∪ acc.2 ∧
    (∀ x, x ∈ added → x ∈ xs ∧ id x ∉ (acc.2) ∧ id x ≠ id anchor) ∧
    NoDup (id <$> added).
Proof.
  revert acc. induction xs as [|x xs IH]; intros acc.
  - exists []. simpl. rewrite app_nil_r.
    split; [done|]. split; [set_solver|]. split; [|constructor].
    intros y Hy. by apply elem_of_nil in Hy.
  - simpl. unfold scanNearby at 2 4.
    destruct (String.eqb (id x) (id anchor) || bool_decide (id x ∈ acc.2))
      eqn:Eskip.
    { destruct (IH acc) as (added & H1 & H2 & H3 & H4).
      exists added. split; [done|]. split; [done|]. split; [|done].
      intros y Hy. destruct (H3 _ Hy) as (? & ? & ?).
      split; [|done]. apply elem_of_cons. by right. }
    destruct (Qle_bool _ _) eqn:Enear.
    2:{ destruct (IH acc) as (added & H1 & H2 & H3 & H4).
        exists added. split; [done|]. split; [done|]. split; [|done].
        intros y Hy. destruct (H3 _ Hy) as (? & ? & ?).
        split; [|done]. apply elem_of_cons. by right. }
    apply orb_false_iff in Eskip as [Eid Eproc].
    apply String.eqb_neq in Eid. apply bool_decide_eq_false in Eproc.
    destruct (IH (acc.1 ++ [x], {[ id x ]} ∪ acc.2))
      as (added & H1 & H2 & H3 & H4).
    exists (x :: added). simpl in *.
    split; [by rewrite H1, <- app_assoc|].
    split; [rewrite H2; set_solver|].
    split.
    + intros y Hy. apply elem_of_cons in Hy as [->|Hy].
      * split; [by left|done].
      * destruct (H3 _ Hy) as (Hin & Hn & Hne).
        split; [by right|]. split; [set_solver|done].
    + apply NoDup_cons. split; [|done].
      intros Hin. apply list_elem_of_fmap in Hin as (y & Hy & Hin).
      destruct (H3 _ Hin) as (_ & Hn & _). set_solver.
Qed.

Lemma clusterStep_inv (entries : list MoodEntry)
    (st : list Cluster * gset string) (e : MoodEntry) :
  clusterInv entries st → e ∈ entries →
  clusterInv entries (clusterStep radiusMeters entries st e) ∧
  id e ∈ (clusterStep radiusMeters entries st e).2 ∧
  st.2 ⊆ (clusterStep radiusMeters entries st e).2.
Proof.
  intros (HP & Hnd & Hsub & Hanch) He. unfold clusterStep.
  destruct (bool_decide (id e ∈ st.2)) eqn:Eproc.
  { apply bool_decide_eq_true in Eproc. by repeat split. }
  apply bool_decide_eq_false in Eproc.
  destruct (scanNearby_fold e entries ([e], st.2))
    as (added & H1 & H2 & H3 & H4).
  simpl in *. rewrite H1, H2.
  split; [|set_solver].
  unfold clusterInv. simpl. rewrite members_snoc. simpl.
  rewrite fmap_app, fmap_cons.
  split; [rewrite HP; set_solver|].
  split; [|split].
  - apply NoDup_app. split; [done|]. split.
    + intros x Hx Hx'.
      assert (x ∈ st.2) as HxP by (rewrite HP; set_solver).
      apply elem_of_cons in Hx' as [->|Hx']; [done|].
      apply list_elem_of_fmap in Hx' as (y & -> & Hy).
      by destruct (H3 _ Hy) as (_ & Hn & _).
    + apply NoDup_cons. split; [|done].
      intros Hin. apply list_elem_of_fmap in Hin as (y & Hy & Hin).
      destruct (H3 _ Hin) as (_ & _ & Hne). congruence.
  - intros x Hx. apply elem_of_app in Hx as [Hx|Hx]; [by apply Hsub|].
    apply elem_of_cons in Hx as [->|Hx]; [done|]. by apply H3.
  - apply Forall_app. split; [done|]. apply Forall_singleton.
    by exists e, added.
Qed.

Lemma clusterStep_fold_inv (entries xs : list MoodEntry)
    (st : list Cluster * gset string) :
  clusterInv entries st → (∀ e, e ∈ xs → e ∈ entries) →
  clusterInv entries (fold_left (clusterStep radiusMeters entries) xs st) ∧
  st.2 ⊆ (fold_left (clusterStep radiusMeters entries) xs st).2 ∧
  (∀ e, e ∈ xs →
     id e ∈ (fold_left (clusterStep radiusMeters entries) xs st).2).
Proof.
  revert st. induction xs as [|x xs IH]; intros st Hinv Hxs; simpl.
  - split; [done|]. split; [done|].
    intros e He. by apply elem_of_nil in He.
  - destruct (clusterStep_inv entries st x Hinv) as (Hinv' & Hx & Hmono).
    { apply Hxs. by left. }
    destruct (IH _ Hinv') as (Hfin & Hmono' & Hall).
    { intros e He. apply Hxs. by right. }
    split; [done|]. split; [set_solver|].
    intros e He. apply elem_of_cons in He as [->|He]; [set_solver|].
    by apply Hall.
Qed.

Lemma clusterNearbyEntries_inv (entries : list MoodEntry) :
  NoDup (id <$> entries) →
  NoDup (members (clusterNearbyEntries entries radiusMeters)) ∧
  (∀ e, e ∈ members (clusterNearbyEntries entries radiusMeters) ↔ e ∈ entries) ∧
  Forall anchored (clusterNearbyEntries entries radiusMeters).
Proof.
  intros Hnd. unfold clusterNearbyEntries.
  destruct (clusterStep_fold_inv entries entries ([], ∅))
    as ((HP & Hnd' & Hsub & Hanch) & _ & Hall).
  { unfold clusterInv. simpl. split; [done|]. split; [constructor|].
    split; [|constructor]. intros e He. by apply elem_of_nil in He. }
  { done. }
  split; [by eapply NoDup_fmap_1|]. split; [|done].
  intros e. split; [apply Hsub|]. intros He.
  specialize (Hall e He). rewrite HP in Hall.
  apply elem_of_list_to_set, list_elem_of_fmap in Hall as (e' & Hid & He').
  replace e with e'; [done|].
  eapply (NoDup_fmap_eq id entries); eauto.
Qed.
End ClusteringFacts.


(** C3. For entries with pairwise distinct ids, [clusterNearbyEntries]
    returns a partition of its input: the members of the clusters, taken
    together, are a rearrangement of the input (nothing dropped, nothing
    duplicated), every input entry lies in exactly one cluster, no cluster
    is empty, and every cluster's center is the location of its anchor, the
    entry that opened the cluster and heads its member list. *)
Theorem clusterNearbyEntries_partition `{Host}
    (entries : list MoodEntry) (radiusMeters : Q) :
  NoDup (id <$> entries) →
  members (clusterNearbyEntries entries radiusMeters) ≡ₚ entries ∧
  (∀ e, e ∈ entries →
     exists! i, ∃ c, clusterNearbyEntries entries radiusMeters !! i = Some c
                ∧ e ∈ c_entries c) ∧
  (∀ c, c ∈ clusterNearbyEntries entries radiusMeters → c_entries c ≠ []) ∧
  (∀ c, c ∈ clusterNearbyEntries entries radiusMeters →
     ∃ anchor rest, c_entries c = anchor :: rest
                    ∧ c_center c = location anchor).
Proof.
  intros Hids.
  destruct (clusterNearbyEntries_inv radiusMeters entries Hids)
    as (Hnd & Hmem & Hanch).
  set (clusters := clusterNearbyEntries entries radiusMeters) in *.
  rewrite Forall_forall in Hanch.
  split; [|split; [|split]].
  - apply NoDup_Permutation; [done| |done].
    eapply NoDup_fmap_1. exact Hids.
  - intros e He. apply Hmem in He.
    apply list_elem_of_In, in_concat in He as (l & Hl & Hel).
    apply list_elem_of_In, list_elem_of_fmap in Hl as (c & -> & Hc).
    apply list_elem_of_lookup in Hc as (i & Hi).
    exists i. split.
    + exists c. split; [done|]. by apply list_elem_of_In.
    + intros j (c' & Hj & Hec').
      apply (NoDup_concat_unique (c_entries <$> clusters) i j
               (c_entries c) (c_entries c') e).
      * exact Hnd.
      * by rewrite list_lookup_fmap, Hi.
      * by rewrite list_lookup_fmap, Hj.
      * by apply list_elem_of_In.
      * done.
  - intros c Hc Hnil. destruct (Hanch c Hc) as (a & rest & Heq & _).
    congruence.
  - intros c Hc. exact (Hanch c Hc).
Qed.

Lemma clusterNearbyEntries_partition_witness :
  NoDup (id <$> walk3) ∧
  members (clusterNearbyEntries (H:=flatHost) walk3 30) ≡ₚ walk3.
Proof.
  assert (Hids : NoDup (id <$> walk3)).
  { apply (bool_decide_unpack _). vm_compute. exact I. }
  split; [exact Hids|].
  exact (proj1 (clusterNearbyEntries_partition (H:=flatHost) walk3 30 Hids)).
Defined.

(** Two samples 11 m apart form one cluster whose center is the first
    sample's location, not the midpoint of the two. *)
Example clusterNearbyEntries_center_is_anchor :
  clusterNearbyEntries (H:=flatHost)
    [entry_ "a" 0 0 calm 1; entry_ "b" (1 # 10000) 0 calm 2] 30
  = [ {| c_center := at_ 0 0;
         c_entries := [entry_ "a" 0 0 calm 1; entry_ "b" (1 # 10000) 0 calm 2] |} ].
Proof. vm_compute. reflexivity. Qed.

(** ** Zone classification and merge *)

Lemma fold_max_spec (l : list Z) (a : Z) :
  (a ≤ fold_left Z.max l a)%Z ∧
  (∀ x, x ∈ l → (x ≤ fold_left Z.max l a)%Z) ∧
  (fold_left Z.max l a = a ∨ fold_left Z.max l a ∈ l).
Proof.
  revert a. induction l as [|x l IH]; intros a; simpl.
  - split; [lia|]. split; [|by left].
    intros x Hx. by apply elem_of_nil in Hx.
  - destruct (IH (Z.max a x)) as (H1 & H2 & H3).
    split; [lia|]. split.
    + intros y Hy. apply elem_of_cons in Hy as [->|Hy]; [lia|by apply H2].
    + destruct H3 as [H3|H3].
      * rewrite H3. destruct (Z.max_spec a x) as [[_ ->]|[_ ->]];
          [right; by left|by left].
      * right. by right.
Qed.

Lemma maxTimestamp_spec (es : list MoodEntry) :
  es ≠ [] → isMaxTimestamp es (maxTimestamp es).
Proof.
  destruct es as [|e es]; [done|]. intros _.
  unfold maxTimestamp, isMaxTimestamp. simpl.
  destruct (fold_max_spec (List.map timestamp es) (timestamp e))
    as (H1 & H2 & H3).
  split.
  - destruct H3 as [H3|H3].
    + exists e. split; [by left|done].
    + apply list_elem_of_In, in_map_iff in H3 as (e' & Heq & Hin).
      exists e'. split; [right; by apply list_elem_of_In|done].
  - intros e' He'. apply elem_of_cons in He' as [->|He']; [done|].
    apply H2. apply list_elem_of_In, in_map. by apply list_elem_of_In.
Qed.

Section ZoneFacts.
Context `{Host}.

Lemma stressCandidate_test (c : Cluster) :
  Qltb (6 # 10) (moodRate stressed (c_entries c))
    && (2 <=? length (c_entries c))%nat = true
  ↔ stressCandidate c.
Proof.
  unfold stressCandidate.
  rewrite andb_true_iff, Qltb_lt, Nat.leb_le. done.
Qed.

Lemma calmCandidate_test (c : Cluster) :
  ¬ stressCandidate c →
  (Qltb (6 # 10) (moodRate calm (c_entries c))
     && (2 <=? length (c_entries c))%nat = true
   ↔ calmCandidate c).
Proof.
  intros Hs. unfold calmCandidate.
  rewrite andb_true_iff, Qltb_lt, Nat.leb_le. tauto.
Qed.

Lemma findZone_None (h : list Zone) (c : Location) (zones : list ref) :
  noZoneNear h zones c → findZone h c zones = None.
Proof.
  unfold noZoneNear, findZone. induction zones as [|r zones IH]; intros Hno.
  - done.
  - simpl. destruct (h !! r) as [z|] eqn:Hr.
    + destruct (Qltb _ _) eqn:Hd.
      * apply Qltb_lt in Hd. exfalso. eapply Hno; [by left|done|done].
      * apply IH. intros r' z' Hr'. apply Hno. by right.
    + apply IH. intros r' z' Hr'. apply Hno. by right.
Qed.

(** The zone returned by [find] belongs to the array and lies less than
    50 m from the point; it is the first such zone of the array. *)
Lemma findZone_Some (h : list Zone) (c : Location) (zones : list ref) (r : ref) :
  findZone h c zones = Some r →
  ∃ before after z,
    zones = before ++ r :: after ∧ h !! r = Some z ∧
    calculateDistance (center z) c < 50 ∧
    noZoneNear h before c.
Proof.
  unfold findZone, noZoneNear.
  induction zones as [|r0 zones IH]; intros Hf; [done|].
  simpl in Hf. destruct (h !! r0) as [z0|] eqn:Hr0.
  - destruct (Qltb _ _) eqn:Hd.
    + simplify_eq. exists [], zones, z0. apply Qltb_lt in Hd.
      split; [done|]. split; [done|]. split; [done|].
      intros r' z' Hr'. by apply elem_of_nil in Hr'.
    + destruct (IH Hf) as (before & after & z & -> & Hr & Hlt & Hno).
      exists (r0 :: before), after, z.
      split; [done|]. split; [done|]. split; [done|].
      intros r' z' Hr' Hz'. apply elem_of_cons in Hr' as [->|Hr'].
      * simplify_eq. apply Qltb_ge in Hd. by apply Qle_not_lt.
      * by eapply Hno.
  - destruct (IH Hf) as (before & after & z & -> & Hr & Hlt & Hno).
    exists (r0 :: before), after, z.
    split; [done|]. split; [done|]. split; [done|].
    intros r' z' Hr' Hz'. apply elem_of_cons in Hr' as [->|Hr'].
    * congruence.
    * by eapply Hno.
Qed.
End ZoneFacts.

Section ZoneSteps.
Context `{Host}.

Lemma zoneStep_skip (st : ZoneStore) (c : Cluster) :
  ¬ stressCandidate c → ¬ calmCandidate c → zoneStep st c = st.
Proof.
  intros Hs Hc. unfold zoneStep.
  destruct (Qltb _ (moodRate stressed _) && _) eqn:E1.
  { apply stressCandidate_test in E1. by destruct Hs. }
  destruct (Qltb _ (moodRate calm _) && _) eqn:E2; [|done].
  apply (calmCandidate_test c Hs) in E2. by destruct Hc.
Qed.

Lemma newZone_created (prefix : string) (n : nat) (c : Cluster) (rate : Q) :
  (2 ≤ length (c_entries c))%nat → createdZone c rate (newZone prefix n c rate).
Proof.
  intros Hlen. unfold createdZone, newZone. simpl.
  repeat split; try done; apply maxTimestamp_spec;
    intros E; rewrite E in Hlen; simpl in Hlen; lia.
Qed.

Lemma zoneStep_stress_new (st : ZoneStore) (c : Cluster) :
  stressCandidate c → noZoneNear (heap st) (stressZones st) (c_center c) →
  ∃ z, createdZone c (moodRate stressed (c_entries c)) z ∧
       heap (zoneStep st c) = heap st ++ [z] ∧
       stressZones (zoneStep st c) = stressZones st ++ [length (heap st)] ∧
       calmZones (zoneStep st c) = calmZones st.
Proof.
  intros Hs Hno. unfold zoneStep.
  rewrite (proj2 (stressCandidate_test c) Hs).
  rewrite (findZone_None _ _ _ Hno). simpl.
  eexists. split; [|done]. apply newZone_created. apply Hs.
Qed.

Lemma zoneStep_calm_new (st : ZoneStore) (c : Cluster) :
  calmCandidate c → noZoneNear (heap st) (calmZones st) (c_center c) →
  ∃ z, createdZone c (moodRate calm (c_entries c)) z ∧
       heap (zoneStep st c) = heap st ++ [z] ∧
       calmZones (zoneStep st c) = calmZones st ++ [length (heap st)] ∧
       stressZones (zoneStep st c) = stressZones st.
Proof.
  intros Hc Hno. unfold zoneStep.
  destruct (Qltb _ (moodRate stressed _) && _) eqn:E1.
  { apply stressCandidate_test in E1. by destruct Hc. }
  rewrite (proj2 (calmCandidate_test c (proj1 Hc)) Hc).
  rewrite (findZone_None _ _ _ Hno). simpl.
  eexists. split; [|done]. apply newZone_created. apply Hc.
Qed.

(** Either kind of match runs the same in-place update on the record
    found and leaves both arrays as they are. *)
Lemma zoneStep_merge (st : ZoneStore) (c : Cluster) (r : ref) :
  (stressCandidate c ∧ findZone (heap st) (c_center c) (stressZones st) = Some r)
  ∨ (calmCandidate c ∧ findZone (heap st) (c_center c) (calmZones st) = Some r) →
  zoneStep st c =
    {| heap := alter (bumpZone (c_entries c)) r (heap st);
       calmZones := calmZones st;
       stressZones := stressZones st;
       minted := minted st |}.
Proof.
  intros [[Hs Hf]|[Hc Hf]]; unfold zoneStep.
  - rewrite (proj2 (stressCandidate_test c) Hs). by rewrite Hf.
  - destruct (Qltb _ (moodRate stressed _) && _) eqn:E1.
    { apply stressCandidate_test in E1. by destruct Hc. }
    rewrite (proj2 (calmCandidate_test c (proj1 Hc)) Hc). by rewrite Hf.
Qed.
End ZoneSteps.

(** C1. [updateZonesFromSession] clusters the session's entries at radius
    30 and runs the classifier over the clusters in order, starting from
    the input stores.  A cluster changes the stores only if it has at least
    two members and a stress rate above 0.6 (tested first) or else a calm
    rate above 0.6; any other cluster leaves them as they are.  When a
    qualifying cluster finds no zone of its kind less than 50 m from its
    center, exactly one record is added: it is appended to the array of
    that kind, has the cluster's center, radius 30, the qualifying rate as
    score, the member count as count and the greatest member timestamp as
    last-timestamp; the other array is untouched. *)
Theorem updateZonesFromSession_classifies `{Host} :
  (∀ session h existingCalmZones existingStressZones,
     updateZonesFromSession session h existingCalmZones existingStressZones
     = fold_left zoneStep (clusterNearbyEntries (moodEntries session) 30)
         {| heap := h; calmZones := existingCalmZones;
            stressZones := existingStressZones; minted := 0 |}) ∧
  (∀ st c, ¬ stressCandidate c → ¬ calmCandidate c → zoneStep st c = st) ∧
  (∀ st c,
     stressCandidate c →
     noZoneNear (heap st) (stressZones st) (c_center c) →
     ∃ z, createdZone c (moodRate stressed (c_entries c)) z ∧
          heap (zoneStep st c) = heap st ++ [z] ∧
          stressZones (zoneStep st c) = stressZones st ++ [length (heap st)] ∧
          calmZones (zoneStep st c) = calmZones st) ∧
  (∀ st c,
     calmCandidate c →
     noZoneNear (heap st) (calmZones st) (c_center c) →
     ∃ z, createdZone c (moodRate calm (c_entries c)) z ∧
          heap (zoneStep st c) = heap st ++ [z] ∧
          calmZones (zoneStep st c) = calmZones st ++ [length (heap st)] ∧
          stressZones (zoneStep st c) = stressZones st).
Proof.
  split; [done|]. split; [apply zoneStep_skip|].
  split; [apply zoneStep_stress_new|apply zoneStep_calm_new].
Qed.

Lemma updateZonesFromSession_classifies_witness :
  stressCandidate cluster2 ∧
  noZoneNear (H:=flatHost) (heap store0) (stressZones store0) (c_center cluster2) ∧
  ∃ z, createdZone cluster2 (moodRate stressed (c_entries cluster2)) z ∧
       heap (zoneStep (H:=flatHost) store0 cluster2) = heap store0 ++ [z].
Proof.
  assert (Hs : stressCandidate cluster2).
  { split; [reflexivity|simpl; lia]. }
  assert (Hno : noZoneNear (H:=flatHost) (heap store0) (stressZones store0)
                  (c_center cluster2)).
  { intros r z Hr. simpl in Hr. by apply elem_of_nil in Hr. }
  split; [exact Hs|]. split; [exact Hno|].
  destruct (proj1 (proj2 (proj2
    (updateZonesFromSession_classifies (H:=flatHost)))) store0 cluster2 Hs Hno)
    as (z & Hz & Hheap & _).
  exists z. split; [exact Hz|exact Hheap].
Defined.



(** Successive in-place updates of one record by a list of clusters. *)
Lemma bumpAll_fields (hits : list Cluster) (z : Zone) :
  zone_id (fold_left bumpAll hits z) = zone_id z ∧
  center (fold_left bumpAll hits z) = center z ∧
  radius (fold_left bumpAll hits z) = radius z.
Proof.
  revert z. induction hits as [|c hits IH]; intros z; simpl; [done|].
  destruct (IH (bumpAll z c)) as (-> & -> & ->). done.
Qed.

(** One step of the classifier: the arrays are only extended, by
    references to records that did not exist before, and a record of the
    store is either left as it is or updated in place by a qualifying
    cluster. *)
Lemma zoneStep_frame `{Host} (st : ZoneStore) (c : Cluster) :
  ∃ newCalm newStress,
    calmZones (zoneStep st c) = calmZones st ++ newCalm ∧
    stressZones (zoneStep st c) = stressZones st ++ newStress ∧
    Forall (fun r => length (heap st) ≤ r)%nat (newCalm ++ newStress) ∧
    (length (heap st) ≤ length (heap (zoneStep st c)))%nat ∧
    ∀ r z, heap st !! r = Some z →
      heap (zoneStep st c) !! r = Some z ∨
      ((stressCandidate c ∨ calmCandidate c) ∧
       heap (zoneStep st c) !! r = Some (bumpAll z c)).
Proof.
  assert (Hbump : ∀ r0 r z, heap st !! r = Some z →
    alter (bumpZone (c_entries c)) r0 (heap st) !! r = Some z ∨
    alter (bumpZone (c_entries c)) r0 (heap st) !! r = Some (bumpAll z c)).
  { intros r0 r z Hz. unfold ref in *. rewrite list_lookup_alter.
    case_decide as E.
    - subst. rewrite Hz. by right.
    - by left. }
  unfold zoneStep.
  destruct (Qltb _ (moodRate stressed _) && _) eqn:E1.
  { apply stressCandidate_test in E1.
    destruct (findZone _ _ (stressZones st)) as [r0|]; simpl.
    - exists [], []. rewrite !app_nil_r, length_alter.
      split; [done|]. split; [done|]. split; [constructor|]. split; [done|].
      intros r z Hz. destruct (Hbump r0 r z Hz) as [?|?]; [by left|].
      right. split; [by left|done].
    - exists [], [length (heap st)]. rewrite app_nil_r, length_app.
      split; [done|]. split; [done|].
      split; [by repeat constructor|]. split; [lia|].
      intros r z Hz. left. by apply lookup_app_l_Some. }
  assert (Hs : ¬ stressCandidate c).
  { intros Hs. apply stressCandidate_test in Hs. congruence. }
  destruct (Qltb _ (moodRate calm _) && _) eqn:E2.
  { apply (calmCandidate_test c Hs) in E2.
    destruct (findZone _ _ (calmZones st)) as [r0|]; simpl.
    - exists [], []. rewrite !app_nil_r, length_alter.
      split; [done|]. split; [done|]. split; [constructor|]. split; [done|].
      intros r z Hz. destruct (Hbump r0 r z Hz) as [?|?]; [by left|].
      right. split; [by right|done].
    - exists [length (heap st)], []. rewrite app_nil_r, length_app.
      split; [done|]. split; [done|].
      split; [by repeat constructor|]. split; [lia|].
      intros r z Hz. left. by apply lookup_app_l_Some. }
  exists [], []. rewrite !app_nil_r.
  split; [done|]. split; [done|]. split; [constructor|]. split; [done|].
  intros r z Hz. by left.
Qed.

Lemma zoneStep_fold_frame `{Host} (cs : list Cluster) (st : ZoneStore) :
  ∃ newCalm newStress,
    calmZones (fold_left zoneStep cs st) = calmZones st ++ newCalm ∧
    stressZones (fold_left zoneStep cs st) = stressZones st ++ newStress ∧
    Forall (fun r => length (heap st) ≤ r)%nat (newCalm ++ newStress) ∧
    ∀ r z, heap st !! r = Some z →
      ∃ hits, hits `sublist_of` cs ∧
        Forall (fun c => stressCandidate c ∨ calmCandidate c) hits ∧
        heap (fold_left zoneStep cs st) !! r = Some (fold_left bumpAll hits z).
Proof.
  revert st. induction cs as [|c cs IH]; intros st; simpl.
  - exists [], []. rewrite !app_nil_r.
    split; [done|]. split; [done|]. split; [constructor|].
    intros r z Hz. exists []. split; [constructor|]. split; [constructor|done].
  - destruct (zoneStep_frame st c) as (c1 & s1 & Hc1 & Hs1 & Hf1 & Hlen & Hrec).
    destruct (IH (zoneStep st c)) as (c2 & s2 & Hc2 & Hs2 & Hf2 & Hrec2).
    exists (c1 ++ c2), (s1 ++ s2).
    split; [by rewrite Hc2, Hc1, app_assoc|].
    split; [by rewrite Hs2, Hs1, app_assoc|].
    split.
    { rewrite !Forall_app in *. destruct Hf1, Hf2.
      repeat split; try done;
        (eapply Forall_impl; [eassumption|intros; simpl in *; lia]). }
    intros r z Hz. destruct (Hrec r z Hz) as [Hsame|[Hcand Hb]].
    + destruct (Hrec2 r z Hsame) as (hits & Hsub & Hall & Hlook).
      exists hits. split; [by apply sublist_cons|done].
    + destruct (Hrec2 r _ Hb) as (hits & Hsub & Hall & Hlook).
      exists (c :: hits). split; [by apply sublist_skip|].
      split; [by constructor|done].
Qed.

(** [find] returns the first zone of the array that is near enough, and
    only that one. *)
Lemma findZone_first `{Host} (h : list Zone) (c : Location) (zones : list ref)
    (r : ref) :
  findZone h c zones = Some r ↔ firstZoneNear h zones c r.
Proof.
  split; [apply findZone_Some|].
  intros (before & after & z & -> & Hr & Hlt & Hno).
  unfold findZone, noZoneNear in *.
  induction before as [|r0 before IH]; simpl.
  - rewrite Hr. by rewrite (proj2 (Qltb_lt _ _) Hlt).
  - destruct (h !! r0) as [z0|] eqn:Hr0.
    + destruct (Qltb _ _) eqn:Hd.
      * apply Qltb_lt in Hd. exfalso. eapply Hno; [by left|done|done].
      * apply IH. intros r' z' Hr'. apply Hno. by right.
    + apply IH. intros r' z' Hr'. apply Hno. by right.
Qed.

Lemma mergesInto_dec `{Host} (st : ZoneStore) (c : Cluster) (r : ref) :
  mergesInto st c r ∨ ¬ mergesInto st c r.
Proof.
  unfold mergesInto.
  destruct (Qltb (6 # 10) (moodRate stressed (c_entries c))
            && (2 <=? length (c_entries c))%nat) eqn:E1.
  - apply stressCandidate_test in E1.
    destruct (decide (findZone (heap st) (c_center c) (stressZones st)
                      = Some r)) as [Ef|Ef].
    + left. by left.
    + right. intros [[_ ?]|[[Hn _] _]]; done.
  - assert (Hs : ¬ stressCandidate c).
    { intros Hs. apply stressCandidate_test in Hs. congruence. }
    destruct (Qltb (6 # 10) (moodRate calm (c_entries c))
              && (2 <=? length (c_entries c))%nat) eqn:E2.
    + apply (calmCandidate_test c Hs) in E2.
      destruct (decide (findZone (heap st) (c_center c) (calmZones st)
                        = Some r)) as [Ef|Ef].
      * left. by right.
      * right. intros [[? _]|[_ ?]]; done.
    + right. intros [[? _]|[Hc _]]; [done|].
      apply (calmCandidate_test c Hs) in Hc. congruence.
Qed.

(** One step of the classifier updates record [r] when the cluster
    matches it and leaves it as it is otherwise. *)
Lemma zoneStep_record `{Host} (st : ZoneStore) (c : Cluster) (r : ref)
    (z : Zone) :
  heap st !! r = Some z →
  (mergesInto st c r → heap (zoneStep st c) !! r = Some (bumpAll z c)) ∧
  (¬ mergesInto st c r → heap (zoneStep st c) !! r = Some z).
Proof.
  intros Hz. split.
  - intros Hm. rewrite (zoneStep_merge st c r Hm). simpl.
    unfold ref in *. by rewrite list_lookup_alter_eq, Hz.
  - intros Hm.
    assert (Hne : ∀ r0, r0 ≠ r →
      alter (bumpZone (c_entries c)) r0 (heap st) !! r = Some z).
    { intros r0 Hr0. unfold ref in *.
      by rewrite list_lookup_alter_ne. }
    unfold zoneStep.
    destruct (Qltb _ (moodRate stressed _) && _) eqn:E1.
    { apply stressCandidate_test in E1.
      destruct (findZone _ _ (stressZones st)) as [r0|] eqn:Ef; simpl.
      - apply Hne. intros ->. apply Hm. by left.
      - by apply lookup_app_l_Some. }
    assert (Hs : ¬ stressCandidate c).
    { intros Hs. apply stressCandidate_test in Hs. congruence. }
    destruct (Qltb _ (moodRate calm _) && _) eqn:E2; [|done].
    apply (calmCandidate_test c Hs) in E2.
    destruct (findZone _ _ (calmZones st)) as [r0|] eqn:Ef; simpl.
    + apply Hne. intros ->. apply Hm. by right.
    + by apply lookup_app_l_Some.
Qed.

(** Over the whole pass a record receives the updates of the clusters
    that match it, in order, and nothing else. *)
Lemma mergeTrace_fold `{Host} (r : ref) (cs : list Cluster) (st : ZoneStore)
    (z : Zone) :
  heap st !! r = Some z →
  ∃ hits, mergeTrace r st cs hits ∧
    heap (fold_left zoneStep cs st) !! r = Some (fold_left bumpAll hits z).
Proof.
  revert st z. induction cs as [|c cs IH]; intros st z Hz.
  - exists []. split; [constructor|done].
  - destruct (zoneStep_record st c r z Hz) as [Hhit Hmiss].
    destruct (mergesInto_dec st c r) as [Hm|Hm].
    + destruct (IH _ _ (Hhit Hm)) as (hits & Htr & Hlook).
      exists (c :: hits). split; [by constructor|done].
    + destruct (IH _ _ (Hmiss Hm)) as (hits & Htr & Hlook).
      exists hits. split; [by apply mergeTrace_miss|done].
Qed.

Lemma mergeTrace_unique `{Host} (r : ref) (st : ZoneStore)
    (cs hits hits' : list Cluster) :
  mergeTrace r st cs hits → mergeTrace r st cs hits' → hits = hits'.
Proof.
  intros Htr. revert hits'.
  induction Htr as [st|st c cs hits Hm _ IH|st c cs hits Hm _ IH];
    intros hits' Htr'; inversion Htr'; subst; try done.
  - f_equal. by apply IH.
  - by apply IH.
Qed.

Lemma mergeTrace_none `{Host} (r : ref) (cs : list Cluster) (st : ZoneStore) :
  (∀ i c, cs !! i = Some c →
     ¬ mergesInto (fold_left zoneStep (take i cs) st) c r) →
  mergeTrace r st cs [].
Proof.
  revert st. induction cs as [|c cs IH]; intros st Hno; [constructor|].
  apply mergeTrace_miss.
  - exact (Hno 0%nat c eq_refl).
  - apply IH. intros i c' Hi. exact (Hno (S i) c' Hi).
Qed.

(** C5, as the code has it.  Each returned array holds the elements of
    the corresponding argument array, in order, followed by references to
    records created during the call.  The zone records themselves are
    shared between the arguments and the result: a record of the input is
    updated in place once for every cluster that matches it when it is
    processed, in the order of processing, and by nothing else; an update
    changes score, count and last-timestamp and leaves id, center and
    radius alone; a record that no cluster matches is the same after the
    call.  A cluster matches a record when it qualifies as a stress or as
    a calm candidate and the record is the first zone of the working array
    of that kind whose center is less than 50 m from the cluster's
    center. *)
Theorem updateZonesFromSession_frame `{Host} (session : WalkSession)
    (h : list Zone) (existingCalmZones existingStressZones : list ref) :
  (∃ newCalm newStress,
     calmZones (updateZonesFromSession session h existingCalmZones
                  existingStressZones) = existingCalmZones ++ newCalm ∧
     stressZones (updateZonesFromSession session h existingCalmZones
                    existingStressZones) = existingStressZones ++ newStress ∧
     Forall (fun r => length h ≤ r)%nat (newCalm ++ newStress)) ∧
  (∀ r z, h !! r = Some z →
     ∃ hits z',
       mergeTrace r
         {| heap := h; calmZones := existingCalmZones;
            stressZones := existingStressZones; minted := 0 |}
         (clusterNearbyEntries (moodEntries session) 30) hits ∧
       (∀ hits',
          mergeTrace r
            {| heap := h; calmZones := existingCalmZones;
               stressZones := existingStressZones; minted := 0 |}
            (clusterNearbyEntries (moodEntries session) 30) hits' →
          hits' = hits) ∧
       heap (updateZonesFromSession session h existingCalmZones
               existingStressZones) !! r = Some z' ∧
       z' = fold_left bumpAll hits z ∧
       zone_id z' = zone_id z ∧ center z' = center z ∧ radius z' = radius z ∧
       ((∀ i c,
           clusterNearbyEntries (moodEntries session) 30 !! i = Some c →
           ¬ mergesInto
               (fold_left zoneStep
                  (take i (clusterNearbyEntries (moodEntries session) 30))
                  {| heap := h; calmZones := existingCalmZones;
                     stressZones := existingStressZones; minted := 0 |})
               c r) →
        z' = z)) ∧
  (∀ st c r,
     mergesInto st c r ↔
     (stressCandidate c ∧
      firstZoneNear (heap st) (stressZones st) (c_center c) r)
     ∨ (calmCandidate c ∧
        firstZoneNear (heap st) (calmZones st) (c_center c) r)).
Proof.
  split; [|split].
  - unfold updateZonesFromSession.
    destruct (zoneStep_fold_frame
                (clusterNearbyEntries (moodEntries session) 30)
                {| heap := h; calmZones := existingCalmZones;
                   stressZones := existingStressZones; minted := 0 |})
      as (newCalm & newStress & Hc & Hs & Hfresh & _).
    by exists newCalm, newStress.
  - intros r z Hz. unfold updateZonesFromSession.
    set (cs := clusterNearbyEntries (moodEntries session) 30).
    set (st0 := {| heap := h; calmZones := existingCalmZones;
                   stressZones := existingStressZones; minted := 0 |}).
    destruct (mergeTrace_fold r cs st0 z Hz) as (hits & Htr & Hlook).
    exists hits, (fold_left bumpAll hits z).
    split; [exact Htr|].
    split; [intros hits' Htr'; by apply (mergeTrace_unique r st0 cs)|].
    split; [exact Hlook|]. split; [done|].
    destruct (bumpAll_fields hits z) as (Hid & Hcen & Hrad).
    split; [exact Hid|]. split; [exact Hcen|]. split; [exact Hrad|].
    intros Hno. apply (mergeTrace_none r cs st0) in Hno.
    by rewrite (mergeTrace_unique r st0 cs _ _ Htr Hno).
  - intros st c r. unfold mergesInto. by rewrite !findZone_first.
Qed.

Lemma updateZonesFromSession_frame_witness :
  ∃ hits z',
    hits = [cluster2] ∧
    heap (updateZonesFromSession (H:=flatHost) (session_ walk3)
            [zone_ "z" 0 0 30 (1 # 2) 3 7] [] [0%nat]) !! 0%nat = Some z' ∧
    z' = fold_left bumpAll hits (zone_ "z" 0 0 30 (1 # 2) 3 7) ∧
    radius z' = 30.
Proof.
  destruct (proj1 (proj2 (updateZonesFromSession_frame (H:=flatHost)
              (session_ walk3) [zone_ "z" 0 0 30 (1 # 2) 3 7] [] [0%nat]))
              0%nat (zone_ "z" 0 0 30 (1 # 2) 3 7) eq_refl)
    as (hits & z' & _ & Huniq & Hlook & Hz' & _ & _ & Hrad & _).
  exists hits, z'.
  split; [|split; [exact Hlook|split; [exact Hz'|exact Hrad]]].
  symmetry. apply Huniq.
  change (clusterNearbyEntries (H:=flatHost) (moodEntries (session_ walk3)) 30)
    with [cluster2;
          {| c_center := at_ 1 1; c_entries := [entry_ "c" 1 1 calm 5] |}].
  apply mergeTrace_hit.
  - left. split; [split; [reflexivity|simpl; lia]|reflexivity].
  - apply mergeTrace_miss; [|constructor].
    intros [[[_ Hlen] _]|[(_ & _ & Hlen) _]]; simpl in Hlen; lia.
Defined.

(** C5, as stated, fails.  With one stress zone in the input array (count
    3, score 1/2, last-timestamp 7) and a session whose two stressed
    samples fall on it, the input array read after the call shows a record
    with count 5, score 6/10 and last-timestamp 20: the record held by the
    input array has changed, and the returned array refers to that same
    record. *)
Lemma updateZonesFromSession_writes_input_record :
  deref [zone_ "z" 0 0 30 (1 # 2) 3 7] [0%nat]
    = [zone_ "z" 0 0 30 (1 # 2) 3 7] ∧
  stressZones (updateZonesFromSession (H:=flatHost) (session_ walk3)
                 [zone_ "z" 0 0 30 (1 # 2) 3 7] [] [0%nat]) = [0%nat] ∧
  deref (heap (updateZonesFromSession (H:=flatHost) (session_ walk3)
                 [zone_ "z" 0 0 30 (1 # 2) 3 7] [] [0%nat])) [0%nat]
    = [zone_ "z" 0 0 30 (12 # 20) 5 20] ∧
  deref (heap (updateZonesFromSession (H:=flatHost) (session_ walk3)
                 [zone_ "z" 0 0 30 (1 # 2) 3 7] [] [0%nat])) [0%nat]
    ≠ deref [zone_ "z" 0 0 30 (1 # 2) 3 7] [0%nat].
Proof.
  split; [reflexivity|]. split; [vm_compute; reflexivity|].
  split; [vm_compute; reflexivity|].
  vm_compute. intros E. discriminate E.
Qed.

(** ** Route scoring *)

Lemma clamp01_range (x : Q) : 0 <= clamp01 x ∧ clamp01 x <= 1.
Proof.
  unfold clamp01. split; [apply Q.le_max_l|].
  apply Q.max_lub; [by unfold Qle|apply Q.le_min_l].
Qed.

Lemma clamp01_eq (x y : Q) : x == y → clamp01 x == clamp01 y.
Proof. intros E. unfold clamp01. by rewrite E. Qed.

Lemma clamp01_cases (x : Q) :
  (x <= 0 ∧ clamp01 x == 0) ∨ (0 <= x ∧ x <= 1 ∧ clamp01 x == x)
  ∨ (1 <= x ∧ clamp01 x == 1).
Proof.
  unfold clamp01.
  destruct (Q.min_spec 1 x) as [[H1 E1]|[H1 E1]];
    destruct (Q.max_spec 0 (Qmin 1 x)) as [[H2 E2]|[H2 E2]];
    rewrite E2; rewrite E1 in *.
  - right. right. split; [lra|done].
  - lra.
  - right. left. split; [lra|]. split; [lra|done].
  - left. split; [lra|done].
Qed.

(** Clamping brings two numbers no further apart. *)
Lemma clamp01_near (x y : Q) : Qabs (clamp01 x - clamp01 y) <= Qabs (x - y).
Proof.
  pose proof (Qle_Qabs (x - y)) as H1.
  pose proof (Qle_Qabs (y - x)) as H2.
  rewrite <- (Qabs_Qminus x y) in H2.
  apply Qabs_Qle_condition.
  destruct (clamp01_cases x) as [[? Ex]|[(? & ? & Ex)|[? Ex]]],
           (clamp01_cases y) as [[? Ey]|[(? & ? & Ey)|[? Ey]]];
    rewrite Ex, Ey; split; lra.
Qed.

Lemma pushUnique_spec (ids : list string) (x : string) :
  (NoDup ids → NoDup (pushUnique ids x)) ∧
  (∀ y, y ∈ pushUnique ids x ↔ y ∈ ids ∨ y = x).
Proof.
  unfold pushUnique. case_bool_decide as Hin.
  - split; [done|]. intros y. split; [by left|]. by intros [?| ->].
  - split.
    + intros Hnd. apply NoDup_app. split; [done|]. split.
      * intros y Hy Hy'. apply list_elem_of_singleton in Hy'. by subst.
      * apply NoDup_singleton.
    + intros y. rewrite elem_of_app, list_elem_of_singleton. done.
Qed.

(** A stress hit never lifts a score above 0.5. *)
Lemma applyHit_stress_le_half (x : Q) :
  x <= 1 # 2 → applyHit x stressHit <= 1 # 2.
Proof.
  intros Hx. cbn [applyHit]. apply double_le_half.
  pose proof double_tenth as [Hlo _]. lra.
Qed.

Lemma applyHit_fold_stress_le_half (l : list Hit) (x : Q) :
  Forall (fun h => h = stressHit) l → x <= 1 # 2 →
  fold_left applyHit l x <= 1 # 2.
Proof.
  intros Hall. revert x. induction Hall as [|h l -> _ IH]; intros x Hx.
  - exact Hx.
  - cbn [fold_left]. apply IH. by apply applyHit_stress_le_half.
Qed.

Lemma exactHit_fold_app (l1 l2 : list Hit) (x : Q) :
  fold_left exactHit (l1 ++ l2) x = fold_left exactHit l2 (fold_left exactHit l1 x).
Proof. apply fold_left_app. Qed.

Lemma exactHit_fold_stress {A} (l : list A) (x : Q) :
  fold_left exactHit (List.map (fun _ => stressHit) l) x
  == x - (1 # 10) * inject_Z (Z.of_nat (length l)).
Proof.
  revert x. induction l as [|a l IH]; intros x.
  - simpl. ring.
  - cbn [List.map fold_left]. rewrite IH.
    change (length (a :: l)) with (S (length l)).
    rewrite Nat2Z.inj_succ, <- Z.add_1_r, inject_Z_plus.
    change (inject_Z 1) with 1. simpl exactHit. ring.
Qed.

Lemma exactHit_fold_calm {A} (l : list A) (x : Q) :
  fold_left exactHit (List.map (fun _ => calmHit) l) x
  == x + (5 # 100) * inject_Z (Z.of_nat (length l)).
Proof.
  revert x. induction l as [|a l IH]; intros x.
  - simpl. ring.
  - cbn [List.map fold_left]. rewrite IH.
    change (length (a :: l)) with (S (length l)).
    rewrite Nat2Z.inj_succ, <- Z.add_1_r, inject_Z_plus.
    change (inject_Z 1) with 1. simpl exactHit. ring.
Qed.

(** Accumulated rounding error: after [k] hits the double score and the
    exact score differ by at most [k * B], where [B = (n + 6) * 2^-53]
    bounds the error one more hit can add as long as no more than [n]
    hits are made. *)
Lemma applyHit_fold_near (n : nat) (l : list Hit) (k : nat) (x y : Q) :
  inject_Z (Z.of_nat n) * (1 # 9007199254740992) <= 1 # 2 →
  (k + length l ≤ n)%nat →
  Qabs (x - y)
    <= inject_Z (Z.of_nat k)
       * (inject_Z (Z.of_nat n + 6) * (1 # 9007199254740992)) →
  Qabs y <= (1 # 2) + inject_Z (Z.of_nat k) * (1 # 10) →
  Qabs (fold_left applyHit l x - fold_left exactHit l y)
    <= inject_Z (Z.of_nat (k + length l))
       * (inject_Z (Z.of_nat n + 6) * (1 # 9007199254740992)).
Proof.
  intros Hn. revert k x y.
  assert (Hnn : 0 <= inject_Z (Z.of_nat n)).
  { change 0 with (inject_Z 0). rewrite <- Zle_Qle. lia. }
  rewrite inject_Z_plus. change (inject_Z 6) with 6.
  set (nn := inject_Z (Z.of_nat n)) in *.
  set (B := (nn + 6) * (1 # 9007199254740992)).
  assert (HB : B == (nn + 6) * (1 # 9007199254740992)) by reflexivity.
  assert (HB0 : 0 <= B) by lra.
  assert (HM : (nn * (1 # 9007199254740992)) * B <= (1 # 2) * B).
  { by apply Qmult_le_compat_r. }
  clearbody B.
  induction l as [|h l IH]; intros k x y Hk Hxy Hy.
  - simpl. by rewrite Nat.add_0_r.
  - simpl length in Hk.
    assert (Hkn : inject_Z (Z.of_nat k) + 1 <= nn).
    { unfold nn. change 1 with (inject_Z 1).
      rewrite <- inject_Z_plus, <- Zle_Qle. lia. }
    assert (Hk0 : 0 <= inject_Z (Z.of_nat k)).
    { change 0 with (inject_Z 0). rewrite <- Zle_Qle. lia. }
    assert (HP : inject_Z (Z.of_nat k) * B <= nn * B).
    { apply Qmult_le_compat_r; [lra|done]. }
    replace (k + length (h :: l))%nat with (S k + length l)%nat
      by (simpl; lia).
    assert (HS : inject_Z (Z.of_nat (S k)) == inject_Z (Z.of_nat k) + 1).
    { rewrite Nat2Z.inj_succ, <- Z.add_1_r, inject_Z_plus. reflexivity. }
    simpl fold_left. apply IH; [lia| |].
    + rewrite HS.
      apply Qabs_Qle_condition in Hxy as [Hxy1 Hxy2].
      apply Qabs_Qle_condition in Hy as [Hy1 Hy2].
      pose proof double_tenth as [T1 T2].
      pose proof double_twentieth as [W1 W2].
      destruct h; cbn [applyHit exactHit].
      * pose proof (double_near (x - double (1 # 10))) as Hd.
        assert (Hq : Qabs (x - double (1 # 10))
                     <= (1 # 2) + inject_Z (Z.of_nat k) * (1 # 10)
                        + inject_Z (Z.of_nat k) * B + (1 # 10)
                        + (1 # 9007199254740992)).
        { apply Qabs_Qle_condition. split; lra. }
        apply Qabs_Qle_condition in Hd as [Hd1 Hd2].
        apply Qabs_Qle_condition. split; lra.
      * pose proof (double_near (x + double (5 # 100))) as Hd.
        assert (Hq : Qabs (x + double (5 # 100))
                     <= (1 # 2) + inject_Z (Z.of_nat k) * (1 # 10)
                        + inject_Z (Z.of_nat k) * B + (1 # 10)
                        + (1 # 9007199254740992)).
        { apply Qabs_Qle_condition. split; lra. }
        apply Qabs_Qle_condition in Hd as [Hd1 Hd2].
        apply Qabs_Qle_condition. split; lra.
    + rewrite HS.
      apply Qabs_Qle_condition in Hy as [Hy1 Hy2].
      destruct h; cbn [exactHit]; apply Qabs_Qle_condition; split; lra.
Qed.

Section ScoringFacts.
Context `{Host}.

Lemma touches_test (p : RoutePoint) (z : Zone) :
  isWithinRadius (center z) (pointLocation p) (radius z) = touchesb p z.
Proof. reflexivity. Qed.

Lemma touchesb_touches (p : RoutePoint) (z : Zone) :
  touchesb p z = true ↔ touches p z.
Proof. apply Qle_bool_iff. Qed.

Lemma hitCount_cons (p : RoutePoint) (ps : list RoutePoint) (zs : list Zone) :
  hitCount (p :: ps) zs
  = (length (List.filter (touchesb p) zs) + hitCount ps zs)%nat.
Proof.
  unfold hitCount. simpl. rewrite List.filter_app, length_app. f_equal.
  induction zs as [|z zs IH]; [done|]. simpl.
  destruct (touchesb p z); simpl; by rewrite IH.
Qed.

(** One sweep over a zone store for a fixed waypoint, for any step that
    applies the hit [hit] to the score and records the id. *)
Section Sweep.
Variable loc : Location.
Variable hit : Hit.
Variable step : Q * list string → Zone → Q * list string.
Hypothesis step_hit : ∀ acc z,
  isWithinRadius (center z) loc (radius z) = true →
  (step acc z).1 = applyHit acc.1 hit ∧
  (step acc z).2 = pushUnique acc.2 (zone_id z).
Hypothesis step_miss : ∀ acc z,
  isWithinRadius (center z) loc (radius z) = false → step acc z = acc.

Lemma sweep_score (zs : list Zone) (acc : Q * list string) :
  (fold_left step zs acc).1
  = fold_left applyHit
      (List.map (fun _ => hit)
         (List.filter (fun z => isWithinRadius (center z) loc (radius z)) zs))
      acc.1.
Proof.
  revert acc. induction zs as [|z zs IH]; intros acc; simpl; [done|].
  destruct (isWithinRadius (center z) loc (radius z)) eqn:E.
  - rewrite IH. destruct (step_hit acc z E) as [-> _]. done.
  - by rewrite (step_miss acc z E).
Qed.

Lemma sweep_ids (zs : list Zone) (acc : Q * list string) :
  NoDup acc.2 →
  NoDup (fold_left step zs acc).2 ∧
  ∀ x, x ∈ (fold_left step zs acc).2 ↔
       x ∈ acc.2 ∨
       ∃ z, z ∈ zs ∧ zone_id z = x ∧
            isWithinRadius (center z) loc (radius z) = true.
Proof.
  revert acc. induction zs as [|z zs IH]; intros acc Hnd; simpl.
  - split; [done|]. intros x. split; [by left|].
    intros [?|(z & Hz & _)]; [done|]. by apply elem_of_nil in Hz.
  - destruct (isWithinRadius (center z) loc (radius z)) eqn:E.
    + destruct (step_hit acc z E) as [_ Hids].
      destruct (pushUnique_spec acc.2 (zone_id z)) as [Hnd' Hmem].
      destruct (IH (step acc z)) as [IH1 IH2].
      { rewrite Hids. by apply Hnd'. }
      split; [done|]. intros x. rewrite IH2, Hids, Hmem. split.
      * intros [[?| ->]|(z' & Hz' & Hid & Hw)].
        -- by left.
        -- right. exists z. split; [by left|done].
        -- right. exists z'. split; [by right|done].
      * intros [?|(z' & Hz' & Hid & Hw)]; [by left; left|].
        apply elem_of_cons in Hz' as [->|Hz'].
        -- left. by right.
        -- right. by exists z'.
    + rewrite (step_miss acc z E).
      destruct (IH acc Hnd) as [IH1 IH2].
      split; [done|]. intros x. rewrite IH2. split.
      * intros [?|(z' & Hz' & Hid & Hw)]; [by left|].
        right. exists z'. split; [by right|done].
      * intros [?|(z' & Hz' & Hid & Hw)]; [by left|].
        apply elem_of_cons in Hz' as [->|Hz']; [congruence|].
        right. by exists z'.
Qed.
End Sweep.

Lemma hitStress_hit (loc : Location) (acc : Q * list string) (z : Zone) :
  isWithinRadius (center z) loc (radius z) = true →
  (hitStress loc acc z).1 = applyHit acc.1 stressHit ∧
  (hitStress loc acc z).2 = pushUnique acc.2 (zone_id z).
Proof. intros E. unfold hitStress. rewrite E. done. Qed.

Lemma hitStress_miss (loc : Location) (acc : Q * list string) (z : Zone) :
  isWithinRadius (center z) loc (radius z) = false → hitStress loc acc z = acc.
Proof. intros E. unfold hitStress. by rewrite E. Qed.

Lemma hitCalm_hit (loc : Location) (acc : Q * list string) (z : Zone) :
  isWithinRadius (center z) loc (radius z) = true →
  (hitCalm loc acc z).1 = applyHit acc.1 calmHit ∧
  (hitCalm loc acc z).2 = pushUnique acc.2 (zone_id z).
Proof. intros E. unfold hitCalm. rewrite E. done. Qed.

Lemma hitCalm_miss (loc : Location) (acc : Q * list string) (z : Zone) :
  isWithinRadius (center z) loc (radius z) = false → hitCalm loc acc z = acc.
Proof. intros E. unfold hitCalm. by rewrite E. Qed.

Variables calmZones0 stressZones0 : list Zone.

(** The nested loops apply the hits of the route one after the other. *)
Lemma visitPoint_fold_score (ws : list RoutePoint) (st : RouteAnalysis) :
  calmScore (fold_left (visitPoint calmZones0 stressZones0) ws st)
  = fold_left applyHit (routeHits ws calmZones0 stressZones0) (calmScore st).
Proof.
  revert st. induction ws as [|p ws IH]; intros st; simpl; [done|].
  rewrite IH. unfold routeHits. rewrite !fold_left_app.
  unfold visitPoint. simpl.
  rewrite (sweep_score _ _ _ (hitCalm_hit _) (hitCalm_miss _)). simpl.
  rewrite (sweep_score _ _ _ (hitStress_hit _) (hitStress_miss _)). simpl.
  done.
Qed.

Lemma routeHits_length (ws : list RoutePoint) :
  length (routeHits ws calmZones0 stressZones0)
  = (hitCount ws stressZones0 + hitCount ws calmZones0)%nat.
Proof.
  induction ws as [|p ws IH]; [done|].
  rewrite !hitCount_cons. unfold routeHits in *. simpl.
  rewrite !length_app, !length_map, IH. lia.
Qed.

Lemma routeHits_exact (ws : list RoutePoint) (x : Q) :
  fold_left exactHit (routeHits ws calmZones0 stressZones0) x
  == x - (1 # 10) * inject_Z (Z.of_nat (hitCount ws stressZones0))
     + (5 # 100) * inject_Z (Z.of_nat (hitCount ws calmZones0)).
Proof.
  revert x. induction ws as [|p ws IH]; intros x.
  - unfold hitCount. simpl. ring.
  - rewrite !hitCount_cons, !Nat2Z.inj_add, !inject_Z_plus.
    unfold routeHits in *. simpl. rewrite !exactHit_fold_app, IH.
    rewrite exactHit_fold_calm, exactHit_fold_stress. ring.
Qed.

Lemma routeHits_no_calm (ws : list RoutePoint) :
  calmZones0 = [] →
  Forall (fun h => h = stressHit) (routeHits ws calmZones0 stressZones0).
Proof.
  intros ->. induction ws as [|p ws IH]; [constructor|].
  unfold routeHits in *. simpl. rewrite app_nil_r.
  apply Forall_app. split; [|exact IH].
  apply Forall_forall. intros h Hh.
  apply list_elem_of_In, in_map_iff in Hh as (? & <- & _). done.
Qed.

Lemma visitPoint_fold_avoids (ws : list RoutePoint) (st : RouteAnalysis) :
  NoDup (avoidsStressZones st) →
  NoDup (avoidsStressZones
           (fold_left (visitPoint calmZones0 stressZones0) ws st)) ∧
  ∀ x, x ∈ avoidsStressZones
             (fold_left (visitPoint calmZones0 stressZones0) ws st) ↔
       x ∈ avoidsStressZones st ∨
       ∃ p z, p ∈ ws ∧ z ∈ stressZones0 ∧ zone_id z = x ∧ touches p z.
Proof.
  revert st. induction ws as [|p ws IH]; intros st Hnd; simpl.
  - split; [done|]. intros x. split; [by left|].
    intros [?|(p & z & Hp & _)]; [done|]. by apply elem_of_nil in Hp.
  - destruct (sweep_ids _ _ _ (hitStress_hit (pointLocation p))
                (hitStress_miss _) stressZones0
                (calmScore st, avoidsStressZones st) Hnd) as [S1 S2].
    destruct (IH (visitPoint calmZones0 stressZones0 st p) S1) as [I1 I2].
    split; [done|]. intros x. rewrite I2. unfold visitPoint at 1. simpl.
    rewrite S2. simpl. split.
    + intros [[?|(z & Hz & Hid & Hw)]|(p' & z & Hp' & Hz & Hid & Ht)].
      * by left.
      * right. exists p, z. split; [by left|].
        by rewrite <- touchesb_touches, <- touches_test.
      * right. exists p', z. split; [by right|done].
    + intros [?|(p' & z & Hp' & Hz & Hid & Ht)]; [by left; left|].
      apply elem_of_cons in Hp' as [->|Hp'].
      * left. right. exists z. by rewrite touches_test, touchesb_touches.
      * right. by exists p', z.
Qed.

Lemma visitPoint_fold_includes (ws : list RoutePoint) (st : RouteAnalysis) :
  NoDup (includesCalmZones st) →
  NoDup (includesCalmZones
           (fold_left (visitPoint calmZones0 stressZones0) ws st)) ∧
  ∀ x, x ∈ includesCalmZones
             (fold_left (visitPoint calmZones0 stressZones0) ws st) ↔
       x ∈ includesCalmZones st ∨
       ∃ p z, p ∈ ws ∧ z ∈ calmZones0 ∧ zone_id z = x ∧ touches p z.
Proof.
  revert st. induction ws as [|p ws IH]; intros st Hnd; simpl.
  - split; [done|]. intros x. split; [by left|].
    intros [?|(p & z & Hp & _)]; [done|]. by apply elem_of_nil in Hp.
  - destruct (sweep_ids _ _ _ (hitCalm_hit (pointLocation p))
                (hitCalm_miss _) calmZones0
                ((fold_left (hitStress (pointLocation p)) stressZones0
                    (calmScore st, avoidsStressZones st)).1,
                 includesCalmZones st) Hnd) as [S1 S2].
    destruct (IH (visitPoint calmZones0 stressZones0 st p) S1) as [I1 I2].
    split; [done|]. intros x. rewrite I2. unfold visitPoint at 1. simpl.
    rewrite S2. simpl. split.
    + intros [[?|(z & Hz & Hid & Hw)]|(p' & z & Hp' & Hz & Hid & Ht)].
      * by left.
      * right. exists p, z. split; [by left|].
        by rewrite <- touchesb_touches, <- touches_test.
      * right. exists p', z. split; [by right|done].
    + intros [?|(p' & z & Hp' & Hz & Hid & Ht)]; [by left; left|].
      apply elem_of_cons in Hp' as [->|Hp'].
      * left. right. exists z. by rewrite touches_test, touchesb_touches.
      * right. by exists p', z.
Qed.

(** The score before clamping, and its distance from the exact sum. *)
Lemma analyzeRouteOptimization_hits (ws : list RoutePoint) :
  calmScore (analyzeRouteOptimization ws calmZones0 stressZones0)
  = clamp01 (fold_left applyHit (routeHits ws calmZones0 stressZones0) (5 # 10)).
Proof.
  unfold analyzeRouteOptimization. cbn [calmScore].
  by rewrite visitPoint_fold_score.
Qed.

Lemma analyzeRouteOptimization_near (ws : list RoutePoint) :
  Qabs (calmScore (analyzeRouteOptimization ws calmZones0 stressZones0)
        - clamp01 ((5 # 10)
                   - (1 # 10) * inject_Z (Z.of_nat (hitCount ws stressZones0))
                   + (5 # 100) * inject_Z (Z.of_nat (hitCount ws calmZones0))))
  <= inject_Z (Z.of_nat (hitCount ws stressZones0 + hitCount ws calmZones0)
               * (Z.of_nat (hitCount ws stressZones0 + hitCount ws calmZones0)
                  + 6))
     * (1 # 9007199254740992).
Proof.
  rewrite analyzeRouteOptimization_hits.
  rewrite <- (clamp01_eq _ _ (routeHits_exact ws (5 # 10))).
  rewrite <- routeHits_length.
  set (l := routeHits ws calmZones0 stressZones0).
  set (n := length l).
  assert (Hnn : 0 <= inject_Z (Z.of_nat n)).
  { change 0 with (inject_Z 0). rewrite <- Zle_Qle. lia. }
  rewrite inject_Z_mult, inject_Z_plus. change (inject_Z 6) with 6.
  destruct (Qlt_le_dec (1 # 2)
              (inject_Z (Z.of_nat n) * (1 # 9007199254740992))) as [Hbig|Hsmall].
  - pose proof (clamp01_range (fold_left applyHit l (5 # 10))) as [A1 A2].
    pose proof (clamp01_range (fold_left exactHit l (5 # 10))) as [B1 B2].
    apply (Qle_trans _ 1); [apply Qabs_Qle_condition; split; lra|].
    apply (Qle_trans _ ((1 # 2) * (inject_Z (Z.of_nat n) + 6))); [lra|].
    assert (Hm : (1 # 2) * (inject_Z (Z.of_nat n) + 6)
                 <= inject_Z (Z.of_nat n) * (1 # 9007199254740992)
                    * (inject_Z (Z.of_nat n) + 6)).
    { apply Qmult_le_compat_r; lra. }
    lra.
  - eapply Qle_trans; [apply clamp01_near|].
    pose proof (applyHit_fold_near n l 0 (5 # 10) (5 # 10) Hsmall
                  ltac:(unfold n; simpl; lia)) as Hnear.
    rewrite inject_Z_plus in Hnear. change (inject_Z 6) with 6 in Hnear.
    simpl Nat.add in Hnear. fold n in Hnear.
    change (inject_Z (Z.of_nat 0)) with 0 in Hnear.
    eapply Qle_trans; [apply Hnear|].
    + apply Qabs_Qle_condition. split; lra.
    + apply Qabs_Qle_condition. split; lra.
    + lra.
Qed.
End ScoringFacts.

(** C4, as the code has it.  The score starts from 0.5 and takes the hits
    of the route one after the other, waypoint by waypoint and for each
    waypoint the touched stress zones before the touched calm zones: a
    stress hit subtracts 0.1 and a calm hit adds 0.05, each time in double
    arithmetic, and the result is clamped to [0,1].  The score therefore
    lies in [0,1] whatever the stores hold, and with [n] hits it is within
    [n * (n + 6) * 2^-53] of the clamped exact sum
    [0.5 - 0.1 * stress hits + 0.05 * calm hits].  The id of every touched
    stress zone occurs exactly once in the avoid-list and the id of every
    touched calm zone exactly once in the include-list, and the lists hold
    no other ids.  A single waypoint touching exactly one stress zone, with
    no calm zones, scores the double 0.4. *)
Theorem analyzeRouteOptimization_score `{Host}
    (waypoints : list RoutePoint) (calmZones0 stressZones0 : list Zone) :
  calmScore (analyzeRouteOptimization waypoints calmZones0 stressZones0)
  = clamp01 (fold_left applyHit
               (routeHits waypoints calmZones0 stressZones0) (5 # 10)) ∧
  Qabs (calmScore (analyzeRouteOptimization waypoints calmZones0 stressZones0)
        - clamp01 ((5 # 10)
                   - (1 # 10)
                     * inject_Z (Z.of_nat (hitCount waypoints stressZones0))
                   + (5 # 100)
                     * inject_Z (Z.of_nat (hitCount waypoints calmZones0))))
  <= inject_Z (Z.of_nat (hitCount waypoints stressZones0
                         + hitCount waypoints calmZones0)
               * (Z.of_nat (hitCount waypoints stressZones0
                            + hitCount waypoints calmZones0) + 6))
     * (1 # 9007199254740992) ∧
  (0 <= calmScore (analyzeRouteOptimization waypoints calmZones0 stressZones0)
   ∧ calmScore (analyzeRouteOptimization waypoints calmZones0 stressZones0) <= 1) ∧
  (∀ p z, p ∈ waypoints → z ∈ stressZones0 → touches p z →
     count_occ String.string_dec
       (avoidsStressZones
          (analyzeRouteOptimization waypoints calmZones0 stressZones0))
       (zone_id z) = 1%nat) ∧
  (∀ p z, p ∈ waypoints → z ∈ calmZones0 → touches p z →
     count_occ String.string_dec
       (includesCalmZones
          (analyzeRouteOptimization waypoints calmZones0 stressZones0))
       (zone_id z) = 1%nat) ∧
  (∀ x, x ∈ avoidsStressZones
              (analyzeRouteOptimization waypoints calmZones0 stressZones0) →
     ∃ p z, p ∈ waypoints ∧ z ∈ stressZones0 ∧ zone_id z = x ∧ touches p z) ∧
  (∀ x, x ∈ includesCalmZones
              (analyzeRouteOptimization waypoints calmZones0 stressZones0) →
     ∃ p z, p ∈ waypoints ∧ z ∈ calmZones0 ∧ zone_id z = x ∧ touches p z) ∧
  (∀ p, hitCount [p] stressZones0 = 1%nat →
     calmScore (analyzeRouteOptimization [p] [] stressZones0)
     == double (4 # 10)).
Proof.
  destruct (visitPoint_fold_avoids calmZones0 stressZones0 waypoints
              {| calmScore := 5 # 10; avoidsStressZones := [];
                 includesCalmZones := [] |}) as [A1 A2]; [constructor|].
  destruct (visitPoint_fold_includes calmZones0 stressZones0 waypoints
              {| calmScore := 5 # 10; avoidsStressZones := [];
                 includesCalmZones := [] |}) as [I1 I2]; [constructor|].
  simpl in A2, I2.
  assert (Hone : ∀ p, hitCount [p] stressZones0 = 1%nat →
    calmScore (analyzeRouteOptimization [p] [] stressZones0)
    == double (4 # 10)).
  { intros p Hone. rewrite analyzeRouteOptimization_hits.
    rewrite hitCount_cons in Hone. unfold routeHits. simpl flat_map.
    rewrite !app_nil_r.
    assert (E0 : hitCount [] stressZones0 = 0%nat) by done.
    rewrite E0 in Hone.
    destruct (List.filter (touchesb p) stressZones0) as [|z [|z' l]];
      simpl in Hone; [lia| |lia].
    apply Qeq_bool_iff. vm_compute. reflexivity. }
  split; [apply analyzeRouteOptimization_hits|].
  split; [apply analyzeRouteOptimization_near|].
  split; [rewrite analyzeRouteOptimization_hits; apply clamp01_range|].
  split; [|split; [|split; [|split; [|exact Hone]]]];
    unfold analyzeRouteOptimization; simpl.
  - intros p z Hp Hz Ht.
    apply (proj1 (NoDup_count_occ' String.string_dec _)
             (proj1 (NoDup_ListNoDup _) A1)).
    apply list_elem_of_In, A2. right. by exists p, z.
  - intros p z Hp Hz Ht.
    apply (proj1 (NoDup_count_occ' String.string_dec _)
             (proj1 (NoDup_ListNoDup _) I1)).
    apply list_elem_of_In, I2. right. by exists p, z.
  - intros x Hx. apply A2 in Hx as [Hx|Hx]; [|done].
    by apply elem_of_nil in Hx.
  - intros x Hx. apply I2 in Hx as [Hx|Hx]; [|done].
    by apply elem_of_nil in Hx.
Qed.

Lemma analyzeRouteOptimization_score_witness :
  hitCount (H:=flatHost) [origin] [zone_ "z" 0 0 30 (1 # 2) 3 7] = 1%nat ∧
  calmScore (analyzeRouteOptimization (H:=flatHost) [origin] []
               [zone_ "z" 0 0 30 (1 # 2) 3 7]) == double (4 # 10).
Proof.
  assert (Hone : hitCount (H:=flatHost) [origin]
                   [zone_ "z" 0 0 30 (1 # 2) 3 7] = 1%nat) by reflexivity.
  split; [exact Hone|].
  exact (proj2 (proj2 (proj2 (proj2 (proj2 (proj2 (proj2
    (analyzeRouteOptimization_score (H:=flatHost) [origin] []
       [zone_ "z" 0 0 30 (1 # 2) 3 7]))))))) origin Hone).
Defined.

(** C4, as stated, fails: the score is not the clamped exact sum.  Five
    waypoints on one stress zone make five stress hits; the exact sum
    0.5 - 5 * 0.1 is 0, whereas the code, subtracting the double 0.1 five
    times, returns 2^-55 (about 2.8e-17).  Likewise four waypoints on one
    calm zone score 0.7000000000000002 (788129934789837 * 2^-50), which is
    above the exact 0.7. *)
Lemma analyzeRouteOptimization_rounds :
  hitCount (H:=flatHost) [origin; origin; origin; origin; origin]
    [zone_ "z" 0 0 30 (1 # 2) 3 7] = 5%nat ∧
  calmScore (analyzeRouteOptimization (H:=flatHost)
               [origin; origin; origin; origin; origin] []
               [zone_ "z" 0 0 30 (1 # 2) 3 7])
  == 1 # 36028797018963968 ∧
  ¬ calmScore (analyzeRouteOptimization (H:=flatHost)
                 [origin; origin; origin; origin; origin] []
                 [zone_ "z" 0 0 30 (1 # 2) 3 7])
    == clamp01 ((5 # 10) - (1 # 10) * 5 + (5 # 100) * 0) ∧
  calmScore (analyzeRouteOptimization (H:=flatHost)
               [origin; origin; origin; origin]
               [zone_ "z" 0 0 30 (1 # 2) 3 7] [])
  == 788129934789837 # 1125899906842624 ∧
  clamp01 ((5 # 10) - (1 # 10) * 0 + (5 # 100) * 4)
  < calmScore (analyzeRouteOptimization (H:=flatHost)
                 [origin; origin; origin; origin]
                 [zone_ "z" 0 0 30 (1 # 2) 3 7] []).
Proof.
  split; [reflexivity|].
  split; [apply Qeq_bool_iff; vm_compute; reflexivity|].
  split; [intros E; apply Qeq_bool_iff in E; vm_compute in E; discriminate E|].
  split; [apply Qeq_bool_iff; vm_compute; reflexivity|].
  apply Qltb_lt. vm_compute. reflexivity.
Qed.

(** ** Fallback route *)

Section WaypointFacts.
Context `{Host}.
Variable random : nat → Q.
Variables start end_ : Location.









End WaypointFacts.







(** ** Simple suggestion *)

Lemma fold_calmer_spec `{Host} (zs : list Zone) (z : Zone) :
  (fold_left calmer zs z = z ∨ fold_left calmer zs z ∈ zs) ∧
  score z <= score (fold_left calmer zs z) ∧
  ∀ x, x ∈ zs → score x <= score (fold_left calmer zs z).
Proof.
  revert z. induction zs as [|y zs IH]; intros z; simpl.
  - split; [by left|]. split; [apply Qle_refl|].
    intros x Hx. by apply elem_of_nil in Hx.
  - destruct (IH (calmer z y)) as (H1 & H2 & H3).
    assert (Hz : score z <= score (calmer z y) ∧ score y <= score (calmer z y)).
    { unfold calmer. destruct (Qltb (score z) (score y)) eqn:E.
      - apply Qltb_lt in E. split; [by apply Qlt_le_weak|apply Qle_refl].
      - apply Qltb_ge in E. split; [apply Qle_refl|done]. }
    destruct Hz as [Hz Hy].
    split; [|split].
    + destruct H1 as [H1|H1]; [|right; by right].
      rewrite H1. unfold calmer. destruct (Qltb _ _); [right; by left|by left].
    + by eapply Qle_trans.
    + intros x Hx. apply elem_of_cons in Hx as [->|Hx]; [|by apply H3].
      by eapply Qle_trans.
Qed.



(** ** Session insights *)

(** *** Occurrence of a phrase in generated text *)

Lemma chars_app (a b : string) : chars (a +:+ b) = chars a ++ chars b.
Proof. unfold chars. induction a as [|c a IH]; simpl; [done|by rewrite IH]. Qed.

Lemma occursIn_chars (s t : string) :
  occursIn s t → occursL (chars s) (chars t).
Proof.
  intros (pre & post & ->). exists (chars pre), (chars post).
  by rewrite !chars_app.
Qed.

Lemma prefixb_app (s post : list ascii) : prefixb s (s ++ post) = true.
Proof.
  induction s as [|c s IH]; simpl; [done|].
  by rewrite Ascii.eqb_refl, IH.
Qed.

Lemma infixb_complete (s t : list ascii) : occursL s t → infixb s t = true.
Proof.
  intros (pre & post & ->). induction pre as [|c pre IH].
  - simpl. destruct (s ++ post) eqn:E; simpl; rewrite <- E;
      by rewrite prefixb_app.
  - simpl. rewrite IH. apply orb_true_r.
Qed.

Lemma filter_inb_self (l : list ascii) : List.filter (inb l) l = l.
Proof.
  apply forallb_filter_id, forallb_forall. intros c Hc.
  unfold inb. apply existsb_exists. exists c. split; [done|].
  apply Ascii.eqb_refl.
Qed.

(** Erasing the characters foreign to the needle keeps its occurrences. *)
Lemma occursIn_strip (needle t : string) :
  occursIn needle t → infixb (chars needle) (strip needle t) = true.
Proof.
  intros Hocc. apply occursIn_chars in Hocc as (pre & post & E).
  apply infixb_complete. unfold strip. rewrite E.
  exists (List.filter (inb (chars needle)) pre),
         (List.filter (inb (chars needle)) post).
  by rewrite !List.filter_app, filter_inb_self.
Qed.

Lemma strip_app (needle a b : string) :
  strip needle (a +:+ b) = strip needle a ++ strip needle b.
Proof. unfold strip. by rewrite chars_app, List.filter_app. Qed.

Lemma string_of_uint_digits (d : Decimal.uint) :
  Forall (fun c => c ∈ chars "-0123456789")
         (chars (NilEmpty.string_of_uint d)).
Proof.
  induction d; simpl; constructor; try done;
    apply list_elem_of_In; simpl; tauto.
Qed.

Lemma showZ_digits (z : Z) :
  Forall (fun c => c ∈ chars "-0123456789") (chars (showZ z)).
Proof.
  unfold showZ, NilZero.string_of_int, NilZero.string_of_uint.
  destruct (Z.to_int z) as [d|d].
  - destruct d; try apply string_of_uint_digits.
    constructor; [|constructor]. apply list_elem_of_In. simpl. tauto.
  - change (chars (String "-" ?s)) with ("-"%char :: chars s).
    constructor; [apply list_elem_of_In; simpl; tauto|].
    destruct d; try apply string_of_uint_digits.
    constructor; [|constructor]. apply list_elem_of_In. simpl. tauto.
Qed.

Lemma strip_showZ (needle : string) (z : Z) :
  digitFree needle = true → strip needle (showZ z) = [].
Proof.
  intros Hfree. unfold strip, digitFree in *.
  rewrite forallb_forall in Hfree.
  pose proof (showZ_digits z) as Hd.
  induction Hd as [|c l Hc _ IH]; simpl; [done|].
  apply list_elem_of_In, Hfree, negb_true_iff in Hc. by rewrite Hc.
Qed.

(** *** The synthesizer *)

Section InsightFacts.
Context `{Host}.

Lemma analyzeTimePatterns_cases (morning afternoon evening : list MoodEntry) :
  analyzeTimePatterns morning afternoon evening = None ∨
  ∃ name, name ∈ ["morning"; "afternoon"; "evening"] ∧
    analyzeTimePatterns morning afternoon evening
    = Some ("Consider walking more in the " +:+ name
            +:+ " when stress levels are lower.").
Proof.
  unfold analyzeTimePatterns. cbn [fold_left].
  match goal with
  | |- context [if ?b then Some _ else None] => destruct b
  end; [|by left].
  right. eexists. split; [|reflexivity].
  repeat match goal with
  | |- context [if ?b then _ else _] => destruct b
  end; cbn [period_name periodRate]; set_solver.
Qed.

Lemma analyzeLocationPatterns_short (entries : list MoodEntry) :
  (length entries < 3)%nat → analyzeLocationPatterns entries = None.
Proof.
  intros Hlen. unfold analyzeLocationPatterns.
  by rewrite (proj2 (Nat.ltb_lt _ _) Hlen).
Qed.

Lemma concat_two (sep x y : string) (l : list string) :
  String.concat sep (x :: y :: l) = x +:+ sep +:+ String.concat sep (y :: l).
Proof. done. Qed.

Lemma concat_one (sep x : string) : String.concat sep [x] = x.
Proof. done. Qed.

(** After erasure of the characters foreign to the phrase, neither
    location phrase is left in the insight of a session with fewer than
    three entries. *)
Lemma short_session_insight_check (needle : string) (session : WalkSession) :
  needle ∈ ["consistently triggered stress";
            "consistently provided calm moments"] →
  (length (moodEntries session) < 3)%nat →
  infixb (chars needle) (strip needle (generateSessionInsights session))
  = false.
Proof.
  intros Hneedle Hlen.
  assert (Hfree : digitFree needle = true).
  { repeat (apply elem_of_cons in Hneedle as [->|Hneedle]; [done|]).
    by apply elem_of_nil in Hneedle. }
  unfold generateSessionInsights. cbv zeta.
  destruct (length (moodEntries session) =? 0)%nat.
  { clear Hfree.
    repeat (apply elem_of_cons in Hneedle as [->|Hneedle];
            [vm_compute; reflexivity|]).
    by apply elem_of_nil in Hneedle. }
  rewrite (analyzeLocationPatterns_short _ Hlen). cbn [pushIf].
  match goal with
  | |- context [analyzeTimePatterns ?m ?a ?e] =>
      destruct (analyzeTimePatterns_cases m a e) as [->|(name & Hname & ->)]
  end; cbn [pushIf].
  - repeat match goal with
      | |- context [if ?b then _ else _] => destruct b
      end; cbn [app];
      rewrite ?concat_two, ?concat_one, ?strip_app, ?(strip_showZ _ _ Hfree);
      clear Hfree;
      repeat (apply elem_of_cons in Hneedle as [->|Hneedle];
              [vm_compute; reflexivity|]);
      by apply elem_of_nil in Hneedle.
  - repeat match goal with
      | |- context [if ?b then _ else _] => destruct b
      end; cbn [app];
      rewrite ?concat_two, ?concat_one, ?strip_app, ?(strip_showZ _ _ Hfree);
      clear Hfree;
      repeat (apply elem_of_cons in Hname as [->|Hname];
        [repeat (apply elem_of_cons in Hneedle as [->|Hneedle];
                 [vm_compute; reflexivity|]);
         by apply elem_of_nil in Hneedle|]);
      by apply elem_of_nil in Hname.
Qed.
End InsightFacts.

(** C7. A session without mood entries yields exactly the fixed message;
    the test on the number of entries is the first thing the function
    does. *)
Theorem generateSessionInsights_empty `{Host} (session : WalkSession) :
  moodEntries session = [] →
  generateSessionInsights session = "No mood data recorded for this walk.".
Proof. intros E. unfold generateSessionInsights. by rewrite E. Qed.

Lemma generateSessionInsights_empty_witness :
  moodEntries (session_ []) = [] ∧
  generateSessionInsights (H:=flatHost) (session_ [])
  = "No mood data recorded for this walk.".
Proof.
  split; [reflexivity|].
  exact (generateSessionInsights_empty (H:=flatHost) (session_ []) eq_refl).
Defined.

(** C10. For a session with fewer than three mood entries the location
    heuristic yields nothing, and the insight contains neither
    "consistently triggered stress" nor "consistently provided calm
    moments", whatever the moods and places of the entries. *)
Theorem generateSessionInsights_short_no_location `{Host}
    (session : WalkSession) :
  (length (moodEntries session) < 3)%nat →
  analyzeLocationPatterns (moodEntries session) = None ∧
  ¬ occursIn "consistently triggered stress"
             (generateSessionInsights session) ∧
  ¬ occursIn "consistently provided calm moments"
             (generateSessionInsights session).
Proof.
  intros Hlen. split; [by apply analyzeLocationPatterns_short|].
  split; intros Hocc; apply occursIn_strip in Hocc;
    rewrite short_session_insight_check in Hocc; try done; set_solver.
Qed.

Lemma generateSessionInsights_short_no_location_witness :
  (length (moodEntries (session_ (c_entries cluster2))) < 3)%nat ∧
  (6 # 10) < moodRate stressed (c_entries cluster2) ∧
  ¬ occursIn "consistently triggered stress"
      (generateSessionInsights (H:=flatHost) (session_ (c_entries cluster2))).
Proof.
  assert (Hlen : (length (moodEntries (session_ (c_entries cluster2))) < 3)%nat)
    by (simpl; lia).
  split; [exact Hlen|]. split; [reflexivity|].
  exact (proj1 (proj2 (generateSessionInsights_short_no_location (H:=flatHost)
    (session_ (c_entries cluster2)) Hlen))).
Defined.

(** * Further properties *)

(** ** Geometry of the clusters *)

Section ClusterGeometry.
Context `{Host}.
Variable radiusMeters : Q.

(** Every entry a scan adds is near the anchor, and every entry it passes
    over is already processed, shares the anchor's id, or is far. *)
Lemma scanNearby_fold_near (anchor : MoodEntry) (xs : list MoodEntry)
    (acc : list MoodEntry * gset string) :
  ∃ added,
    (fold_left (scanNearby radiusMeters anchor) xs acc).1 = acc.1 ++ added ∧
    acc.2 ⊆ (fold_left (scanNearby radiusMeters anchor) xs acc).2 ∧
    (∀ x, x ∈ added →
       calculateDistance (location anchor) (location x) <= radiusMeters) ∧
    (∀ x, x ∈ xs →
       id x ∈ (fold_left (scanNearby radiusMeters anchor) xs acc).2
       ∨ id x = id anchor
       ∨ radiusMeters < calculateDistance (location anchor) (location x)).
Proof.
  revert acc. induction xs as [|x xs IH]; intros acc.
  - exists []. simpl. rewrite app_nil_r. split; [done|]. split; [done|].
    split; intros y Hy; by apply elem_of_nil in Hy.
  - simpl. unfold scanNearby at 2 4 6.
    destruct (String.eqb (id x) (id anchor)) eqn:Eid.
    { simpl. destruct (IH acc) as (added & H1 & H2 & H3 & H4).
      exists added. split; [done|]. split; [done|]. split; [done|].
      intros y Hy. apply elem_of_cons in Hy as [->|Hy]; [|by apply H4].
      right. left. by apply String.eqb_eq. }
    simpl. destruct (bool_decide (id x ∈ acc.2)) eqn:Eproc.
    { apply bool_decide_eq_true in Eproc.
      destruct (IH acc) as (added & H1 & H2 & H3 & H4).
      exists added. split; [done|]. split; [done|]. split; [done|].
      intros y Hy. apply elem_of_cons in Hy as [->|Hy]; [|by apply H4].
      left. by apply H2. }
    destruct (Qle_bool _ _) eqn:Enear.
    + apply Qle_bool_iff in Enear.
      destruct (IH (acc.1 ++ [x], {[ id x ]} ∪ acc.2))
        as (added & H1 & H2 & H3 & H4).
      exists (x :: added). simpl in *.
      split; [by rewrite H1, <- app_assoc|]. split; [set_solver|].
      split.
      * intros y Hy. apply elem_of_cons in Hy as [->|Hy]; [done|by apply H3].
      * intros y Hy. apply elem_of_cons in Hy as [->|Hy]; [|by apply H4].
        left. set_solver.
    + destruct (IH acc) as (added & H1 & H2 & H3 & H4).
      exists added. split; [done|]. split; [done|]. split; [done|].
      intros y Hy. apply elem_of_cons in Hy as [->|Hy]; [|by apply H4].
      right. right. apply Qnot_le_lt. intros Hle.
      apply Qle_bool_iff in Hle. congruence.
Qed.

Lemma clusterStep_geometry (entries : list MoodEntry)
    (st : list Cluster * gset string) (e : MoodEntry) :
  clusterGeometry radiusMeters entries st → e ∈ entries →
  clusterGeometry radiusMeters entries (clusterStep radiusMeters entries st e) ∧
  st.2 ⊆ (clusterStep radiusMeters entries st e).2.
Proof.
  intros (Hnear & Hfar & Hapart) He. unfold clusterStep.
  destruct (bool_decide (id e ∈ st.2)) eqn:Eproc; [done|].
  apply bool_decide_eq_false in Eproc.
  destruct (scanNearby_fold_near e entries ([e], st.2))
    as (added & H1 & H2 & H3 & H4).
  simpl in *. rewrite H1.
  split; [|intros y Hy; by apply elem_of_union_r, H2].
  unfold clusterGeometry. simpl. split; [|split].
  - apply Forall_app. split; [done|]. apply Forall_singleton.
    exists e, added. by rewrite Forall_forall.
  - intros c x Hc Hx Hid. apply elem_of_app in Hc as [Hc|Hc].
    + apply Hfar; [done|done|].
      intros Hin. by apply Hid, elem_of_union_r, H2.
    + apply list_elem_of_singleton in Hc as ->. simpl.
      destruct (H4 x Hx) as [Hin|[Heq|Hd]]; [| |done].
      * exfalso. by apply Hid, elem_of_union_r.
      * exfalso. apply Hid, elem_of_union_l, elem_of_singleton. done.
  - intros i j ci cj Hij Hi Hj.
    destruct (decide (j < length st.1)%nat) as [Hlt|Hge].
    + rewrite lookup_app_l in Hi by lia. rewrite lookup_app_l in Hj by lia.
      exact (Hapart i j ci cj Hij Hi Hj).
    + apply lookup_lt_Some in Hj as Hj'. rewrite length_app in Hj'.
      simpl in Hj'. assert (j = length st.1) as -> by lia.
      rewrite lookup_app_l in Hi by lia.
      rewrite list_lookup_middle in Hj by done. simplify_eq. simpl.
      apply Hfar; [by eapply list_elem_of_lookup_2|done|done].
Qed.

Lemma clusterNearbyEntries_geometry (entries : list MoodEntry) :
  clusterGeometry radiusMeters entries
    (fold_left (clusterStep radiusMeters entries) entries ([], ∅)).
Proof.
  assert (Hgen : ∀ xs st,
    clusterGeometry radiusMeters entries st → (∀ e, e ∈ xs → e ∈ entries) →
    clusterGeometry radiusMeters entries
      (fold_left (clusterStep radiusMeters entries) xs st)).
  { induction xs as [|x xs IH]; intros st Hst Hxs; simpl; [done|].
    apply IH.
    - apply clusterStep_geometry; [done|]. apply Hxs. by left.
    - intros e He. apply Hxs. by right. }
  apply Hgen; [|done]. split; [constructor|]. split.
  - intros c x Hc. by apply elem_of_nil in Hc.
  - intros i j ci cj _ Hi. done.
Qed.
End ClusterGeometry.

(** X1. Every cluster consists of its anchor followed by entries that lie
    within the clustering radius of the cluster's center. *)
Theorem clusterNearbyEntries_members_near `{Host}
    (entries : list MoodEntry) (radiusMeters : Q) (c : Cluster) :
  c ∈ clusterNearbyEntries entries radiusMeters →
  ∃ anchor rest,
    c_entries c = anchor :: rest ∧ c_center c = location anchor ∧
    ∀ x, x ∈ rest →
      calculateDistance (c_center c) (location x) <= radiusMeters.
Proof.
  intros Hc.
  destruct (clusterNearbyEntries_geometry radiusMeters entries) as (Hnear & _).
  rewrite Forall_forall in Hnear.
  destruct (Hnear c Hc) as (a & rest & E1 & E2 & Hall).
  exists a, rest. split; [done|]. split; [done|].
  rewrite Forall_forall in Hall. intros x Hx. rewrite E2. by apply Hall.
Qed.

Lemma clusterNearbyEntries_members_near_witness :
  ∃ c anchor rest,
    c ∈ clusterNearbyEntries (H:=flatHost) walk3 30 ∧
    c_entries c = anchor :: rest ∧
    ∀ x, x ∈ rest → calculateDistance (c_center c) (location x) <= 30.
Proof.
  assert (Hc : cluster2 ∈ clusterNearbyEntries (H:=flatHost) walk3 30).
  { vm_compute. apply list_elem_of_here. }
  destruct (clusterNearbyEntries_members_near (H:=flatHost) walk3 30
              cluster2 Hc) as (a & rest & E & _ & Hall).
  exists cluster2, a, rest. split; [exact Hc|]. split; [exact E|exact Hall].
Defined.

(** X2. The centers of two different clusters of one pass are more than
    the clustering radius apart, measured from the earlier cluster. *)
Theorem clusterNearbyEntries_centers_apart `{Host}
    (entries : list MoodEntry) (radiusMeters : Q)
    (i j : nat) (ci cj : Cluster) :
  (i < j)%nat →
  clusterNearbyEntries entries radiusMeters !! i = Some ci →
  clusterNearbyEntries entries radiusMeters !! j = Some cj →
  radiusMeters < calculateDistance (c_center ci) (c_center cj).
Proof.
  destruct (clusterNearbyEntries_geometry radiusMeters entries)
    as (_ & _ & Hapart).
  apply Hapart.
Qed.

Lemma clusterNearbyEntries_centers_apart_witness :
  ∃ ci cj,
    clusterNearbyEntries (H:=flatHost) walk3 30 !! 0%nat = Some ci ∧
    clusterNearbyEntries (H:=flatHost) walk3 30 !! 1%nat = Some cj ∧
    30 < calculateDistance (c_center ci) (c_center cj).
Proof.
  eexists _, _. split; [vm_compute; reflexivity|].
  split; [vm_compute; reflexivity|].
  apply (clusterNearbyEntries_centers_apart (H:=flatHost) walk3 30 0 1);
    [lia|vm_compute; reflexivity|vm_compute; reflexivity].
Defined.

(** ** Invariants of the zone stores *)

Lemma countMood_le (m : Mood) (es : list MoodEntry) :
  (countMood m es ≤ length es)%nat.
Proof. unfold countMood. apply List.filter_length_le. Qed.

Lemma moodRate_range (m : Mood) (es : list MoodEntry) :
  0 <= moodRate m es ∧ moodRate m es <= 1.
Proof.
  unfold moodRate. pose proof (countMood_le m es) as Hle.
  destruct es as [|e es].
  - simpl. unfold countMood. simpl. split; by unfold Qle.
  - assert (Hpos : 0 < inject_Z (Z.of_nat (length (e :: es)))).
    { unfold Qlt. simpl. lia. }
    split.
    + apply Qle_shift_div_l; [done|]. rewrite Qmult_0_l.
      unfold Qle. simpl. lia.
    + apply Qle_shift_div_r; [done|]. rewrite Qmult_1_l.
      rewrite <- Zle_Qle. lia.
Qed.

Lemma bumpZone_score_range (members0 : list MoodEntry) (z : Zone) :
  0 <= score z → 0 <= score (bumpZone members0 z) ∧ score (bumpZone members0 z) <= 1.
Proof.
  intros H0. simpl. split; [|apply Q.le_min_l].
  apply Q.min_glb; [by unfold Qle|]. lra.
Qed.

Lemma zoneStep_score_range `{Host} (st : ZoneStore) (c : Cluster) :
  Forall (fun z => 0 <= score z ∧ score z <= 1) (heap st) →
  Forall (fun z => 0 <= score z ∧ score z <= 1) (heap (zoneStep st c)).
Proof.
  intros Hall. unfold zoneStep.
  destruct (Qltb _ (moodRate stressed _) && _).
  { destruct (findZone _ _ (stressZones st)) as [r|]; simpl.
    - apply Forall_alter; [done|]. intros z _ [H0 _].
      by apply bumpZone_score_range.
    - apply Forall_app. split; [done|]. apply Forall_singleton. simpl.
      apply moodRate_range. }
  destruct (Qltb _ (moodRate calm _) && _); [|done].
  destruct (findZone _ _ (calmZones st)) as [r|]; simpl.
  - apply Forall_alter; [done|]. intros z _ [H0 _].
    by apply bumpZone_score_range.
  - apply Forall_app. split; [done|]. apply Forall_singleton. simpl.
    apply moodRate_range.
Qed.

(** X3. If every zone record has its score in [0,1] before the call, every
    zone record, old or new, has its score in [0,1] after it. *)
Theorem updateZonesFromSession_scores_in_range `{Host}
    (session : WalkSession) (h : list Zone)
    (existingCalmZones existingStressZones : list ref) :
  Forall (fun z => 0 <= score z ∧ score z <= 1) h →
  Forall (fun z => 0 <= score z ∧ score z <= 1)
    (heap (updateZonesFromSession session h existingCalmZones
             existingStressZones)).
Proof.
  intros Hall. unfold updateZonesFromSession.
  generalize (clusterNearbyEntries (moodEntries session) 30). intros cs.
  set (st0 := {| heap := h; calmZones := existingCalmZones;
                 stressZones := existingStressZones; minted := 0 |}).
  assert (Hst : Forall (fun z => 0 <= score z ∧ score z <= 1) (heap st0))
    by done.
  revert Hst. generalize st0. clear st0.
  induction cs as [|c cs IH]; intros st Hst; simpl; [done|].
  apply IH. by apply zoneStep_score_range.
Qed.

Lemma updateZonesFromSession_scores_in_range_witness :
  Forall (fun z => 0 <= score z ∧ score z <= 1)
    (heap (updateZonesFromSession (H:=flatHost) (session_ walk3)
             (heap store1) [] [0%nat])).
Proof.
  apply (updateZonesFromSession_scores_in_range (H:=flatHost)).
  simpl. apply Forall_singleton. simpl. unfold Qle. simpl. lia.
Defined.

Lemma bumpAll_monotone (hits : list Cluster) (z : Zone) :
  (count z ≤ count (fold_left bumpAll hits z))%Z ∧
  (last z ≤ last (fold_left bumpAll hits z))%Z ∧
  (score z <= 1 → score z <= score (fold_left bumpAll hits z)).
Proof.
  revert z. induction hits as [|c hits IH]; intros z; simpl.
  - split; [lia|]. split; [lia|]. intros _. apply Qle_refl.
  - destruct (IH (bumpAll z c)) as (H1 & H2 & H3).
    unfold bumpAll, bumpZone in *. simpl in *.
    split; [lia|]. split; [lia|]. intros Hz.
    eapply Qle_trans; [|apply H3; apply Q.le_min_l].
    apply Q.min_glb; [done|lra].
Qed.

(** X4. Over a whole call no record of the input store loses ground: its
    count and its last-timestamp do not decrease, and its score does not
    decrease if it was at most 1. *)
Theorem updateZonesFromSession_records_grow `{Host}
    (session : WalkSession) (h : list Zone)
    (existingCalmZones existingStressZones : list ref)
    (r : ref) (z : Zone) :
  h !! r = Some z →
  ∃ z', heap (updateZonesFromSession session h existingCalmZones
                existingStressZones) !! r = Some z' ∧
        (count z ≤ count z')%Z ∧ (last z ≤ last z')%Z ∧
        (score z <= 1 → score z <= score z').
Proof.
  intros Hz. unfold updateZonesFromSession.
  destruct (zoneStep_fold_frame (clusterNearbyEntries (moodEntries session) 30)
              {| heap := h; calmZones := existingCalmZones;
                 stressZones := existingStressZones; minted := 0 |})
    as (_ & _ & _ & _ & _ & Hrec).
  destruct (Hrec r z Hz) as (hits & _ & _ & Hlook).
  exists (fold_left bumpAll hits z). split; [done|]. apply bumpAll_monotone.
Qed.

Lemma updateZonesFromSession_records_grow_witness :
  ∃ z', heap (updateZonesFromSession (H:=flatHost) (session_ walk3)
                (heap store1) [] [0%nat]) !! 0%nat = Some z' ∧
        (3 ≤ count z')%Z.
Proof.
  destruct (updateZonesFromSession_records_grow (H:=flatHost) (session_ walk3)
              (heap store1) [] [0%nat] 0%nat
              (zone_ "z" 0 0 30 (1 # 2) 3 7) eq_refl)
    as (z' & Hlook & Hcount & _).
  exists z'. split; [exact Hlook|exact Hcount].
Defined.

Lemma zoneStep_fold_skip `{Host} (cs : list Cluster) (st : ZoneStore) :
  (∀ c, c ∈ cs → ¬ stressCandidate c ∧ ¬ calmCandidate c) →
  fold_left zoneStep cs st = st.
Proof.
  revert st. induction cs as [|c cs IH]; intros st Hall; simpl; [done|].
  destruct (Hall c) as [Hs Hc]; [by left|].
  rewrite (zoneStep_skip st c Hs Hc). apply IH.
  intros c' Hc'. apply Hall. by right.
Qed.

Lemma clusterNearbyEntries_members_sub `{Host}
    (entries : list MoodEntry) (radiusMeters : Q) (c : Cluster) (e : MoodEntry) :
  c ∈ clusterNearbyEntries entries radiusMeters → e ∈ c_entries c →
  e ∈ entries.
Proof.
  intros Hc He. unfold clusterNearbyEntries in Hc.
  destruct (clusterStep_fold_inv radiusMeters entries entries ([], ∅))
    as ((_ & _ & Hsub & _) & _); [|done|].
  { unfold clusterInv. simpl. split; [done|]. split; [constructor|].
    split; [|constructor]. intros x Hx. by apply elem_of_nil in Hx. }
  apply Hsub. unfold members. apply list_elem_of_In, in_concat.
  exists (c_entries c). split; apply list_elem_of_In; [|done].
  by apply list_elem_of_fmap_2.
Qed.

Lemma clusterNearbyEntries_singleton `{Host} (e : MoodEntry) (radiusMeters : Q) :
  clusterNearbyEntries [e] radiusMeters
  = [ {| c_center := location e; c_entries := [e] |} ].
Proof.
  unfold clusterNearbyEntries. simpl. unfold clusterStep. simpl.
  rewrite bool_decide_eq_false_2 by set_solver. simpl.
  unfold scanNearby. simpl. by rewrite String.eqb_refl.
Qed.

Lemma countMood_none (m : Mood) (es : list MoodEntry) :
  (∀ e, e ∈ es → mood e ≠ m) → countMood m es = 0%nat.
Proof.
  unfold countMood. induction es as [|e es IH]; intros Hall; [done|].
  simpl. destruct (Mood_eqb (mood e) m) eqn:E.
  - exfalso. apply (Hall e); [by left|].
    destruct (mood e), m; simpl in E; congruence.
  - apply IH. intros e' He'. apply Hall. by right.
Qed.

(** X5. A session with fewer than two mood entries, or whose entries are
    all neutral, changes nothing: the store and both arrays come back as
    they were given. *)
Theorem updateZonesFromSession_no_evidence `{Host}
    (session : WalkSession) (h : list Zone)
    (existingCalmZones existingStressZones : list ref) :
  (length (moodEntries session) < 2)%nat
  ∨ (∀ e, e ∈ moodEntries session → mood e = neutral) →
  updateZonesFromSession session h existingCalmZones existingStressZones
  = {| heap := h; calmZones := existingCalmZones;
       stressZones := existingStressZones; minted := 0 |}.
Proof.
  intros Hcase. unfold updateZonesFromSession. apply zoneStep_fold_skip.
  intros c Hc. destruct Hcase as [Hlen|Hneutral].
  - assert (Hsize : (length (c_entries c) < 2)%nat).
    { destruct (moodEntries session) as [|e [|e' es]]; simpl in Hlen.
      - by apply elem_of_nil in Hc.
      - rewrite clusterNearbyEntries_singleton in Hc.
        apply list_elem_of_singleton in Hc as ->. simpl. lia.
      - lia. }
    unfold calmCandidate, stressCandidate. split; intros ?; lia.
  - assert (Hrate : ∀ m, m ≠ neutral → ¬ (6 # 10) < moodRate m (c_entries c)).
    { intros m Hm. unfold moodRate. rewrite countMood_none.
      - simpl. unfold Qdiv. rewrite Qmult_0_l. by unfold Qlt.
      - intros e He. rewrite (Hneutral e); [done|].
        by eapply clusterNearbyEntries_members_sub. }
    unfold calmCandidate, stressCandidate.
    split; intros Hcand; [eapply (Hrate stressed)|eapply (Hrate calm)];
      try done; tauto.
Qed.

Lemma updateZonesFromSession_no_evidence_witness :
  updateZonesFromSession (H:=flatHost)
    (session_ [entry_ "a" 0 0 stressed 10]) (heap store1) [] [0%nat]
  = {| heap := heap store1; calmZones := []; stressZones := [0%nat];
       minted := 0 |}.
Proof.
  apply (updateZonesFromSession_no_evidence (H:=flatHost)).
  left. simpl. lia.
Defined.

Section Separation.
Context `{Host}.

Lemma findZone_None_inv (h : list Zone) (c : Location) (zones : list ref) :
  findZone h c zones = None → noZoneNear h zones c.
Proof.
  unfold findZone, noZoneNear. intros Hf r z Hr Hz Hlt.
  apply list_elem_of_In in Hr.
  pose proof (find_none _ _ Hf r Hr) as Hb. simpl in Hb.
  unfold ref in *. rewrite Hz in Hb. apply Qltb_ge in Hb.
  by apply (Qle_not_lt _ _ Hb).
Qed.

Lemma separated_alter (members0 : list MoodEntry) (r : ref) (h : list Zone)
    (zones : list ref) :
  separated h zones → separated (alter (bumpZone members0) r h) zones.
Proof.
  intros Hsep i j ri rj zi zj Hij Hi Hj Hzi Hzj.
  assert (Hlook : ∀ k z', alter (bumpZone members0) r h !! k = Some z' →
            ∃ z, h !! k = Some z ∧ center z' = center z).
  { intros k z' Hk. unfold ref in *. rewrite list_lookup_alter in Hk.
    case_decide as E.
    - subst. destruct (h !! k) as [z|] eqn:Ez; simpl in Hk; [|done].
      simplify_eq. by exists z.
    - by exists z'. }
  destruct (Hlook _ _ Hzi) as (zi0 & Hzi0 & ->).
  destruct (Hlook _ _ Hzj) as (zj0 & Hzj0 & ->).
  by eapply (Hsep i j ri rj).
Qed.

Lemma separated_grow (z : Zone) (h : list Zone) (zones : list ref) :
  validRefs h zones → separated h zones → separated (h ++ [z]) zones.
Proof.
  intros Hvalid Hsep i j ri rj zi zj Hij Hi Hj Hzi Hzj.
  unfold validRefs in Hvalid. rewrite Forall_forall in Hvalid.
  assert (ri < length h)%nat by (eapply Hvalid, list_elem_of_lookup_2; eauto).
  assert (rj < length h)%nat by (eapply Hvalid, list_elem_of_lookup_2; eauto).
  unfold ref in *.
  rewrite lookup_app_l in Hzi by done. rewrite lookup_app_l in Hzj by done.
  by eapply (Hsep i j ri rj).
Qed.

Lemma separated_push (z : Zone) (h : list Zone) (zones : list ref) :
  validRefs h zones → separated h zones → noZoneNear h zones (center z) →
  separated (h ++ [z]) (zones ++ [length h]).
Proof.
  intros Hvalid Hsep Hno i j ri rj zi zj Hij Hi Hj Hzi Hzj.
  destruct (decide (j < length zones)%nat) as [Hlt|Hge].
  - rewrite lookup_app_l in Hi by lia. rewrite lookup_app_l in Hj by lia.
    eapply (separated_grow z h zones Hvalid Hsep i j ri rj); eauto.
  - apply lookup_lt_Some in Hj as Hj'. rewrite length_app in Hj'.
    simpl in Hj'. assert (j = length zones) as -> by lia.
    rewrite lookup_app_l in Hi by lia.
    rewrite list_lookup_middle in Hj by done. simplify_eq.
    unfold ref in *. rewrite list_lookup_middle in Hzj by done. simplify_eq.
    unfold validRefs in Hvalid. rewrite Forall_forall in Hvalid.
    assert (ri < length h)%nat by (eapply Hvalid, list_elem_of_lookup_2; eauto).
    rewrite lookup_app_l in Hzi by done.
    apply Qnot_lt_le. eapply Hno; [|done].
    by eapply list_elem_of_lookup_2.
Qed.

Lemma validRefs_grow (z : Zone) (h : list Zone) (zones : list ref) :
  validRefs h zones → validRefs (h ++ [z]) zones.
Proof.
  unfold validRefs. intros Hv. eapply Forall_impl; [done|].
  intros r Hr. rewrite length_app. simpl in *. lia.
Qed.

Lemma validRefs_push (z : Zone) (h : list Zone) (zones : list ref) :
  validRefs h zones → validRefs (h ++ [z]) (zones ++ [length h]).
Proof.
  intros Hv. apply Forall_app. split; [by apply validRefs_grow|].
  apply Forall_singleton. rewrite length_app. simpl. lia.
Qed.

Lemma zoneStep_tidy (st : ZoneStore) (c : Cluster) :
  tidy st → tidy (zoneStep st c).
Proof.
  intros (Vc & Vs & Sc & Ss). unfold zoneStep.
  destruct (Qltb _ (moodRate stressed _) && _).
  { destruct (findZone _ _ (stressZones st)) as [r|] eqn:Ef;
      unfold tidy; simpl.
    - unfold validRefs. rewrite length_alter.
      split; [done|]. split; [done|].
      split; by apply separated_alter.
    - apply findZone_None_inv in Ef.
      split; [by apply validRefs_grow|]. split; [by apply validRefs_push|].
      split; [by apply separated_grow|]. by apply separated_push. }
  destruct (Qltb _ (moodRate calm _) && _); [|done].
  destruct (findZone _ _ (calmZones st)) as [r|] eqn:Ef;
    unfold tidy; simpl.
  - unfold validRefs. rewrite length_alter.
    split; [done|]. split; [done|].
    split; by apply separated_alter.
  - apply findZone_None_inv in Ef.
    split; [by apply validRefs_push|]. split; [by apply validRefs_grow|].
    split; [by apply separated_push|]. by apply separated_grow.
Qed.
End Separation.

(** X6. If in each input array the references are valid and the zones are
    pairwise at least 50 m apart (in array order), the same holds of the
    arrays returned: a call never produces two zones of one kind whose
    centers are less than 50 m apart. *)
Theorem updateZonesFromSession_keeps_zones_apart `{Host}
    (session : WalkSession) (h : list Zone)
    (existingCalmZones existingStressZones : list ref) :
  validRefs h existingCalmZones → validRefs h existingStressZones →
  separated h existingCalmZones → separated h existingStressZones →
  tidy (updateZonesFromSession session h existingCalmZones
          existingStressZones).
Proof.
  intros Vc Vs Sc Ss. unfold updateZonesFromSession.
  generalize (clusterNearbyEntries (moodEntries session) 30). intros cs.
  set (st0 := {| heap := h; calmZones := existingCalmZones;
                 stressZones := existingStressZones; minted := 0 |}).
  assert (Hst : tidy st0) by done.
  revert Hst. generalize st0. clear.
  induction cs as [|c cs IH]; intros st Hst; simpl; [done|].
  apply IH. by apply zoneStep_tidy.
Qed.

Lemma updateZonesFromSession_keeps_zones_apart_witness :
  stressZones (updateZonesFromSession (H:=flatHost) (session_ walkBeyond)
                 zonesApart [] [0%nat; 1%nat]) = [0%nat; 1%nat; 2%nat] ∧
  tidy (updateZonesFromSession (H:=flatHost) (session_ walkBeyond)
          zonesApart [] [0%nat; 1%nat]).
Proof.
  split; [vm_compute; reflexivity|].
  apply (updateZonesFromSession_keeps_zones_apart (H:=flatHost)).
  - constructor.
  - repeat constructor; simpl; lia.
  - intros i j ri rj zi zj Hij Hi. destruct i; discriminate Hi.
  - intros i j ri rj zi zj Hij Hi Hj Hzi Hzj.
    destruct i as [|[|i]]; [|destruct j as [|[|j]]; [lia|lia|discriminate Hj]
                            |discriminate Hi].
    destruct j as [|[|j]]; [lia| |discriminate Hj].
    simpl in Hi, Hj. simplify_eq. simpl in Hzi, Hzj. simplify_eq.
    apply Qle_bool_iff. vm_compute. reflexivity.
Defined.

(** ** The heuristics of the insight synthesizer *)

(** The two [reduce] calls of [analyzeTimePatterns] pick a period of
    lowest and a period of highest stress rate, the earliest one on a
    tie. *)
Lemma extremePeriods (r1 r2 r3 : Q) (p1 p2 p3 : PeriodRate) :
  period_stressRate p1 = r1 -> period_stressRate p2 = r2 -> period_stressRate p3 = r3 ->
  let best := fold_left (fun best current =>
        if Qltb (period_stressRate current) (period_stressRate best)
        then current else best) [p2; p3] p1 in
  let worst := fold_left (fun worst current =>
        if Qltb (period_stressRate worst) (period_stressRate current)
        then current else worst) [p2; p3] p1 in
  ((best = p1) ∨ (best = p2 ∧ r2 < r1) ∨ (best = p3 ∧ r3 < r1 ∧ r3 < r2)) ∧
  period_stressRate best <= r1 ∧ period_stressRate best <= r2 ∧ period_stressRate best <= r3 ∧
  r1 <= period_stressRate worst ∧ r2 <= period_stressRate worst ∧ r3 <= period_stressRate worst ∧
  (period_stressRate worst = r1 ∨ period_stressRate worst = r2 ∨ period_stressRate worst = r3).
Proof.
  intros E1 E2 E3. cbn [fold_left]. rewrite E1, E2.
  destruct (Qltb r2 r1) eqn:B1; [apply Qltb_lt in B1|apply Qltb_ge in B1];
  destruct (Qltb r1 r2) eqn:W1; [apply Qltb_lt in W1|apply Qltb_ge in W1| apply Qltb_lt in W1|apply Qltb_ge in W1];
  rewrite ?E1, ?E2, ?E3;
  destruct (Qltb r3 _) eqn:B2; [apply Qltb_lt in B2|apply Qltb_ge in B2| apply Qltb_lt in B2|apply Qltb_ge in B2|apply Qltb_lt in B2|apply Qltb_ge in B2|apply Qltb_lt in B2|apply Qltb_ge in B2];
  destruct (Qltb _ r3) eqn:W2;
  try (apply Qltb_lt in W2); try (apply Qltb_ge in W2);
  rewrite ?E1, ?E2, ?E3;
  (split; [first [ by left | right; left; split; [reflexivity|lra] | right; right; split; [reflexivity|split; lra] ] |]);
  (repeat (split; [lra|]));
  first [by left | by right; left | by right; right].
Qed.

(** X7. The time-of-day heuristic speaks exactly when the lowest bucket
    stress rate is below 0.2 and the highest is above 0.4; the period it
    names has the lowest stress rate of the three (an empty bucket counts
    as rate 0), the earliest such period in the order morning, afternoon,
    evening. *)
Theorem analyzeTimePatterns_spec `{Host}
    (morning afternoon evening : list MoodEntry) :
  match analyzeTimePatterns morning afternoon evening with
  | Some s =>
      ∃ name r,
        s = "Consider walking more in the " +:+ name
            +:+ " when stress levels are lower." ∧
        ((name = "morning" ∧ r = bucketRate morning)
         ∨ (name = "afternoon" ∧ r = bucketRate afternoon
            ∧ r < bucketRate morning)
         ∨ (name = "evening" ∧ r = bucketRate evening
            ∧ r < bucketRate morning ∧ r < bucketRate afternoon)) ∧
        r < 2 # 10 ∧
        r <= bucketRate morning ∧ r <= bucketRate afternoon
        ∧ r <= bucketRate evening ∧
        ((4 # 10) < bucketRate morning ∨ (4 # 10) < bucketRate afternoon
         ∨ (4 # 10) < bucketRate evening)
  | None =>
      ((2 # 10) <= bucketRate morning ∧ (2 # 10) <= bucketRate afternoon
       ∧ (2 # 10) <= bucketRate evening)
      ∨ (bucketRate morning <= 4 # 10 ∧ bucketRate afternoon <= 4 # 10
         ∧ bucketRate evening <= 4 # 10)
  end.
Proof.
  unfold analyzeTimePatterns.
  destruct (extremePeriods (bucketRate morning) (bucketRate afternoon)
              (bucketRate evening) (periodRate "morning" morning)
              (periodRate "afternoon" afternoon) (periodRate "evening" evening)
              eq_refl eq_refl eq_refl)
    as (Hb & B1 & B2 & B3 & W1 & W2 & W3 & Hw).
  cbv zeta.
  match goal with
  | |- context [if Qltb (period_stressRate ?b) _ && Qltb _ (period_stressRate ?w)
                then _ else _] =>
      set (best := b) in *; set (worst := w) in *
  end.
  destruct (Qltb (period_stressRate best) (2 # 10)
            && Qltb (4 # 10) (period_stressRate worst)) eqn:T.
  - apply andb_true_iff in T as [T1 T2].
    apply Qltb_lt in T1. apply Qltb_lt in T2.
    exists (period_name best), (period_stressRate best).
    split; [reflexivity|]. split.
    { destruct Hb as [->|[[-> ?]|(-> & ? & ?)]].
      - by left.
      - right. left. by repeat split.
      - right. right. by repeat split. }
    split; [done|]. split; [done|]. split; [done|]. split; [done|].
    destruct Hw as [E|[E|E]]; rewrite E in T2; tauto.
  - apply andb_false_iff in T as [T|T]; apply Qltb_ge in T.
    + left. repeat split; lra.
    + right. repeat split; lra.
Qed.

Lemma filter_all {A} (f : A → bool) (l : list A) :
  (∀ x, x ∈ l → f x = true) → List.filter f l = l.
Proof.
  intros Hall. apply forallb_filter_id, forallb_forall.
  intros x Hx. by apply Hall, list_elem_of_In.
Qed.

Lemma filter_none {A} (f : A → bool) (l : list A) :
  (∀ x, x ∈ l → f x = false) → List.filter f l = [].
Proof.
  induction l as [|a l IH]; intros Hall; [done|]. simpl.
  rewrite (Hall a) by (by left). apply IH. intros x Hx. apply Hall. by right.
Qed.

Lemma countMood_all (m : Mood) (es : list MoodEntry) :
  (∀ e, e ∈ es → mood e = m) → countMood m es = length es.
Proof.
  intros Hall. unfold countMood. rewrite filter_all; [done|].
  intros e He. rewrite (Hall e He). by destruct m.
Qed.

Lemma clusterNearbyEntries_nonempty `{Host}
    (entries : list MoodEntry) (radiusMeters : Q) :
  entries ≠ [] →
  clusterNearbyEntries entries radiusMeters ≠ [] ∧
  ∀ c, c ∈ clusterNearbyEntries entries radiusMeters → c_entries c ≠ [].
Proof.
  intros Hne. unfold clusterNearbyEntries.
  destruct (clusterStep_fold_inv radiusMeters entries entries ([], ∅))
    as ((HP & _ & _ & Hanch) & _ & Hall); [|done|].
  { unfold clusterInv. simpl. split; [done|]. split; [constructor|].
    split; [|constructor]. intros x Hx. by apply elem_of_nil in Hx. }
  split.
  - destruct entries as [|e es]; [done|].
    specialize (Hall e (list_elem_of_here _ _)). rewrite HP in Hall.
    intros E. rewrite E in Hall. simpl in Hall. set_solver.
  - rewrite Forall_forall in Hanch. intros c Hc E.
    destruct (Hanch c Hc) as (a & rest & Ha & _). congruence.
Qed.

(** X8. When a session of at least three entries has a single mood
    throughout, the location heuristic reports stress if that mood is
    stressed, calm if it is calm, and nothing if it is neutral, wherever
    the entries lie. *)
Theorem analyzeLocationPatterns_uniform `{Host}
    (entries : list MoodEntry) (m : Mood) :
  (3 ≤ length entries)%nat → (∀ e, e ∈ entries → mood e = m) →
  analyzeLocationPatterns entries
  = match m with
    | stressed =>
        Some "Some areas consistently triggered stress. Consider avoiding these locations."
    | calm =>
        Some "Some areas consistently provided calm moments. These might be good rest spots."
    | neutral => None
    end.
Proof.
  intros Hlen Hmood. unfold analyzeLocationPatterns.
  rewrite (proj2 (Nat.ltb_ge _ _) Hlen).
  destruct (clusterNearbyEntries_nonempty entries 50) as [Hcs Hmem].
  { intros E. rewrite E in Hlen. simpl in Hlen. lia. }
  set (cs := clusterNearbyEntries entries 50) in *.
  assert (Hrate : ∀ c m', c ∈ cs →
    Qltb (6 # 10) (moodRate m' (c_entries c)) = Mood_eqb m m').
  { intros c m' Hc.
    assert (Hall : ∀ e, e ∈ c_entries c → mood e = m).
    { intros e He. apply Hmood.
      by eapply clusterNearbyEntries_members_sub. }
    pose proof (Hmem c Hc) as Hne.
    destruct (Mood_eqb m m') eqn:E.
    - assert (m = m') as <- by (destruct m, m'; simpl in E; congruence).
      apply Qltb_lt. unfold moodRate. rewrite (countMood_all m _ Hall).
      destruct (c_entries c) as [|e es]; [done|].
      apply Qlt_shift_div_l; [unfold Qlt; simpl; lia|].
      unfold Qlt. simpl. lia.
    - apply Qltb_ge. unfold moodRate. rewrite countMood_none.
      + simpl. unfold Qdiv. rewrite Qmult_0_l. by unfold Qle.
      + intros e He. rewrite (Hall e He).
        destruct m, m'; simpl in E; congruence. }
  destruct m.
  - rewrite (filter_none _ cs) by (intros c Hc; by rewrite Hrate).
    rewrite (filter_all _ cs) by (intros c Hc; by rewrite Hrate).
    simpl. destruct cs; [done|]. done.
  - rewrite (filter_none _ cs) by (intros c Hc; by rewrite Hrate).
    rewrite (filter_none _ cs) by (intros c Hc; by rewrite Hrate).
    done.
  - rewrite (filter_all _ cs) by (intros c Hc; by rewrite Hrate).
    destruct cs; [done|]. done.
Qed.

Lemma analyzeLocationPatterns_uniform_witness :
  analyzeLocationPatterns (H:=flatHost)
    [entry_ "a" 0 0 calm 1; entry_ "b" 1 1 calm 2; entry_ "c" 2 2 calm 3]
  = Some "Some areas consistently provided calm moments. These might be good rest spots.".
Proof.
  apply (analyzeLocationPatterns_uniform (H:=flatHost)
           [entry_ "a" 0 0 calm 1; entry_ "b" 1 1 calm 2; entry_ "c" 2 2 calm 3]
           calm).
  - simpl. lia.
  - intros e He.
    repeat (apply elem_of_cons in He as [->|He]; [reflexivity|]).
    by apply elem_of_nil in He.
Defined.

(** ** Counting moods while walking *)

Lemma countMood_snoc (m : Mood) (es : list MoodEntry) (e : MoodEntry) :
  Z.of_nat (countMood m (es ++ [e]))
  = (Z.of_nat (countMood m es) + if Mood_eqb (mood e) m then 1 else 0)%Z.
Proof.
  unfold countMood. rewrite List.filter_app, length_app. simpl.
  destruct (Mood_eqb (mood e) m); simpl; lia.
Qed.

Lemma countMood_total (es : list MoodEntry) :
  (countMood stressed es + countMood calm es + countMood neutral es
   = length es)%nat.
Proof.
  unfold countMood. induction es as [|e es IH]; [done|]. simpl.
  destruct (mood e); simpl; lia.
Qed.

(** X9. The counters of the running session always agree with its entries:
    a session just started has consistent counters, logging a mood keeps
    them consistent, and consistent counters add up to the number of
    entries. *)
Theorem logMood_keeps_counts :
  (∀ appState sessionId now s,
     currentSession (startWalk appState sessionId now true true) = Some s →
     countsConsistent s) ∧
  (∀ appState mood0 uuid now s s',
     currentSession appState = Some s → countsConsistent s →
     currentSession (logMood appState mood0 uuid now) = Some s' →
     countsConsistent s'
     ∧ (length (moodEntries s) ≤ length (moodEntries s'))%nat) ∧
  (∀ s, countsConsistent s →
     (stressCount s + calmCount s + neutralCount s
      = Z.of_nat (length (moodEntries s)))%Z).
Proof.
  split; [|split].
  - intros appState sessionId now s Hs. simpl in Hs. by simplify_eq.
  - intros appState mood0 uuid now s s' Hs (Cs & Cc & Cn) Hs'.
    unfold logMood in Hs'. rewrite Hs in Hs'.
    destruct (currentLocation appState) as [loc|].
    + simpl in Hs'. simplify_eq. unfold countsConsistent. simpl.
      rewrite !countMood_snoc, Cs, Cc, Cn, length_app. simpl.
      repeat split; try done. lia.
    + rewrite Hs in Hs'. simplify_eq. done.
  - intros s (Cs & Cc & Cn). rewrite Cs, Cc, Cn.
    pose proof (countMood_total (moodEntries s)). lia.
Qed.

Lemma logMood_keeps_counts_witness :
  ∃ s', currentSession
          (logMood
             {| currentSession := Some (newSession "w" 0%Z);
                isTracking := true; currentLocation := Some (at_ 0 0);
                sessions := []; app_calmZones := []; app_stressZones := [];
                isRecordingAudio := true; currentNoiseLevel := 40 |}
             calm "e1" 5%Z) = Some s'
        ∧ countsConsistent s'.
Proof.
  eexists. split; [reflexivity|].
  eapply (proj1 (proj2 logMood_keeps_counts)
            {| currentSession := Some (newSession "w" 0%Z);
               isTracking := true; currentLocation := Some (at_ 0 0);
               sessions := []; app_calmZones := []; app_stressZones := [];
               isRecordingAudio := true; currentNoiseLevel := 40 |}
            calm "e1" 5%Z (newSession "w" 0%Z)).
  - reflexivity.
  - by repeat split.
  - reflexivity.
Defined.

(** ** Suggestions, labels and difficulty *)

(** X10. A suggestion's score lies in [0,1].  Its waypoint list is empty
    exactly when no calm zone lies less than 200 m from both ends;
    otherwise it holds the center of one such zone whose calm score no
    other such zone exceeds.  Without such a calm zone the score is at
    most 0.5 and the view describes it as Moderate or Stressful. *)
Theorem generateRouteSuggestion_waypoint `{Host}
    (now : Z) (start end_ : Location) (calmZones0 stressZones0 : list Zone) :
  (0 <= sug_calmScore
          (generateRouteSuggestion now start end_ calmZones0 stressZones0)
   ∧ sug_calmScore
       (generateRouteSuggestion now start end_ calmZones0 stressZones0) <= 1) ∧
  (List.filter (nearBoth start end_) calmZones0 = [] →
     sug_waypoints
       (generateRouteSuggestion now start end_ calmZones0 stressZones0) = []
     ∧ sug_calmScore
         (generateRouteSuggestion now start end_ calmZones0 stressZones0)
       <= 5 # 10
     ∧ getCalmScoreDescription
         (sug_calmScore
            (generateRouteSuggestion now start end_ calmZones0 stressZones0))
       ∈ ["Moderate"; "Stressful"]) ∧
  (List.filter (nearBoth start end_) calmZones0 ≠ [] →
     ∃ z, z ∈ calmZones0 ∧ nearBoth start end_ z = true ∧
          sug_waypoints
            (generateRouteSuggestion now start end_ calmZones0 stressZones0)
          = [center z] ∧
          ∀ z', z' ∈ calmZones0 → nearBoth start end_ z' = true →
                score z' <= score z).
Proof.
  unfold generateRouteSuggestion.
  destruct (List.filter (nearBoth start end_) calmZones0) as [|z zs] eqn:E;
    (split; [apply clamp01_range|]).
  - split; [|done]. intros _. simpl. split; [done|].
    assert (Hle : clamp01 ((5 # 10)
              - inject_Z (Z.of_nat (length
                  (List.filter (nearBoth start end_) stressZones0))) * (2 # 10))
            <= 5 # 10).
    { unfold clamp01. apply Q.max_lub; [by unfold Qle|].
      eapply Qle_trans; [apply Q.le_min_r|].
      assert (0 <= inject_Z (Z.of_nat (length
                (List.filter (nearBoth start end_) stressZones0)))).
      { change 0 with (inject_Z 0). rewrite <- Zle_Qle. lia. }
      lra. }
    split; [exact Hle|].
    change (Qmax 0 (Qmin 1 ?x)) with (clamp01 x).
    unfold getCalmScoreDescription.
    destruct (Qle_bool (8 # 10) _) eqn:C1.
    { apply Qle_bool_iff in C1. lra. }
    destruct (Qle_bool (6 # 10) _) eqn:C2.
    { apply Qle_bool_iff in C2. lra. }
    destruct (Qle_bool (4 # 10) _); set_solver.
  - split; [done|]. intros _.
    destruct (fold_calmer_spec zs z) as (H1 & H2 & H3).
    assert (Hin : ∀ x, x ∈ z :: zs →
              x ∈ calmZones0 ∧ nearBoth start end_ x = true).
    { intros x Hx. rewrite <- E in Hx.
      apply list_elem_of_In, filter_In in Hx as [Hx ?].
      split; [by apply list_elem_of_In|done]. }
    exists (fold_left calmer zs z).
    assert (Hbest : fold_left calmer zs z ∈ z :: zs).
    { destruct H1 as [->|H1]; [by left|by right]. }
    destruct (Hin _ Hbest) as [? ?].
    split; [done|]. split; [done|]. split; [done|].
    intros z' Hz' Hn.
    assert (z' ∈ z :: zs) as Hz.
    { rewrite <- E. apply list_elem_of_In, filter_In.
      split; [by apply list_elem_of_In|done]. }
    apply elem_of_cons in Hz as [->|Hz]; [done|by apply H3].
Qed.

Lemma generateRouteSuggestion_waypoint_witness :
  sug_waypoints
    (generateRouteSuggestion (H:=flatHost) 5 (at_ 0 0) (at_ (1 # 1000) 0)
       [] [zone_ "z" 0 0 30 (1 # 2) 3 7]) = [].
Proof.
  exact (proj1 (proj1 (proj2 (generateRouteSuggestion_waypoint (H:=flatHost)
    5 (at_ 0 0) (at_ (1 # 1000) 0) [] [zone_ "z" 0 0 30 (1 # 2) 3 7]))
    eq_refl)).
Defined.

(** X11. [getDirection] always answers with one of the eight compass
    names; the closing "forward" is never reached. *)
Theorem getDirection_compass `{Host} (start end_ : RoutePoint) :
  getDirection start end_
  ∈ ["north"; "northeast"; "east"; "southeast"; "south"; "southwest";
     "west"; "northwest"].
Proof.
  unfold getDirection. cbv zeta.
  generalize (Math_atan2 (pt_longitude end_ - pt_longitude start)
                (pt_latitude end_ - pt_latitude start) * 180 / Math_PI).
  intros a.
  destruct (Qle_bool (- (225 # 10)) a && Qltb a (225 # 10)) eqn:C1;
    [set_solver|].
  destruct (Qle_bool (225 # 10) a && Qltb a (675 # 10)) eqn:C2;
    [set_solver|].
  destruct (Qle_bool (675 # 10) a && Qltb a (1125 # 10)) eqn:C3;
    [set_solver|].
  destruct (Qle_bool (1125 # 10) a && Qltb a (1575 # 10)) eqn:C4;
    [set_solver|].
  destruct (Qle_bool (1575 # 10) a || Qltb a (- (1575 # 10))) eqn:C5;
    [set_solver|].
  destruct (Qle_bool (- (1575 # 10)) a && Qltb a (- (1125 # 10))) eqn:C6;
    [set_solver|].
  destruct (Qle_bool (- (1125 # 10)) a && Qltb a (- (675 # 10))) eqn:C7;
    [set_solver|].
  destruct (Qle_bool (- (675 # 10)) a && Qltb a (- (225 # 10))) eqn:C8;
    [set_solver|].
  exfalso.
  apply orb_false_iff in C5 as [C5a C5b].
  assert (a < 1575 # 10).
  { apply Qnot_le_lt. intros Hle. apply Qle_bool_iff in Hle. congruence. }
  apply Qltb_ge in C5b.
  assert (Hcase : ∀ lo hi, Qle_bool lo a && Qltb a hi = false →
            a < lo ∨ hi <= a).
  { intros lo hi Hb. apply andb_false_iff in Hb as [Hb|Hb].
    - left. apply Qnot_le_lt. intros Hle. apply Qle_bool_iff in Hle.
      congruence.
    - right. by apply Qltb_ge. }
  apply Hcase in C1, C2, C3, C4, C6, C7, C8. lra.
Qed.

(** X12. With no calm zone in the store a route scores at most 0.5, so a
    fallback route is then never rated easy. *)
Theorem no_calm_zone_never_easy `{Host}
    (now : Z) (random : nat → Q) (start end_ : Location)
    (waypoints : list RoutePoint) (stressZones0 : list Zone) :
  calmScore (analyzeRouteOptimization waypoints [] stressZones0) <= 5 # 10 ∧
  getRouteDifficulty (createFallbackRoute now random start end_ [] stressZones0)
  ≠ easy.
Proof.
  assert (Hle : ∀ ws,
    calmScore (analyzeRouteOptimization ws [] stressZones0) <= 5 # 10).
  { intros ws. rewrite analyzeRouteOptimization_hits. unfold clamp01.
    apply Q.max_lub; [by unfold Qle|].
    eapply Qle_trans; [apply Q.le_min_r|].
    apply (Qle_trans _ (1 # 2)); [|by unfold Qle].
    apply applyHit_fold_stress_le_half; [by apply routeHits_no_calm|].
    by unfold Qle. }
  split; [apply Hle|].
  unfold getRouteDifficulty. cbv zeta.
  change (route_calmScore
            (createFallbackRoute now random start end_ [] stressZones0))
    with (calmScore (analyzeRouteOptimization
            (generateIntermediateWaypoints random start end_) []
            stressZones0)).
  specialize (Hle (generateIntermediateWaypoints random start end_)).
  destruct (Qltb (7 # 10) _) eqn:C.
  { apply Qltb_lt in C. lra. }
  rewrite andb_false_r.
  destruct (_ && _); done.
Qed.

(** X13. Difficulty is monotone: a route that is no longer and no less
    calm than another is rated no harder; and a route of 2500 m or more,
    in particular one too long to be walkable, is rated challenging. *)
Theorem getRouteDifficulty_monotone (r1 r2 : OptimizedRoute) :
  (route_totalDistance r1 <= route_totalDistance r2 →
   route_calmScore r2 <= route_calmScore r1 →
   (difficultyRank (getRouteDifficulty r1)
    ≤ difficultyRank (getRouteDifficulty r2))%nat) ∧
  (2500 <= route_totalDistance r1 → getRouteDifficulty r1 = challenging) ∧
  (5000 <= route_totalDistance r1 →
   isWalkableRoute r1 = false ∧ getRouteDifficulty r1 = challenging).
Proof.
  assert (Hlong : ∀ r, 2500 <= route_totalDistance r →
            getRouteDifficulty r = challenging).
  { intros r Hd. unfold getRouteDifficulty. cbv zeta.
    assert (Qltb (route_totalDistance r) 1000 = false) as ->
      by (apply Qltb_ge; lra).
    assert (Qltb (route_totalDistance r) 2500 = false) as ->
      by (apply Qltb_ge; lra).
    done. }
  split; [|split; [apply Hlong|]].
  - intros Hd Hs. unfold getRouteDifficulty. cbv zeta.
    destruct (Qltb (route_totalDistance r2) 1000) eqn:D2a;
    destruct (Qltb (7 # 10) (route_calmScore r2)) eqn:S2a;
    destruct (Qltb (route_totalDistance r2) 2500) eqn:D2b;
    destruct (Qltb (4 # 10) (route_calmScore r2)) eqn:S2b;
    destruct (Qltb (route_totalDistance r1) 1000) eqn:D1a;
    destruct (Qltb (7 # 10) (route_calmScore r1)) eqn:S1a;
    destruct (Qltb (route_totalDistance r1) 2500) eqn:D1b;
    destruct (Qltb (4 # 10) (route_calmScore r1)) eqn:S1b;
    simpl; try lia;
    rewrite ?Qltb_lt, ?Qltb_ge in *; exfalso; lra.
  - intros Hd. split; [|apply Hlong; lra].
    unfold isWalkableRoute.
    assert (Qltb (route_totalDistance r1) 5000 = false) as ->
      by (apply Qltb_ge; lra).
    done.
Qed.

Lemma getRouteDifficulty_monotone_witness :
  (difficultyRank
     (getRouteDifficulty
        (createFallbackRoute (H:=flatHost) 0 (fun _ => 1 # 2)
           (at_ 0 0) (at_ (1 # 1000) 0) [] []))
   ≤ difficultyRank
       (getRouteDifficulty
          (createFallbackRoute (H:=flatHost) 0 (fun _ => 1 # 2)
             (at_ 0 0) (at_ (1 # 100) 0) [] [])))%nat.
Proof.
  apply (proj1 (getRouteDifficulty_monotone _ _)).
  - vm_compute. intros E. discriminate E.
  - vm_compute. intros E. discriminate E.
Defined.

(** X14. The noise labels agree with each other and with the stress test:
    a level the service calls stressful (above 60) is labelled Very Loud or
    Extremely Loud and classed loud; the class is loud exactly for those
    two labels and quiet exactly for Very Quiet and Quiet. *)
Theorem noise_labels_agree (noiseLevel0 : Q) :
  (isStressfulNoise noiseLevel0 = true →
   getNoiseDescription noiseLevel0 ∈ ["Very Loud"; "Extremely Loud"]) ∧
  (getNoiseClass noiseLevel0 = "loud" ↔
   getNoiseDescription noiseLevel0 ∈ ["Very Loud"; "Extremely Loud"]) ∧
  (getNoiseClass noiseLevel0 = "quiet" ↔
   getNoiseDescription noiseLevel0 ∈ ["Very Quiet"; "Quiet"]) ∧
  (getNoiseDescription noiseLevel0 ∈ ["Very Quiet"; "Quiet"; "Moderate"; "Loud"]
   → isStressfulNoise noiseLevel0 = false).
Proof.
  unfold isStressfulNoise, getNoiseClass, getNoiseDescription.
  destruct (Qltb noiseLevel0 30) eqn:C30;
  destruct (Qltb noiseLevel0 40) eqn:C40;
  destruct (Qltb noiseLevel0 50) eqn:C50;
  destruct (Qltb noiseLevel0 60) eqn:C60;
  destruct (Qltb noiseLevel0 70) eqn:C70;
  destruct (Qltb 60 noiseLevel0) eqn:S;
  rewrite ?Qltb_lt, ?Qltb_ge in *;
  try (exfalso; lra);
  (split; [|split; [|split]]); try split; intros Hx;
  try done; try (apply list_elem_of_In; simpl; tauto);
  try (repeat (apply elem_of_cons in Hx as [Hx|Hx]; [discriminate Hx|]);
       by apply elem_of_nil in Hx).
Qed.

Lemma noise_labels_agree_witness :
  isStressfulNoise 65 = true ∧
  getNoiseDescription 65 ∈ ["Very Loud"; "Extremely Loud"].
Proof.
  split; [reflexivity|].
  exact (proj1 (noise_labels_agree 65) eq_refl).
Defined.

(** X15. The colour and the wording shown for a calm score always name
    the same band. *)
Theorem calm_score_labels_agree (score0 : Q) :
  (getCalmScoreColor score0, getCalmScoreDescription score0)
  ∈ [("#4ade80", "Very Calm"); ("#84cc16", "Calm");
     ("#fbbf24", "Moderate"); ("#ef4444", "Stressful")].
Proof.
  unfold getCalmScoreColor, getCalmScoreDescription.
  destruct (Qle_bool (8 # 10) score0); [set_solver|].
  destruct (Qle_bool (6 # 10) score0); [set_solver|].
  destruct (Qle_bool (4 # 10) score0); set_solver.
Qed.

(** ** Shape of the fallback route *)

Section FallbackShape.
Context `{Host}.




End FallbackShape.



(** ** Statistics of the history view *)

Lemma Math_round_bounds (x : Q) :
  inject_Z (Math_round x) <= x + (1 # 2) ∧ x - (1 # 2) < inject_Z (Math_round x).
Proof.
  unfold Math_round.
  pose proof (Qfloor_le (x + (1 # 2))) as H1.
  pose proof (Qlt_floor (x + (1 # 2))) as H2.
  rewrite inject_Z_plus in H2. change (inject_Z 1) with 1 in H2.
  split; lra.
Qed.

Lemma Math_round_range (x : Q) (lo hi : Z) :
  inject_Z lo <= x → x <= inject_Z hi → (lo ≤ Math_round x ≤ hi)%Z.
Proof.
  intros Hlo Hhi. destruct (Math_round_bounds x) as [H1 H2].
  split.
  - assert (inject_Z lo - 1 < inject_Z (Math_round x)) as Hlt by lra.
    assert (inject_Z (lo - 1) < inject_Z (Math_round x)) as Hlt'.
    { unfold Z.sub. rewrite inject_Z_plus, inject_Z_opp.
      change (inject_Z 1) with 1. lra. }
    rewrite <- Zlt_Qlt in Hlt'. lia.
  - assert (inject_Z (Math_round x) < inject_Z (hi + 1)) as Hlt.
    { rewrite inject_Z_plus. change (inject_Z 1) with 1. lra. }
    rewrite <- Zlt_Qlt in Hlt. lia.
Qed.

(** X17. For a session without entries the three percentages are 0.  For
    a session whose counters agree with its entries each percentage lies
    between 0 and 100 and, each being rounded on its own, the three add up
    to 99, 100 or 101. *)
Theorem getSessionStats_percentages (session : WalkSession) :
  (moodEntries session = [] →
   getSessionStats session
   = {| stat_calm := 0; stat_neutral := 0; stat_stressed := 0 |}) ∧
  (moodEntries session ≠ [] → countsConsistent session →
   (0 ≤ stat_calm (getSessionStats session) ≤ 100)%Z ∧
   (0 ≤ stat_neutral (getSessionStats session) ≤ 100)%Z ∧
   (0 ≤ stat_stressed (getSessionStats session) ≤ 100)%Z ∧
   (99 ≤ stat_calm (getSessionStats session)
         + stat_neutral (getSessionStats session)
         + stat_stressed (getSessionStats session) ≤ 101)%Z).
Proof.
  split.
  { intros E. unfold getSessionStats. by rewrite E. }
  intros Hne (Cs & Cc & Cn). unfold getSessionStats.
  destruct (moodEntries session) as [|e es] eqn:E; [done|].
  rewrite <- E in *. clear Hne.
  assert (Hlen : (0 < length (moodEntries session))%nat)
    by (rewrite E; simpl; lia).
  rewrite (proj2 (Nat.eqb_neq _ _)) by lia. cbv zeta. simpl.
  pose proof (countMood_total (moodEntries session)) as Htot.
  pose proof (countMood_le stressed (moodEntries session)) as Ls.
  pose proof (countMood_le calm (moodEntries session)) as Lc.
  pose proof (countMood_le neutral (moodEntries session)) as Ln.
  rewrite Cs, Cc, Cn.
  set (t := inject_Z (Z.of_nat (length (moodEntries session)))).
  set (s := inject_Z (Z.of_nat (countMood stressed (moodEntries session)))).
  set (c := inject_Z (Z.of_nat (countMood calm (moodEntries session)))).
  set (n := inject_Z (Z.of_nat (countMood neutral (moodEntries session)))).
  assert (Ht : 0 < t).
  { unfold t. change 0 with (inject_Z 0). rewrite <- Zlt_Qlt. lia. }
  assert (Hsum : s + c + n == t).
  { unfold s, c, n, t. rewrite <- !inject_Z_plus. apply inject_Z_injective.
    lia. }
  assert (Hpart : ∀ k : nat, (k ≤ length (moodEntries session))%nat →
            0 <= inject_Z (Z.of_nat k) / t * 100
            ∧ inject_Z (Z.of_nat k) / t * 100 <= 100).
  { intros k Hk.
    assert (0 <= inject_Z (Z.of_nat k)).
    { change 0 with (inject_Z 0). rewrite <- Zle_Qle. lia. }
    assert (inject_Z (Z.of_nat k) <= t).
    { unfold t. rewrite <- Zle_Qle. lia. }
    assert (0 <= inject_Z (Z.of_nat k) / t)
      by (apply Qle_shift_div_l; [done|lra]).
    assert (inject_Z (Z.of_nat k) / t <= 1)
      by (apply Qle_shift_div_r; [done|lra]).
    split; lra. }
  destruct (Hpart _ Ls) as [Hs0 Hs1]. destruct (Hpart _ Lc) as [Hc0 Hc1].
  destruct (Hpart _ Ln) as [Hn0 Hn1]. fold s c n in Hs0, Hs1, Hc0, Hc1, Hn0, Hn1.
  split; [apply Math_round_range; done|].
  split; [apply Math_round_range; done|].
  split; [apply Math_round_range; done|].
  assert (Hhundred : c / t * 100 + n / t * 100 + s / t * 100 == 100).
  { assert (E' : c / t * 100 + n / t * 100 + s / t * 100
                 == (s + c + n) / t * 100) by (field; lra).
    rewrite E', Hsum. field. lra. }
  destruct (Math_round_bounds (c / t * 100)) as [A1 A2].
  destruct (Math_round_bounds (n / t * 100)) as [B1 B2].
  destruct (Math_round_bounds (s / t * 100)) as [D1 D2].
  set (rc := Math_round (c / t * 100)) in *.
  set (rn := Math_round (n / t * 100)) in *.
  set (rs := Math_round (s / t * 100)) in *.
  assert (Hq : inject_Z 98 < inject_Z (rc + rn + rs)
               ∧ inject_Z (rc + rn + rs) < inject_Z 102).
  { rewrite !inject_Z_plus.
    change (inject_Z 98) with 98. change (inject_Z 102) with 102.
    split; lra. }
  destruct Hq as [Q1 Q2]. rewrite <- Zlt_Qlt in Q1, Q2. lia.
Qed.

Lemma getSessionStats_percentages_witness :
  (99 ≤ stat_calm (getSessionStats (session_ walk3))
        + stat_neutral (getSessionStats (session_ walk3))
        + stat_stressed (getSessionStats (session_ walk3)) ≤ 101)%Z.
Proof.
  apply (proj2 (getSessionStats_percentages (session_ walk3))).
  - discriminate.
  - by repeat split.
Defined.

Lemma Qfloor_div_pos (a : Z) (p : positive) :
  Qfloor (inject_Z a / inject_Z (Zpos p)) = (a / Zpos p)%Z.
Proof.
  unfold Qdiv, Qinv, inject_Z, Qmult, Qfloor. simpl.
  by rewrite Z.mul_1_r.
Qed.

(** X18. A session whose end time is missing, or is 0, is shown as
    "In Progress".  Otherwise, when the walk did not end before it
    started, the text shows whole minutes and the whole seconds left over:
    the seconds lie between 0 and 59 and the two together are within one
    second below the elapsed time. *)
Theorem getSessionDuration_spec (session : WalkSession) :
  (endTimeMissing session = true → getSessionDuration session = "In Progress") ∧
  (∀ t, endTime session = Some t → t ≠ 0%Z → (startTime session ≤ t)%Z →
     ∃ m s,
       getSessionDuration session = showZ m +:+ "m " +:+ showZ s +:+ "s" ∧
       (0 ≤ m)%Z ∧ (0 ≤ s < 60)%Z ∧
       (60000 * m + 1000 * s ≤ t - startTime session
        < 60000 * m + 1000 * s + 1000)%Z).
Proof.
  unfold getSessionDuration, endTimeMissing. split.
  - destruct (endTime session) as [t|]; [|done]. by intros ->.
  - intros t -> Hne Hle. rewrite (proj2 (Z.eqb_neq _ _) Hne). cbv zeta.
    exists (durationMinutes (t - startTime session)),
           (durationSeconds (t - startTime session)).
    split; [done|]. unfold durationMinutes, durationSeconds, Math_floor.
    change 60000 with (inject_Z 60000). change 1000 with (inject_Z 1000).
    rewrite !Qfloor_div_pos.
    set (d := (t - startTime session)%Z). assert (0 ≤ d)%Z by lia.
    rewrite Z.rem_mod_nonneg by lia.
    pose proof (Z.div_mod d 60000 ltac:(lia)) as Hdiv.
    pose proof (Z.mod_pos_bound d 60000 ltac:(lia)) as Hmod.
    pose proof (Z.div_mod (d mod 60000) 1000 ltac:(lia)) as Hdiv2.
    pose proof (Z.mod_pos_bound (d mod 60000) 1000 ltac:(lia)) as Hmod2.
    assert (0 ≤ d / 60000)%Z by (apply Z.div_pos; lia).
    assert (0 ≤ d mod 60000 / 1000 < 60)%Z.
    { split; [apply Z.div_pos; lia|]. apply Z.div_lt_upper_bound; lia. }
    split; [done|]. split; [done|]. lia.
Qed.

Lemma getSessionDuration_spec_witness :
  ∃ m s,
    getSessionDuration
      {| session_id := "w"; startTime := 1000; endTime := Some 126500%Z;
         moodEntries := []; stressCount := 0; calmCount := 0;
         neutralCount := 0 |}
    = showZ m +:+ "m " +:+ showZ s +:+ "s" ∧ (0 ≤ s < 60)%Z.
Proof.
  destruct (proj2 (getSessionDuration_spec
              {| session_id := "w"; startTime := 1000;
                 endTime := Some 126500%Z;
                 moodEntries := []; stressCount := 0; calmCount := 0;
                 neutralCount := 0 |}) 126500%Z eq_refl)
    as (m & s & E & _ & Hs & _); [lia|simpl; lia|].
  exists m, s. split; [exact E|exact Hs].
Defined.

(** X19. With five sessions or fewer the trend is always stable, and with
    ten or more only the last ten sessions count: whatever precedes them
    does not change the trend. *)
Theorem getOverallTrend_window (older recent : list WalkSession) :
  ((length recent ≤ 5)%nat → getOverallTrend recent = stable) ∧
  (length recent = 10%nat →
   getOverallTrend (older ++ recent) = getOverallTrend recent).
Proof.
  split.
  - intros Hlen. unfold getOverallTrend.
    destruct (length recent <? 2)%nat; [done|]. cbv zeta.
    unfold slicePrev5.
    replace (length recent - 5 - (length recent - 10))%nat with 0%nat by lia.
    done.
  - intros Hlen. unfold getOverallTrend.
    rewrite length_app, Hlen.
    rewrite (proj2 (Nat.ltb_ge _ _)) by lia.
    rewrite (proj2 (Nat.ltb_ge 10 2)) by lia. cbv zeta.
    assert (E1 : sliceLast5 (older ++ recent) = sliceLast5 recent).
    { unfold sliceLast5. rewrite length_app, Hlen.
      rewrite drop_app_ge by lia. f_equal. lia. }
    assert (E2 : slicePrev5 (older ++ recent) = slicePrev5 recent).
    { unfold slicePrev5. rewrite length_app, Hlen.
      rewrite drop_app_ge by lia.
      replace (length older + 10 - 10 - length older)%nat with 0%nat by lia.
      simpl. f_equal. lia. }
    by rewrite E1, E2.
Qed.

Lemma getOverallTrend_window_witness :
  getOverallTrend [session_ walk3; session_ []; session_ walk3] = stable.
Proof.
  apply (proj1 (getOverallTrend_window []
                  [session_ walk3; session_ []; session_ walk3])).
  simpl. lia.
Defined.

(** ** Storage *)

Section StorageFacts.
Context `{JS : Json WalkSession} `{JZ : Json Zone} `{LS : LocalStorage}.

Lemma loadList_saveList {A} `{Json A} (key : string) (xs : list A)
    (store : gmap string string) :
  setItemThrows key (stringify xs) store = false →
  parse (stringify xs) = Some (anArray xs) → stringify xs ≠ "" →
  loadList key (saveList key xs store) = anArray xs.
Proof.
  intros Hok Hrt Hne. unfold loadList, saveList. cbv zeta. rewrite Hok.
  rewrite lookup_insert_eq.
  rewrite (proj2 (String.eqb_neq _ _) Hne). by rewrite Hrt.
Qed.

Lemma saveList_refused {A} `{Json A} (key : string) (xs : list A)
    (store : gmap string string) :
  setItemThrows key (stringify xs) store = true →
  saveList key xs store = store.
Proof. intros Hno. unfold saveList. cbv zeta. by rewrite Hno. Qed.

Lemma loadList_saveList_ne {A B} `{Json A} `{Json B}
    (key key' : string) (xs : list A) (store : gmap string string) :
  key ≠ key' →
  loadList (A:=B) key' (saveList key xs store) = loadList (A:=B) key' store.
Proof.
  intros Hne. unfold loadList, saveList. cbv zeta.
  destruct (setItemThrows key (stringify xs) store); [done|].
  by rewrite lookup_insert_ne.
Qed.

Lemma findIndexById_None (sid : string) (xs : list WalkSession) :
  findIndexById sid xs = None ↔ ∀ x, x ∈ xs → session_id x ≠ sid.
Proof.
  induction xs as [|x xs IH]; simpl.
  - split; [|done]. intros _ x Hx. by apply elem_of_nil in Hx.
  - destruct (String.eqb (session_id x) sid) eqn:E.
    + apply String.eqb_eq in E. split; [done|]. intros Hall.
      exfalso. by apply (Hall x); [left|].
    + apply String.eqb_neq in E.
      destruct (findIndexById sid xs) as [i|]; simpl.
      * split; [done|]. intros Hall. exfalso.
        assert (Some i = None) as Hcontra; [|done].
        apply IH. intros y Hy. apply Hall. by right.
      * split; [|done]. intros _ y Hy.
        apply elem_of_cons in Hy as [->|Hy]; [done|].
        by apply (proj1 IH).
Qed.

Lemma findIndexById_Some (sid : string) (xs : list WalkSession) (i : nat) :
  findIndexById sid xs = Some i →
  (∃ x, xs !! i = Some x ∧ session_id x = sid) ∧
  ∀ j y, (j < i)%nat → xs !! j = Some y → session_id y ≠ sid.
Proof.
  revert i. induction xs as [|x xs IH]; intros i Hf; [done|].
  simpl in Hf. destruct (String.eqb (session_id x) sid) eqn:E.
  - simplify_eq. apply String.eqb_eq in E. split; [by exists x|].
    intros j y Hj. lia.
  - apply String.eqb_neq in E.
    destruct (findIndexById sid xs) as [k|] eqn:Ek; [|done].
    simpl in Hf. simplify_eq.
    destruct (IH k eq_refl) as [Hx Hfirst]. split; [done|].
    intros j y Hj Hy. destruct j as [|j]; simpl in Hy.
    + by simplify_eq.
    + apply (Hfirst j y); [lia|done].
Qed.
End StorageFacts.

(** X20. What is saved is what is loaded, if the write goes through: for
    sessions, calm zones and stress zones alike, loading after saving
    returns the saved list, provided [setItem] does not throw, the host's
    JSON codec reads back that list and its text is not empty.  If
    [setItem] throws, saving leaves the storage as it was.  A key that
    was never written, and a stored text that does not parse, both load
    as the empty list; a stored text that parses to something else than
    an array loads as that value. *)
Theorem storage_round_trip
    `{JS : Json WalkSession} `{JZ : Json Zone} `{LS : LocalStorage}
    (store : gmap string string) (xs : list WalkSession) (zs : list Zone) :
  (setItemThrows SESSIONS (stringify xs) store = false →
   parse (stringify xs) = Some (anArray xs) → stringify xs ≠ "" →
   loadSessions (saveSessions xs store) = anArray xs) ∧
  (setItemThrows CALM_ZONES (stringify zs) store = false →
   parse (stringify zs) = Some (anArray zs) → stringify zs ≠ "" →
   loadCalmZones (saveCalmZones zs store) = anArray zs) ∧
  (setItemThrows STRESS_ZONES (stringify zs) store = false →
   parse (stringify zs) = Some (anArray zs) → stringify zs ≠ "" →
   loadStressZones (saveStressZones zs store) = anArray zs) ∧
  (setItemThrows SESSIONS (stringify xs) store = true →
   saveSessions xs store = store) ∧
  (setItemThrows CALM_ZONES (stringify zs) store = true →
   saveCalmZones zs store = store) ∧
  (setItemThrows STRESS_ZONES (stringify zs) store = true →
   saveStressZones zs store = store) ∧
  (store !! SESSIONS = None → loadSessions store = anArray []) ∧
  (store !! CALM_ZONES = None → loadCalmZones store = anArray []) ∧
  (store !! STRESS_ZONES = None → loadStressZones store = anArray []) ∧
  (∀ data, store !! SESSIONS = Some data →
     parse (A:=WalkSession) data = None → loadSessions store = anArray []) ∧
  (∀ data, store !! SESSIONS = Some data → data ≠ "" →
     parse (A:=WalkSession) data = Some notAnArray →
     loadSessions store = notAnArray).
Proof.
  split; [apply loadList_saveList|].
  split; [apply loadList_saveList|].
  split; [apply loadList_saveList|].
  split; [apply saveList_refused|].
  split; [apply saveList_refused|].
  split; [apply saveList_refused|].
  unfold loadSessions, loadCalmZones, loadStressZones, loadList.
  split; [by intros ->|]. split; [by intros ->|]. split; [by intros ->|].
  split.
  - intros data -> ->. by destruct (String.eqb data "").
  - intros data -> Hne ->. by rewrite (proj2 (String.eqb_neq _ _) Hne).
Qed.

Lemma storage_round_trip_witness :
  loadSessions (saveSessions [newSession "a" 1; newSession "b" 22] ∅)
  = anArray [newSession "a" 1; newSession "b" 22] ∧
  saveSessions
    [newSession "a" 1; newSession "b" 22; newSession "c" 333;
     newSession "d" 4444; newSession "e" 55555; newSession "f" 666666;
     newSession "g" 7777777] ∅ = ∅.
Proof.
  split.
  - apply (proj1 (storage_round_trip (JS:=sessionJson) (JZ:=zoneJson)
                    (LS:=smallStorage) ∅
                    [newSession "a" 1; newSession "b" 22] []));
      [reflexivity|reflexivity|discriminate].
  - apply (proj1 (proj2 (proj2 (proj2
             (storage_round_trip (JS:=sessionJson) (JZ:=zoneJson)
                (LS:=smallStorage) ∅
                [newSession "a" 1; newSession "b" 22; newSession "c" 333;
                 newSession "d" 4444; newSession "e" 55555;
                 newSession "f" 666666; newSession "g" 7777777] []))))).
    reflexivity.
Defined.

(** X21. The three collections are stored apart: saving one of them leaves
    what the other two load unchanged.  After [clearAllData] each of them
    loads as the empty list. *)
Theorem storage_keys_independent
    `{JS : Json WalkSession} `{JZ : Json Zone} `{LS : LocalStorage}
    (store : gmap string string) (xs : list WalkSession) (zs : list Zone) :
  loadCalmZones (saveSessions xs store) = loadCalmZones store ∧
  loadStressZones (saveSessions xs store) = loadStressZones store ∧
  loadSessions (saveCalmZones zs store) = loadSessions store ∧
  loadStressZones (saveCalmZones zs store) = loadStressZones store ∧
  loadSessions (saveStressZones zs store) = loadSessions store ∧
  loadCalmZones (saveStressZones zs store) = loadCalmZones store ∧
  loadSessions (clearAllData store) = anArray [] ∧
  loadCalmZones (clearAllData store) = anArray [] ∧
  loadStressZones (clearAllData store) = anArray [].
Proof.
  repeat (split; [by apply loadList_saveList_ne|]).
  unfold loadSessions, loadCalmZones, loadStressZones, loadList, clearAllData.
  simpl. unfold SESSIONS, CALM_ZONES, STRESS_ZONES, APP_STATE.
  repeat split.
  - rewrite !lookup_delete_ne by done. by rewrite lookup_delete_eq.
  - rewrite !lookup_delete_ne by done. rewrite lookup_delete_eq.
    done.
  - rewrite !lookup_delete_ne by done. by rewrite lookup_delete_eq.
Qed.

(** X22. [addSession] appends: when the stored value is an array and the
    write goes through, the stored sessions are afterwards the previously
    stored ones followed by the new one (provided the codec reads that
    list back); when [setItem] throws the storage is left as it was.  A
    stored text that does not parse counts as the empty array, so the
    sessions it held are replaced by the new session alone.  When the
    stored value is not an array, [addSession] throws and stores
    nothing. *)
Theorem addSession_appends
    `{JS : Json WalkSession} `{LS : LocalStorage}
    (store : gmap string string) (session : WalkSession) :
  (∀ sessions0, loadSessions store = anArray sessions0 →
     setItemThrows SESSIONS (stringify (sessions0 ++ [session])) store = false →
     parse (stringify (sessions0 ++ [session]))
       = Some (anArray (sessions0 ++ [session])) →
     stringify (sessions0 ++ [session]) ≠ "" →
     ∃ store', addSession session store = Some store' ∧
               loadSessions store' = anArray (sessions0 ++ [session])) ∧
  (∀ sessions0, loadSessions store = anArray sessions0 →
     setItemThrows SESSIONS (stringify (sessions0 ++ [session])) store = true →
     addSession session store = Some store) ∧
  (∀ data, store !! SESSIONS = Some data →
     parse (A:=WalkSession) data = None →
     loadSessions store = anArray []) ∧
  (loadSessions store = notAnArray → addSession session store = None).
Proof.
  split; [|split; [|split]].
  - intros sessions0 Hload Hok Hrt Hne. unfold addSession. rewrite Hload.
    eexists. split; [reflexivity|]. by apply loadList_saveList.
  - intros sessions0 Hload Hno. unfold addSession. rewrite Hload.
    f_equal. by apply saveList_refused.
  - intros data Hd Hp. unfold loadSessions, loadList. rewrite Hd, Hp.
    by destruct (String.eqb data "").
  - intros Hload. unfold addSession. by rewrite Hload.
Qed.

Lemma addSession_appends_witness :
  (∃ store',
     addSession (newSession "c" 5) {[ SESSIONS := "[a:1,b:2]" ]} = Some store' ∧
     loadSessions store'
     = anArray [newSession "a" 1; newSession "b" 2; newSession "c" 5]) ∧
  addSession (newSession "c" 5) {[ SESSIONS := "null" ]} = None.
Proof.
  split.
  - apply (proj1 (addSession_appends (JS:=sessionJson) (LS:=smallStorage)
                    {[ SESSIONS := "[a:1,b:2]" ]} (newSession "c" 5))
             [newSession "a" 1; newSession "b" 2]);
      [reflexivity|reflexivity|reflexivity|discriminate].
  - apply (proj2 (proj2 (proj2
             (addSession_appends (JS:=sessionJson) (LS:=smallStorage)
                {[ SESSIONS := "null" ]} (newSession "c" 5))))).
    reflexivity.
Defined.

(** X23. [updateSession] with an id that no stored session has leaves the
    storage untouched.  Otherwise it replaces the first stored session
    with that id, and only that one: the other positions and the number of
    sessions are unchanged (provided the write goes through and the codec
    reads the new list back); when [setItem] throws the storage is left as
    it was.  When the stored value is not an array, [updateSession]
    throws and stores nothing. *)
Theorem updateSession_replaces_first
    `{JS : Json WalkSession} `{LS : LocalStorage}
    (store : gmap string string) (session : WalkSession) :
  (∀ sessions0, loadSessions store = anArray sessions0 →
     (∀ x, x ∈ sessions0 → session_id x ≠ session_id session) →
     updateSession session store = Some store) ∧
  (∀ sessions0 old, loadSessions store = anArray sessions0 →
     old ∈ sessions0 → session_id old = session_id session →
     ∃ i first,
       sessions0 !! i = Some first ∧
       session_id first = session_id session ∧
       (∀ j y, (j < i)%nat → sessions0 !! j = Some y →
               session_id y ≠ session_id session) ∧
       (setItemThrows SESSIONS (stringify (<[i := session]> sessions0)) store
          = false →
        parse (stringify (<[i := session]> sessions0))
          = Some (anArray (<[i := session]> sessions0)) →
        stringify (<[i := session]> sessions0) ≠ "" →
        ∃ store', updateSession session store = Some store' ∧
          loadSessions store' = anArray (<[i := session]> sessions0) ∧
          length (<[i := session]> sessions0) = length sessions0 ∧
          ∀ j, j ≠ i → <[i := session]> sessions0 !! j = sessions0 !! j) ∧
       (setItemThrows SESSIONS (stringify (<[i := session]> sessions0)) store
          = true →
        updateSession session store = Some store)) ∧
  (loadSessions store = notAnArray → updateSession session store = None).
Proof.
  split; [|split].
  - intros sessions0 Hload Hall. unfold updateSession. rewrite Hload.
    by rewrite (proj2 (findIndexById_None _ _) Hall).
  - intros sessions0 old Hload Hold Hid. unfold updateSession. rewrite Hload.
    destruct (findIndexById (session_id session) sessions0) as [i|] eqn:Ef.
    + destruct (findIndexById_Some _ _ _ Ef) as [(first & Hi & Hfid) Hfirst].
      exists i, first. split; [done|]. split; [done|]. split; [done|].
      split.
      * intros Hok Hrt Hne. eexists. split; [reflexivity|].
        split; [by apply loadList_saveList|].
        split; [apply length_insert|].
        intros j Hj. by apply list_lookup_insert_ne.
      * intros Hno. f_equal. by apply saveList_refused.
    + exfalso. apply (proj1 (findIndexById_None _ _) Ef old Hold Hid).
  - intros Hload. unfold updateSession. by rewrite Hload.
Qed.

Lemma updateSession_replaces_first_witness :
  ∃ store',
    updateSession (newSession "b" 9) {[ SESSIONS := "[a:1,b:2,b:3]" ]}
    = Some store' ∧
    loadSessions store'
    = anArray [newSession "a" 1; newSession "b" 9; newSession "b" 3].
Proof.
  destruct (proj1 (proj2 (updateSession_replaces_first (JS:=sessionJson)
                     (LS:=smallStorage)
                     {[ SESSIONS := "[a:1,b:2,b:3]" ]} (newSession "b" 9)))
              [newSession "a" 1; newSession "b" 2; newSession "b" 3]
              (newSession "b" 2))
    as (i & first & Hi & Hfid & Hfirst & Hok & _).
  - reflexivity.
  - apply list_elem_of_lookup. by exists 1%nat.
  - reflexivity.
  - assert (Ei : i = 1%nat).
    { destruct i as [|[|[|i]]]; simpl in Hi.
      - by simplify_eq.
      - reflexivity.
      - exfalso. by apply (Hfirst 1%nat (newSession "b" 2)); [lia| |].
      - discriminate Hi. }
    subst i.
    destruct Hok as (store' & Hupd & Hload & _);
      [reflexivity|reflexivity|discriminate|].
    exists store'. split; [exact Hupd|exact Hload].
Defined.

(** ** Coinciding points *)

Lemma flatHost_laws : HostLaws flatHost.
Proof.
  split; simpl.
  - done.
  - intros x Hx. unfold smallSqrt, Qeq in *. simpl in *.
    assert (Qnum x = 0)%Z as -> by lia. done.
  - intros x Hx. unfold smallSqrt, Qlt in *. simpl in *.
    rewrite Z.mul_1_r in *.
    assert (0 < Z.sqrt (Qnum x * Z.pos (Qden x) * 1000000000000))%Z; [|lia].
    apply Z.sqrt_pos. nia.
  - intros y x Hy _. rewrite Hy. unfold Qdiv. ring.
Qed.

(** X24. Two locations with the same latitude and longitude are at
    distance 0, given the elementary facts sin 0 = 0, sqrt 0 = 0, sqrt
    positive on positives and atan2(0, x) = 0 for positive x.  Hence a
    waypoint standing on a zone's center touches the zone whenever the
    radius is not negative, and no zone is found missing at its own
    center. *)
Theorem calculateDistance_coincident `{Host} (L : HostLaws H) (a b : Location) :
  latitude a == latitude b → longitude a == longitude b →
  calculateDistance a b == 0 ∧
  (∀ r, 0 <= r → isWithinRadius a b r = true) ∧
  (∀ p z, pt_latitude p == latitude (center z) →
          pt_longitude p == longitude (center z) →
          0 <= radius z → touches p z).
Proof.
  assert (Hdist : ∀ a b, latitude a == latitude b → longitude a == longitude b →
            calculateDistance a b == 0).
  { clear a b. intros a b Hlat Hlng. unfold calculateDistance. cbv zeta.
    assert (S1 : Math_sin ((latitude b - latitude a) * Math_PI / 180 / 2) == 0).
    { apply sin_zero. rewrite Hlat. unfold Qdiv. ring. }
    assert (S2 : Math_sin ((longitude b - longitude a) * Math_PI / 180 / 2) == 0).
    { apply sin_zero. rewrite Hlng. unfold Qdiv. ring. }
    set (a0 := Math_sin _ * Math_sin _ + _).
    assert (Ha : a0 == 0).
    { unfold a0. rewrite S1, S2. ring. }
    assert (A : Math_atan2 (Math_sqrt a0) (Math_sqrt (1 - a0)) == 0).
    { apply atan2_zero; [by apply sqrt_zero|].
      apply sqrt_pos. rewrite Ha. reflexivity. }
    rewrite A. ring. }
  intros Hlat Hlng. split; [by apply Hdist|]. split.
  - intros r Hr. unfold isWithinRadius. apply Qle_bool_iff.
    by rewrite Hdist.
  - intros p z Hp1 Hp2 Hr. unfold touches.
    rewrite Hdist; [done| |]; simpl; by symmetry.
Qed.

Lemma calculateDistance_coincident_witness :
  calculateDistance (H:=flatHost) (at_ (1 # 3) (2 # 7)) (at_ (1 # 3) (2 # 7))
  == 0.
Proof.
  exact (proj1 (calculateDistance_coincident (H:=flatHost) flatHost_laws
                  (at_ (1 # 3) (2 # 7)) (at_ (1 # 3) (2 # 7))
                  (Qeq_refl _) (Qeq_refl _))).
Defined.

(** ** More on rates, scores and waypoints *)

(** X25. The three mood rates of a non-empty cluster add up to 1, so a
    cluster never passes the stress test and the calm threshold together:
    the order of the two tests of the classifier decides nothing. *)
Theorem moodRate_partition (es : list MoodEntry) :
  es ≠ [] →
  moodRate stressed es + moodRate calm es + moodRate neutral es == 1 ∧
  ¬ ((6 # 10) < moodRate stressed es ∧ (6 # 10) < moodRate calm es) ∧
  (∀ c, c_entries c = es →
     (calmCandidate c ↔ (6 # 10) < moodRate calm es ∧ (2 ≤ length es)%nat)).
Proof.
  intros Hne.
  assert (Hsum : moodRate stressed es + moodRate calm es + moodRate neutral es
                 == 1).
  { unfold moodRate. pose proof (countMood_total es) as Htot.
    assert (Hpos : ¬ inject_Z (Z.of_nat (length es)) == 0).
    { destruct es; [done|]. unfold Qeq. simpl. lia. }
    assert (E : inject_Z (Z.of_nat (countMood stressed es))
                + inject_Z (Z.of_nat (countMood calm es))
                + inject_Z (Z.of_nat (countMood neutral es))
                == inject_Z (Z.of_nat (length es))).
    { rewrite <- !inject_Z_plus. apply inject_Z_injective. lia. }
    set (t := inject_Z (Z.of_nat (length es))) in *.
    set (a := inject_Z (Z.of_nat (countMood stressed es))) in *.
    set (b := inject_Z (Z.of_nat (countMood calm es))) in *.
    set (n := inject_Z (Z.of_nat (countMood neutral es))) in *.
    transitivity ((a + b + n) / t); [field; exact Hpos|].
    rewrite E. field. exact Hpos. }
  pose proof (moodRate_range neutral es) as [Hn _].
  assert (Hexcl : ¬ ((6 # 10) < moodRate stressed es
                     ∧ (6 # 10) < moodRate calm es)).
  { intros [? ?]. lra. }
  split; [done|]. split; [done|].
  intros c Hc. unfold calmCandidate, stressCandidate. rewrite Hc.
  split; [tauto|]. intros [? ?]. split; [|done]. intros [? _]. tauto.
Qed.

Lemma moodRate_partition_witness :
  moodRate stressed walk3 + moodRate calm walk3 + moodRate neutral walk3 == 1.
Proof.
  exact (proj1 (moodRate_partition walk3 ltac:(discriminate))).
Defined.

Section ScoreOrder.
Context `{Host}.

Lemma hitsAt_perm (p : RoutePoint) (zs zs' : list Zone) :
  zs ≡ₚ zs' →
  length (List.filter (touchesb p) zs) = length (List.filter (touchesb p) zs').
Proof.
  induction 1 as [|z l l' _ IH|y z l|l l' l'' _ IH1 _ IH2]; simpl.
  - done.
  - destruct (touchesb p z); simpl; by rewrite IH.
  - destruct (touchesb p z), (touchesb p y); done.
  - by rewrite IH1.
Qed.

Lemma hitCount_perm (ws ws' : list RoutePoint) (zs zs' : list Zone) :
  ws ≡ₚ ws' → zs ≡ₚ zs' → hitCount ws zs = hitCount ws' zs'.
Proof.
  intros Hw Hz.
  assert (Hz' : ∀ l, hitCount l zs = hitCount l zs').
  { induction l as [|p l IH]; [done|].
    by rewrite !hitCount_cons, IH, (hitsAt_perm p zs zs' Hz). }
  rewrite <- Hz'. clear Hz Hz'.
  induction Hw as [|p l l' _ IH|p q l|l l' l'' _ IH1 _ IH2].
  - done.
  - by rewrite !hitCount_cons, IH.
  - rewrite !hitCount_cons. lia.
  - by rewrite IH1.
Qed.
End ScoreOrder.

(** X26. The order of the waypoints and of the zones in either store
    bears on the score through rounding only: a reordering leaves the
    numbers of stress hits and of calm hits as they are, and with [n] hits
    in all the two scores differ by at most [2 * n * (n + 6) * 2^-53]. *)
Theorem analyzeRouteOptimization_order `{Host}
    (ws ws' : list RoutePoint) (cz cz' sz sz' : list Zone) :
  ws ≡ₚ ws' → cz ≡ₚ cz' → sz ≡ₚ sz' →
  hitCount ws sz = hitCount ws' sz' ∧
  hitCount ws cz = hitCount ws' cz' ∧
  Qabs (calmScore (analyzeRouteOptimization ws cz sz)
        - calmScore (analyzeRouteOptimization ws' cz' sz'))
  <= 2 * (inject_Z (Z.of_nat (hitCount ws sz + hitCount ws cz)
                    * (Z.of_nat (hitCount ws sz + hitCount ws cz) + 6))
          * (1 # 9007199254740992)).
Proof.
  intros Hw Hc Hs.
  pose proof (hitCount_perm ws ws' sz sz' Hw Hs) as Es.
  pose proof (hitCount_perm ws ws' cz cz' Hw Hc) as Ec.
  split; [exact Es|]. split; [exact Ec|].
  pose proof (analyzeRouteOptimization_near cz sz ws) as N1.
  pose proof (analyzeRouteOptimization_near cz' sz' ws') as N2.
  rewrite <- Es, <- Ec in N2.
  apply Qabs_Qle_condition in N1 as [N1 N1'].
  apply Qabs_Qle_condition in N2 as [N2 N2'].
  apply Qabs_Qle_condition. split; lra.
Qed.

Lemma analyzeRouteOptimization_order_witness :
  Qabs (calmScore (analyzeRouteOptimization (H:=flatHost)
                     [origin; {| pt_latitude := 1; pt_longitude := 1 |}]
                     [zone_ "c" 1 1 30 (1 # 2) 3 7]
                     [zone_ "s" 0 0 30 (1 # 2) 3 7])
        - calmScore (analyzeRouteOptimization (H:=flatHost)
                       [{| pt_latitude := 1; pt_longitude := 1 |}; origin]
                       [zone_ "c" 1 1 30 (1 # 2) 3 7]
                       [zone_ "s" 0 0 30 (1 # 2) 3 7]))
  <= 2 * (inject_Z (Z.of_nat 2 * (Z.of_nat 2 + 6)) * (1 # 9007199254740992)).
Proof.
  exact (proj2 (proj2 (analyzeRouteOptimization_order (H:=flatHost)
           [origin; {| pt_latitude := 1; pt_longitude := 1 |}]
           [{| pt_latitude := 1; pt_longitude := 1 |}; origin]
           [zone_ "c" 1 1 30 (1 # 2) 3 7] [zone_ "c" 1 1 30 (1 # 2) 3 7]
           [zone_ "s" 0 0 30 (1 # 2) 3 7] [zone_ "s" 0 0 30 (1 # 2) 3 7]
           (Permutation_swap _ _ _) (Permutation_refl _)
           (Permutation_refl _)))).
Defined.

(** The order does matter: a waypoint on a stress zone followed by a
    waypoint on a calm zone scores 0.45, the same two waypoints the other
    way round score 0.45000000000000007. *)
Example analyzeRouteOptimization_order_matters :
  sameNumber 0.45%float
    (calmScore (analyzeRouteOptimization (H:=flatHost)
                  [origin; {| pt_latitude := 1; pt_longitude := 1 |}]
                  [zone_ "c" 1 1 30 (1 # 2) 3 7]
                  [zone_ "s" 0 0 30 (1 # 2) 3 7])) = true ∧
  sameNumber (0.5 + 0.05 - 0.1)%float
    (calmScore (analyzeRouteOptimization (H:=flatHost)
                  [{| pt_latitude := 1; pt_longitude := 1 |}; origin]
                  [zone_ "c" 1 1 30 (1 # 2) 3 7]
                  [zone_ "s" 0 0 30 (1 # 2) 3 7])) = true ∧
  calmScore (analyzeRouteOptimization (H:=flatHost)
               [origin; {| pt_latitude := 1; pt_longitude := 1 |}]
               [zone_ "c" 1 1 30 (1 # 2) 3 7]
               [zone_ "s" 0 0 30 (1 # 2) 3 7])
  < calmScore (analyzeRouteOptimization (H:=flatHost)
                 [{| pt_latitude := 1; pt_longitude := 1 |}; origin]
                 [zone_ "c" 1 1 30 (1 # 2) 3 7]
                 [zone_ "s" 0 0 30 (1 # 2) 3 7]).
Proof.
  split; [vm_compute; reflexivity|]. split; [vm_compute; reflexivity|].
  apply Qltb_lt. vm_compute. reflexivity.
Qed.


